(** * Verification of the tailwindcss-sorter core

    Shallow embedding of [src/src/tailwind/sorting.ts] (the token normaliser)
    and of [src/src/matcher.ts] (the span extractors) of the VS Code extension
    tailwindcss-sorter.

    JavaScript strings are modelled as lists of code units; the model uses
    8-bit units ([list ascii]).  Every character the code dispatches on
    (whitespace, quotes, parentheses, backslash, braces, dots) is ASCII, so
    the choice of unit width only changes the offsets of non-ASCII text. *)

From Stdlib Require Import List Ascii String ZArith Lia Bool Permutation Sorted.
Import ListNotations.

Open Scope string_scope.
Open Scope list_scope.

(** [length] is the length of a list throughout. *)
Abbreviation length := List.length.

(* ------------------------------------------------------------------ *)
(** ** Strings and characters *)

Abbreviation jstr := (list ascii).

(** A JS string literal, written as a Rocq string. *)
Definition js (s : string) : jstr := list_ascii_of_string s.

Fixpoint jstr_eqb (a b : jstr) : bool :=
  match a, b with
  | [], [] => true
  | x :: a', y :: b' => Ascii.eqb x y && jstr_eqb a' b'
  | _, _ => false
  end.

(** The character class [[\t\r\f\n ]] used by the tokeniser of [sortClasses]. *)
Definition is_split_ws (c : ascii) : bool :=
  let n := nat_of_ascii c in
  (Nat.eqb n 9) || (Nat.eqb n 13) || (Nat.eqb n 12) || (Nat.eqb n 10) || (Nat.eqb n 32).

(** The regex class [\s], restricted to the 8-bit units of the model. *)
Definition is_js_space (c : ascii) : bool :=
  let n := nat_of_ascii c in
  (Nat.eqb n 9) || (Nat.eqb n 10) || (Nat.eqb n 11) || (Nat.eqb n 12) || (Nat.eqb n 13) || (Nat.eqb n 32).

(** [String.prototype.startsWith] *)
Fixpoint js_startsWith (s pre : jstr) : bool :=
  match pre, s with
  | [], _ => true
  | p :: pre', c :: s' => Ascii.eqb p c && js_startsWith s' pre'
  | _ :: _, [] => false
  end.

(** [String.prototype.includes] *)
Fixpoint js_includes (s sub : jstr) : bool :=
  js_startsWith s sub ||
  match s with
  | [] => false
  | _ :: s' => js_includes s' sub
  end.

(** [Array.prototype.filter] with a callback that reads the index. *)
Fixpoint filteri_go {A} (p : A -> nat -> bool) (i : nat) (l : list A) : list A :=
  match l with
  | [] => []
  | x :: t => if p x i then x :: filteri_go p (S i) t else filteri_go p (S i) t
  end.

Definition filteri {A} (p : A -> nat -> bool) (l : list A) : list A :=
  filteri_go p 0 l.

(* ------------------------------------------------------------------ *)
(** ** [Array.prototype.sort]

    ECMAScript requires a stable sort.  V8 sorts the short arrays met here by
    binary insertion sort: each element, in input order, is inserted into the
    sorted prefix after every element [y] with [cmp x y >= 0].  When the
    prefix is ordered, the binary search finds the same place as the linear
    scan below. *)

Section JsSort.
Context {A : Type} (cmp : A -> A -> Z).

Fixpoint sort_insert (x : A) (l : list A) : list A :=
  match l with
  | [] => [x]
  | y :: l' => if (cmp x y <? 0)%Z then x :: l else y :: sort_insert x l'
  end.

Definition js_sort (l : list A) : list A :=
  fold_left (fun acc x => sort_insert x acc) l [].
End JsSort.

(* ------------------------------------------------------------------ *)
(** ** The ranking oracle ([TailwindContext], tailwind/types.ts) *)

Record TailwindContext := {
  getClassOrder : list jstr -> list (jstr * option Z)
}.

(** The oracle contract of the spec: one entry per input token, in order. *)
Definition oracle_ok (context : TailwindContext) (classList : list jstr) : Prop :=
  map fst (getClassOrder context classList) = classList.

(** An oracle that ranks every token on its own text, as Tailwind does. *)
Definition pointwise (rank : jstr -> option Z) : TailwindContext :=
  {| getClassOrder := fun cl => map (fun c => (c, rank c)) cl |}.

(* ------------------------------------------------------------------ *)
(** ** sorting.ts: [bigSign], [reorderClasses], [sortClassList] *)

Definition bigSign (bigIntValue : Z) : Z :=
  ((if (0 <? bigIntValue)%Z then 1 else 0) - (if (bigIntValue <? 0)%Z then 1 else 0))%Z.

(** The literal ellipsis and the Unicode ellipsis U+2026 (its UTF-8 units). *)
Definition dots : jstr := js "...".
Definition ellipsis_char : jstr := js "…".

Definition is_ellipsis (name : jstr) : bool :=
  jstr_eqb name dots || jstr_eqb name ellipsis_char.

(** [a === z] on [bigint | null] *)
Definition order_eqb (a z : option Z) : bool :=
  match a, z with
  | None, None => true
  | Some x, Some y => Z.eqb x y
  | _, _ => false
  end.

(** The comparator passed to [orderedClasses.sort] in [reorderClasses]. *)
Definition compareClasses (ea ez : jstr * option Z) : Z :=
  let '(nameA, a) := ea in
  let '(nameZ, z) := ez in
  if is_ellipsis nameA then 1%Z
  else if is_ellipsis nameZ then (-1)%Z
  else if order_eqb a z then 0%Z
  else match a, z with
       | None, _ => (-1)%Z
       | _, None => 1%Z
       | Some x, Some y => bigSign (x - y)
       end.

(** [reorderClasses]; the optional debug logging is omitted. *)
Definition reorderClasses (classList : list jstr) (context : TailwindContext)
  : list (jstr * option Z) :=
  js_sort compareClasses (getClassOrder context classList).

(** The [filter] of [sortClassList] with [removeDuplicates = true]: returns the
    kept entries and [removedIndices] (indices into the sorted list). *)
Fixpoint dedup_go (seenClasses : list jstr) (index : nat) (l : list (jstr * option Z))
  : list (jstr * option Z) * list nat :=
  match l with
  | [] => ([], [])
  | (cls, order) :: rest =>
      if existsb (jstr_eqb cls) seenClasses then
        let '(kept, removed) := dedup_go seenClasses (S index) rest in
        (kept, index :: removed)
      else
        let seen' := match order with Some _ => cls :: seenClasses | None => seenClasses end in
        let '(kept, removed) := dedup_go seen' (S index) rest in
        ((cls, order) :: kept, removed)
  end.

Record SortClassListResult := {
  classList : list jstr;
  removedIndices : list nat
}.

(** The ranked list that [sortClassList] keeps before dropping the ranks. *)
Definition sortClassList_ranked (cl : list jstr) (context : TailwindContext)
  (removeDuplicates : bool) : list (jstr * option Z) * list nat :=
  let orderedClasses := reorderClasses cl context in
  if removeDuplicates then dedup_go [] 0 orderedClasses else (orderedClasses, []).

Definition sortClassList (cl : list jstr) (context : TailwindContext)
  (removeDuplicates : bool) : SortClassListResult :=
  let '(orderedClasses, removed) := sortClassList_ranked cl context removeDuplicates in
  {| classList := map fst orderedClasses; removedIndices := removed |}.

(** A small oracle used by the examples. *)
Definition rank_abc (c : jstr) : option Z :=
  if jstr_eqb c (js "a") then Some 1%Z
  else if jstr_eqb c (js "b") then Some 2%Z
  else if jstr_eqb c (js "c") then Some 3%Z
  else None.

Example sortClassList_ex1 :
  classList (sortClassList (map js ["x"; "b"; "..."; "a"; "b"; "x"]) (pointwise rank_abc) true)
  = map js ["x"; "x"; "a"; "b"; "..."].
Proof. reflexivity. Qed.

(* ------------------------------------------------------------------ *)
(** ** sorting.ts: [sortClasses] *)

(** [classStr.split(/([\t\r\f\n ]+)/)]: the pieces between maximal runs of
    [[\t\r\f\n ]], with each run kept (capturing group) between them:
    [[token0; ws0; token1; ws1; ...; tokenN]], tokens possibly empty. *)
Fixpoint split_ws (s : jstr) : list jstr :=
  match s with
  | [] => [[]]
  | c :: rest =>
      let parts := split_ws rest in
      if is_split_ws c then
        match parts with
        | [] :: w :: parts' => [] :: (c :: w) :: parts'
        | _ => [] :: [c] :: parts
        end
      else
        match parts with
        | t :: parts' => (c :: t) :: parts'
        | [] => [[c]]
        end
  end.

(** [/^[\t\r\f\n ]+$/.test(s)] *)
Definition only_split_ws (s : jstr) : bool :=
  match s with
  | [] => false
  | _ => forallb is_split_ws s
  end.

(** Drops the leading run of [\s] characters. *)
Fixpoint drop_leading_ws (s : jstr) : jstr :=
  match s with
  | c :: s' => if is_js_space c then drop_leading_ws s' else s
  | [] => []
  end.

(** [s.replace(/^\s+/, rep)]: the leading run of [\s], if any, becomes [rep]. *)
Definition replace_leading_ws (s rep : jstr) : jstr :=
  match s with
  | c :: _ => if is_js_space c then rep ++ drop_leading_ws s else s
  | [] => s
  end.

(** [s.replace(/\s+$/, rep)] (with or without the [g] flag, since the match is
    anchored at the end): the trailing run of [\s], if any, becomes [rep]. *)
Definition replace_trailing_ws (s rep : jstr) : jstr :=
  match rev s with
  | c :: _ => if is_js_space c then rev (drop_leading_ws (rev s)) ++ rep else s
  | [] => s
  end.

(** [arr[arr.length - 1]] *)
Definition js_last {A} (l : list A) : option A :=
  match rev l with
  | x :: _ => Some x
  | [] => None
  end.

(** [arr.shift() ?? ''] returning the shifted value and the rest. *)
Definition shift_or_empty (l : list jstr) : jstr * list jstr :=
  match l with
  | x :: t => (x, t)
  | [] => ([], [])
  end.

(** [arr.pop() ?? ''] returning the popped value and the rest. *)
Definition pop_or_empty (l : list jstr) : jstr * list jstr :=
  match js_last l with
  | Some x => (x, removelast l)
  | None => ([], [])
  end.

(** [for (i ...) result += `${classList[i]}${whitespace[i] ?? ''}`] *)
Fixpoint stitch (classes whitespace : list jstr) : jstr :=
  match classes with
  | [] => []
  | c :: cs =>
      c ++ match whitespace with w :: _ => w | [] => [] end ++ stitch cs (tl whitespace)
  end.

Inductive CollapseWhitespace :=
| CollapseBool (b : bool)
| CollapseObj (start end_ : bool).

Record SortOptions := {
  ignoreFirst : bool;
  ignoreLast : bool;
  removeDuplicates : bool;
  collapseWhitespace : CollapseWhitespace
}.

(** The destructuring defaults of [sortClasses]. *)
Definition default_options : SortOptions :=
  {| ignoreFirst := false; ignoreLast := false; removeDuplicates := true;
     collapseWhitespace := CollapseObj true true |}.

(** [shouldCollapse]: [None] stands for the falsy value [false]. *)
Definition shouldCollapse (collapse : CollapseWhitespace) : option (bool * bool) :=
  match collapse with
  | CollapseBool true => Some (true, true)
  | CollapseBool false => None
  | CollapseObj s e => Some (s, e)
  end.

Definition space : jstr := js " ".

(** [whitespace.filter((_, index) => !removedIndices.has(index + 1))] *)
Definition drop_ws_before_removed (removedIndices : list nat) (whitespace : list jstr)
  : list jstr :=
  filteri (fun _ index => negb (existsb (Nat.eqb (S index)) removedIndices)) whitespace.

Definition isSome {A} (o : option A) : bool :=
  match o with Some _ => true | None => false end.

Definition sortClasses (classStr : jstr) (context : TailwindContext) (options : SortOptions)
  : jstr :=
  match classStr with
  | [] => classStr
  | _ =>
  if js_includes classStr (js "{{") then classStr else
  let collapse := shouldCollapse (collapseWhitespace options) in
  if isSome collapse && only_split_ws classStr then space else
  let parts := split_ws classStr in
  let classes0 := filteri (fun _ i => Nat.even i) parts in
  let whitespace0 := filteri (fun _ i => negb (Nat.even i)) parts in
  let classes1 :=
    match js_last classes0 with
    | Some [] => removelast classes0
    | _ => classes0
    end in
  let whitespace1 :=
    if isSome collapse then map (fun _ => space) whitespace0 else whitespace0 in
  let '(prefix, classes2, whitespace2) :=
    if ignoreFirst options then
      let '(c, cs) := shift_or_empty classes1 in
      let '(w, ws) := shift_or_empty whitespace1 in
      (c ++ w, cs, ws)
    else ([], classes1, whitespace1) in
  let '(suffix, classes3, whitespace3) :=
    if ignoreLast options then
      let '(w, ws) := pop_or_empty whitespace2 in
      let '(c, cs) := pop_or_empty classes2 in
      (w ++ c, cs, ws)
    else ([], classes2, whitespace2) in
  let r := sortClassList classes3 context (removeDuplicates options) in
  let whitespace4 := drop_ws_before_removed (removedIndices r) whitespace3 in
  let result := stitch (classList r) whitespace4 in
  match collapse with
  | Some (st, en) =>
      replace_trailing_ws prefix space
      ++ replace_trailing_ws (replace_leading_ws result (if st then [] else space))
                             (if en then [] else space)
      ++ replace_leading_ws suffix space
  | None => prefix ++ result ++ suffix
  end
  end.

(** The oracle of the spec's scenarios: [p-0] before its variant [sm:p-0];
    [flex] known; anything else unknown. *)
Definition rank_demo (c : jstr) : option Z :=
  if jstr_eqb c (js "p-0") then Some 10%Z
  else if jstr_eqb c (js "sm:p-0") then Some 20%Z
  else if jstr_eqb c (js "flex") then Some 5%Z
  else None.

Example sortClasses_ex1 :
  sortClasses (js "sm:p-0 p-0") (pointwise rank_demo) default_options = js "p-0 sm:p-0".
Proof. reflexivity. Qed.

Example sortClasses_ex2 :
  sortClasses (js "  sm:p-0   p-0 ") (pointwise rank_demo) default_options = js "p-0 sm:p-0".
Proof. reflexivity. Qed.

Example sortClasses_ex3 :
  sortClasses (js "flex flex") (pointwise rank_demo) default_options = js "flex".
Proof. reflexivity. Qed.

Example sortClasses_ex4 :
  sortClasses (js "idonotexist sm:p-0 p-0 idonotexist") (pointwise rank_demo) default_options
  = js "idonotexist idonotexist p-0 sm:p-0".
Proof. reflexivity. Qed.

Example sortClasses_ex5 :
  sortClasses (js "p-4 flex ...") (pointwise rank_demo) default_options = js "p-4 flex ...". 
Proof. reflexivity. Qed.

(** The texts of the known-rank entries of a ranked list. *)
Definition known_names (l : list (jstr * option Z)) : list jstr :=
  map fst (filter (fun e => isSome (snd e)) l).

Definition tab : jstr := [ascii_of_nat 9].
Definition newline : jstr := [ascii_of_nat 10].

(** The options the extension passes when whitespace is preserved. *)
Definition preserve_ws_options : SortOptions :=
  {| ignoreFirst := false; ignoreLast := false; removeDuplicates := true;
     collapseWhitespace := CollapseBool false |}.

(** A canonical class string: tokens joined by single spaces. *)
Fixpoint join_space (toks : list jstr) : jstr :=
  match toks with
  | [] => []
  | [t] => t
  | t :: ts => t ++ space ++ join_space ts
  end.

(** Its tokenisation: the tokens with a single-space run between each pair. *)
Fixpoint interleave_space (toks : list jstr) : list jstr :=
  match toks with
  | [] => []
  | [t] => [t]
  | t :: ts => t :: space :: interleave_space ts
  end.

(** An oracle under which [sortClasses] is not idempotent: it gives the empty
    token a known rank between those of [a] and [b]. *)
Definition rank_empty_mid (c : jstr) : option Z :=
  if jstr_eqb c (js "a") then Some 1%Z
  else if jstr_eqb c [] then Some 2%Z
  else if jstr_eqb c (js "b") then Some 3%Z
  else None.

(** [if (classes[classes.length - 1] === '') classes.pop()] *)
Definition drop_trailing_empty (classes : list jstr) : list jstr :=
  match js_last classes with
  | Some [] => removelast classes
  | _ => classes
  end.

(* ------------------------------------------------------------------ *)
(** ** matcher.ts: the span extractors *)

Definition dq : ascii := ascii_of_nat 34.
Definition backslash : ascii := ascii_of_nat 92.

(** A JS string literal written with ['] standing for the double quote. *)
Definition js_dq (s : string) : jstr :=
  map (fun c => if Ascii.eqb c "'"%char then dq else c) (js s).

(** [s.trim() === ''] *)
Definition js_trim_empty (s : jstr) : bool := forallb is_js_space s.

(** [s.slice(b, e)] for [b <= e]. *)
Definition js_slice (s : jstr) (b e : nat) : jstr := firstn (e - b) (skipn b s).

(** [s.indexOf(sub)], [None] standing for [-1]. *)
Fixpoint js_indexOf_from (s sub : jstr) (k : nat) : option nat :=
  if js_startsWith s sub then Some k
  else match s with
       | [] => None
       | _ :: s' => js_indexOf_from s' sub (S k)
       end.

Definition js_indexOf (s sub : jstr) : option nat := js_indexOf_from s sub 0.

(** A [vscode.Range]; a position is represented by its offset. *)
Record Range := { rangeStart : nat; rangeEnd : nat }.

(** [document.positionAt] clamps an offset to the document. *)
Definition positionAt (text : jstr) (offset : nat) : nat := Nat.min offset (length text).

Record ClassMatch := {
  fullMatch : jstr;
  classString : jstr;
  startOffset : nat;
  classStartOffset : nat;
  range : Range
}.

(** A [RegExpExecArray]: [index] and the entries [match[0]], [match[1]], ...
    ([None] for a group that did not participate). *)
Record RegExpExecArray := {
  index : nat;
  items : list (option jstr)
}.

Definition match_item (m : RegExpExecArray) (i : nat) : option jstr := nth i (items m) None.

(** A rule.  The regex engine is not modelled: [regex text] is the sequence of
    results that [regex.exec(text)] returns in the [while] loop of
    [findMatchesForPattern] before returning [null] (the empty sequence for a
    pattern that does not compile, as the [catch] does). *)
Record PatternConfig := {
  regex : jstr -> list RegExpExecArray;
  captureGroup : option nat
}.

Record LanguageConfig := { patterns : list PatternConfig }.

Fixpoint omap {A B} (f : A -> option B) (l : list A) : list B :=
  match l with
  | [] => []
  | x :: t => match f x with Some y => y :: omap f t | None => omap f t end
  end.

(** The body of the [while] loop of [findMatchesForPattern] for one match. *)
Definition patternMatch (text : jstr) (captureGroup : nat) (m : RegExpExecArray)
  : option ClassMatch :=
  let fullMatch := match match_item m 0 with Some s => s | None => [] end in
  match match_item m captureGroup with
  | None => None
  | Some classString =>
      if js_trim_empty classString then None else
      match js_indexOf fullMatch classString with
      | None => None
      | Some captureStartInMatch =>
          let startOffset := index m in
          let classStartOffset := startOffset + captureStartInMatch in
          let classEndOffset := classStartOffset + length classString in
          Some {| fullMatch := fullMatch; classString := classString;
                  startOffset := startOffset; classStartOffset := classStartOffset;
                  range := {| rangeStart := positionAt text classStartOffset;
                              rangeEnd := positionAt text classEndOffset |} |}
      end
  end.

Definition findMatchesForPattern (text : jstr) (pattern : PatternConfig) : list ClassMatch :=
  let captureGroup := match captureGroup pattern with Some g => g | None => 1 end in
  omap (patternMatch text captureGroup) (regex pattern text).

(** [\s*\(] at the start of [s]: the length of its match. *)
Fixpoint ws_paren (s : jstr) : option nat :=
  match s with
  | [] => None
  | c :: s' =>
      if Ascii.eqb c "("%char then Some 1
      else if is_js_space c then option_map S (ws_paren s')
      else None
  end.

(** [(?:name1|name2|...)\s*\(] tried at the start of [s], the (escaped, so
    literal) names in order: the length of the match. *)
Fixpoint functionStartAt (names : list jstr) (s : jstr) : option nat :=
  match names with
  | [] => None
  | n :: ns =>
      if js_startsWith s n then
        match ws_paren (skipn (length n) s) with
        | Some k => Some (length n + k)
        | None => functionStartAt ns s
        end
      else functionStartAt ns s
  end.

(** The [exec] loop of [functionStartRegex] over the suffix [s] of the text
    at offset [pos]: [(funcMatch.index, funcMatch[0].length)] for each match;
    [skip] characters of the previous match remain before [lastIndex]. *)
Fixpoint functionStarts_go (names : list jstr) (s : jstr) (pos skip : nat) : list (nat * nat) :=
  match s with
  | [] => []
  | _ :: s' =>
      if Nat.ltb 0 skip then functionStarts_go names s' (S pos) (pred skip)
      else match functionStartAt names s with
           | Some len => (pos, len) :: functionStarts_go names s' (S pos) (pred len)
           | None => functionStarts_go names s' (S pos) 0
           end
  end.

Definition functionStarts (names : list jstr) (text : jstr) : list (nat * nat) :=
  functionStarts_go names text 0 0.

Record BalancedContent := { content : jstr; endIndex : nat }.

(** One iteration of the [while] loop of [extractBalancedContent] on the
    state [(depth, inString, escaped)]. *)
Definition balancedStep (st : nat * option ascii * bool) (char : ascii) : nat * option ascii * bool :=
  let '(depth, inString, escaped) := st in
  if escaped then (depth, inString, false)
  else if Ascii.eqb char backslash then (depth, inString, true)
  else match inString with
       | Some q => if Ascii.eqb char q then (depth, None, false) else (depth, inString, false)
       | None =>
           if Ascii.eqb char dq || Ascii.eqb char "'"%char then (depth, Some char, false)
           else if Ascii.eqb char "("%char then (S depth, None, false)
           else if Ascii.eqb char ")"%char then (pred depth, None, false)
           else (depth, None, false)
       end.

Definition depth_of (st : nat * option ascii * bool) : nat :=
  let '(depth, _, _) := st in depth.

(** [while (i < text.length && depth > 0)] over the suffix [s] of the text at
    offset [i]: the final [i] and [depth]. *)
Fixpoint balancedScan (s : jstr) (i : nat) (st : nat * option ascii * bool) : nat * nat :=
  match depth_of st with
  | 0 => (i, 0)
  | _ =>
      match s with
      | [] => (i, depth_of st)
      | c :: s' => balancedScan s' (S i) (balancedStep st c)
      end
  end.

Definition extractBalancedContent (text : jstr) (openParenIndex : nat) : option BalancedContent :=
  match nth_error text openParenIndex with
  | Some c =>
      if Ascii.eqb c "("%char then
        let '(i, depth) := balancedScan (skipn (S openParenIndex) text) (S openParenIndex) (1, None, false) in
        if Nat.eqb depth 0 then
          Some {| content := js_slice text (S openParenIndex) (i - 1); endIndex := i - 1 |}
        else None
      else None
  | None => None
  end.

Record StringMatch := { value : jstr; start : nat; str_fullMatch : jstr }.

(** [.] does not match a line terminator. *)
Definition is_line_terminator (c : ascii) : bool :=
  Nat.eqb (nat_of_ascii c) 10 || Nat.eqb (nat_of_ascii c) 13.

(** The rest of one alternative of [stringRegex] after its opening quote
    [q]: characters other than [q] and backslash, or a backslash followed by
    a character other than a line terminator, then [q].  The result is the
    length of the body before the closing quote.  A backslash always starts an escape pair,
    so the body ends at the first unescaped [q] and backtracking finds no
    other match. *)
Fixpoint stringBody (q : ascii) (s : jstr) : option nat :=
  match s with
  | [] => None
  | c :: s' =>
      if Ascii.eqb c q then Some 0
      else if Ascii.eqb c backslash then
        match s' with
        | d :: s'' =>
            if is_line_terminator d then None
            else option_map (fun n => S (S n)) (stringBody q s'')
        | [] => None
        end
      else option_map S (stringBody q s')
  end.

Definition is_quote (c : ascii) : bool := Ascii.eqb c dq || Ascii.eqb c "'"%char.

(** The [exec] loop of [stringRegex] over the suffix [s] of the content at
    offset [i]; [skip] characters of the previous match remain. *)
Fixpoint stringScan (s : jstr) (i skip : nat) : list StringMatch :=
  match s with
  | [] => []
  | c :: s' =>
      if Nat.ltb 0 skip then stringScan s' (S i) (pred skip)
      else if is_quote c then
        match stringBody c s' with
        | Some n =>
            let value := firstn n s' in
            {| value := value; start := S i; str_fullMatch := [c] ++ value ++ [c] |}
              :: stringScan s' (S i) (S n)
        | None => stringScan s' (S i) 0
        end
      else stringScan s' (S i) 0
  end.

Definition extractStringsFromContent (content : jstr) : list StringMatch :=
  stringScan content 0 0.

(** The body of the inner [for] loop of [findClassFunctionMatches]. *)
Definition functionMatch (text : jstr) (funcIndex startIndex : nat) (strMatch : StringMatch)
  : option ClassMatch :=
  let classString := value strMatch in
  if js_trim_empty classString then None else
  let classStartOffset := startIndex + start strMatch in
  let classEndOffset := classStartOffset + length classString in
  Some {| fullMatch := str_fullMatch strMatch; classString := classString;
          startOffset := funcIndex; classStartOffset := classStartOffset;
          range := {| rangeStart := positionAt text classStartOffset;
                      rangeEnd := positionAt text classEndOffset |} |}.

Definition findClassFunctionMatches (text : jstr) (functionNames : list jstr) : list ClassMatch :=
  match functionNames with
  | [] => []
  | _ =>
      flat_map (fun '(funcIndex, len) =>
        let startIndex := funcIndex + len in
        match extractBalancedContent text (startIndex - 1) with
        | None => []
        | Some argsContent =>
            omap (functionMatch text funcIndex startIndex) (extractStringsFromContent (content argsContent))
        end) (functionStarts functionNames text)
  end.

(** The key [`${classStartOffset}-${classString.length}`]; the decimal
    rendering of two naturals around [-] is injective, so a pair stands for it. *)
Definition matchKey (m : ClassMatch) : nat * nat := (classStartOffset m, length (classString m)).

Definition key_eqb (a b : nat * nat) : bool := Nat.eqb (fst a) (fst b) && Nat.eqb (snd a) (snd b).

Fixpoint deduplicate_go (seen : list (nat * nat)) (matches : list ClassMatch) : list ClassMatch :=
  match matches with
  | [] => []
  | m :: rest =>
      if existsb (key_eqb (matchKey m)) seen then deduplicate_go seen rest
      else m :: deduplicate_go (matchKey m :: seen) rest
  end.

Definition deduplicateMatches (matches : list ClassMatch) : list ClassMatch :=
  deduplicate_go [] matches.

(** [(a, b) => a.startOffset - b.startOffset] *)
Definition compareStart (a b : ClassMatch) : Z := (Z.of_nat (startOffset a) - Z.of_nat (startOffset b))%Z.

(** [findClassMatches]; [classFunctions] is [getConfig().classFunctions]. *)
Definition findClassMatches (text : jstr) (languageConfig : LanguageConfig)
  (classFunctions : list jstr) : list ClassMatch :=
  let matches := flat_map (findMatchesForPattern text) (patterns languageConfig)
                 ++ findClassFunctionMatches text classFunctions in
  deduplicateMatches (js_sort compareStart matches).

Definition DEFAULT_CLASS_FUNCTIONS : list jstr :=
  map js ["cn"; "clsx"; "twMerge"; "twJoin"; "cva"; "cx"; "merge"; "tw"].

(** [extractCallArguments] of the spec: the class strings found in calls. *)
Definition extractCallArguments (text : jstr) (names : list jstr) : list jstr :=
  map classString (findClassFunctionMatches text names).

(** A concrete rule, the first Ruby rule of config.ts,
    [class:\s*["']([^"']+)["']], with its [exec] loop.  At a position the
    match is determined: [\s*] and [[^"']+] are greedy and the character
    after each of them must be a quote, which neither of them consumes. *)
Fixpoint take_while (p : ascii -> bool) (s : jstr) : jstr :=
  match s with
  | c :: s' => if p c then c :: take_while p s' else []
  | [] => []
  end.

Definition rubyClassAt (s : jstr) : option (nat * jstr) :=
  if js_startsWith s (js "class:") then
    let r := skipn 6 s in
    let w := length (take_while is_js_space r) in
    match skipn w r with
    | q :: r' =>
        if is_quote q then
          let body := take_while (fun c => negb (is_quote c)) r' in
          match skipn (length body) r' with
          | q' :: _ =>
              if is_quote q' && negb (Nat.eqb (length body) 0)
              then Some (6 + w + 1 + length body + 1, body) else None
          | [] => None
          end
        else None
    | [] => None
    end
  else None.

Fixpoint rubyClassExec_go (s : jstr) (pos skip : nat) : list RegExpExecArray :=
  match s with
  | [] => []
  | _ :: s' =>
      if Nat.ltb 0 skip then rubyClassExec_go s' (S pos) (pred skip)
      else match rubyClassAt s with
           | Some (len, body) =>
               {| index := pos; items := [Some (firstn len s); Some body] |}
                 :: rubyClassExec_go s' (S pos) (pred len)
           | None => rubyClassExec_go s' (S pos) 0
           end
  end.

Definition rubyClassPattern : PatternConfig :=
  {| regex := fun text => rubyClassExec_go text 0 0; captureGroup := Some 1 |}.

Definition rubyConfig : LanguageConfig := {| patterns := [rubyClassPattern] |}.

(** The literal pieces of an argument list, for the completeness of the
    string scan: a character that is not a quote, or a quoted literal. *)
Inductive ArgPiece :=
| Other (c : ascii)
| Literal (q : ascii) (body : jstr).

Definition renderPiece (p : ArgPiece) : jstr :=
  match p with
  | Other c => [c]
  | Literal q body => [q] ++ body ++ [q]
  end.

(** The body language [(?:[^q\\]|\\.)*]. *)
Fixpoint validBody (q : ascii) (body : jstr) : bool :=
  match body with
  | [] => true
  | c :: b' =>
      if Ascii.eqb c q then false
      else if Ascii.eqb c backslash then
        match b' with
        | d :: b'' => negb (is_line_terminator d) && validBody q b''
        | [] => false
        end
      else validBody q b'
  end.

Definition validPiece (p : ArgPiece) : bool :=
  match p with
  | Other c => negb (is_quote c)
  | Literal q body => is_quote q && validBody q body
  end.

(** The literal bodies with the offsets of their first characters. *)
Fixpoint literalsAt (ps : list ArgPiece) (pos : nat) : list (jstr * nat) :=
  match ps with
  | [] => []
  | Other _ :: ps' => literalsAt ps' (S pos)
  | Literal _ body :: ps' => (body, S pos) :: literalsAt ps' (pos + length body + 2)
  end.

(** The depth of [extractBalancedContent] after it has read the characters
    [openParenIndex + 1 .. k]. *)
Definition balancedDepth (text : jstr) (openParenIndex k : nat) : nat :=
  depth_of (fold_left balancedStep (js_slice text (S openParenIndex) (S k)) (1, None, false)).

(** What [exec] guarantees of a result: [match[0]] is the text at [match.index]. *)
Definition execConsistent (text : jstr) (r : RegExpExecArray) : Prop :=
  let m0 := match match_item r 0 with Some s => s | None => [] end in
  firstn (length m0) (skipn (index r) text) = m0.

(** The span invariant: the range is [classStartOffset .. classEndOffset]
    with [classEndOffset = classStartOffset + classString.length], it lies in
    the document, and the document holds the class string there. *)
Definition span_invariant (text : jstr) (m : ClassMatch) : Prop :=
  rangeStart (range m) = classStartOffset m /\
  rangeEnd (range m) = classStartOffset m + length (classString m) /\
  classStartOffset m <= rangeEnd (range m) <= length text /\
  js_slice text (classStartOffset m) (classStartOffset m + length (classString m)) = classString m.

(** The comparator of [reorderClasses] as a total preorder. *)
Definition rank_le (a z : option Z) : Prop :=
  match a, z with
  | None, _ => True
  | Some _, None => False
  | Some x, Some y => (x <= y)%Z
  end.

(** [x] may precede [y]: [y] is a sentinel, or neither is and the ranks agree. *)
Definition le_ranked (x y : jstr * option Z) : Prop :=
  is_ellipsis (fst y) = true \/
  (is_ellipsis (fst x) = false /\ is_ellipsis (fst y) = false /\ rank_le (snd x) (snd y)).

(** A token without [\s] characters. *)
Definition plain_token (t : jstr) : Prop :=
  t <> [] /\ forallb (fun c => negb (is_js_space c)) t = true.

(* ------------------------------------------------------------------ *)
(** ** config.ts: the effective language configurations *)

(** A [PatternConfig] and a [LanguageConfig] of types.ts as settings data:
    the regex is its source text.  [js_h] writes the double quote as [#],
    which none of the built-in rules uses. *)
Record PatternConfigData := { regexSource : jstr; captureGroupData : option nat }.

Record LanguageConfigData := { languageId : jstr; patternData : list PatternConfigData }.

Definition js_h (s : string) : jstr :=
  map (fun c => if Ascii.eqb c "#"%char then dq else c) (js s).

Definition rule (s : string) : PatternConfigData :=
  {| regexSource := js_h s; captureGroupData := Some 1 |}.

Definition BUILTIN_LANGUAGES : list LanguageConfigData := [
  {| languageId := js "ruby";
     patternData := [rule "class:\s*[#']([^#']+)[#']"; rule "classes:\s*[#']([^#']+)[#']";
                     rule "class:\s*%w\[([^\]]+)\]"] |};
  {| languageId := js "erb"; patternData := [rule "class=#([^#]+)#"; rule "class='([^']+)'"] |};
  {| languageId := js "html"; patternData := [rule "class=#([^#]+)#"; rule "class='([^']+)'"] |};
  {| languageId := js "javascriptreact";
     patternData := [rule "className=#([^#]+)#"; rule "className='([^']+)'";
                     rule "className={`([^`]+)`}"; rule "className=\{#([^#]+)#\}";
                     rule "className=\{'([^']+)'\}"] |};
  {| languageId := js "typescriptreact";
     patternData := [rule "className=#([^#]+)#"; rule "className='([^']+)'";
                     rule "className={`([^`]+)`}"; rule "className=\{#([^#]+)#\}";
                     rule "className=\{'([^']+)'\}"] |};
  {| languageId := js "vue"; patternData := [rule "class=#([^#]+)#"; rule ":class=#'([^']+)'#"] |}
].

(** [arr.findIndex(p)]; [None] stands for [-1]. *)
Fixpoint js_findIndex_go {A} (p : A -> bool) (l : list A) (i : nat) : option nat :=
  match l with
  | [] => None
  | x :: t => if p x then Some i else js_findIndex_go p t (S i)
  end.

Definition js_findIndex {A} (p : A -> bool) (l : list A) : option nat := js_findIndex_go p l 0.

(** [arr[i] = x] for an index [0 <= i < arr.length] (the only indices
    [getEffectiveLanguages] assigns: those found by [findIndex]). *)
Fixpoint list_set {A} (l : list A) (i : nat) (x : A) : list A :=
  match l, i with
  | [], _ => []
  | _ :: t, 0 => x :: t
  | y :: t, S i' => y :: list_set t i' x
  end.

Section EffectiveLanguages.
Context {Lang : Type} (langId : Lang -> jstr).

(** One iteration of the loop over [config.customLanguages]. *)
Definition mergeCustomLanguage (languages : list Lang) (custom : Lang) : list Lang :=
  match js_findIndex (fun lang => jstr_eqb (langId lang) (langId custom)) languages with
  | Some existingIndex => list_set languages existingIndex custom
  | None => languages ++ [custom]
  end.

(** The body of [getEffectiveLanguages] on the built-in list and the settings. *)
Definition effectiveLanguages (builtins : list Lang) (enabledLanguages : list jstr)
  (customLanguages : list Lang) : list Lang :=
  let languages :=
    if Nat.ltb 0 (length enabledLanguages)
    then filter (fun lang => existsb (jstr_eqb (langId lang)) enabledLanguages) builtins
    else builtins in
  fold_left mergeCustomLanguage customLanguages languages.
End EffectiveLanguages.

(** The settings [getEffectiveLanguages] reads through [getConfig()]. *)
Record LanguageSettings := {
  enabledLanguages : list jstr;
  customLanguages : list LanguageConfigData
}.

Definition getEffectiveLanguages (config : LanguageSettings) : list LanguageConfigData :=
  effectiveLanguages languageId BUILTIN_LANGUAGES (enabledLanguages config) (customLanguages config).

Definition getLanguageConfig (config : LanguageSettings) (id : jstr) : option LanguageConfigData :=
  find (fun lang => jstr_eqb (languageId lang) id) (getEffectiveLanguages config).

Definition isLanguageSupported (config : LanguageSettings) (id : jstr) : bool :=
  isSome (getLanguageConfig config id).

Definition getSupportedLanguageIds (config : LanguageSettings) : list jstr :=
  map languageId (getEffectiveLanguages config).

Definition getBuiltinLanguageIds : list jstr := map languageId BUILTIN_LANGUAGES.

(** The built-in languages [getEffectiveLanguages] starts from. *)
Definition enabledBuiltins (config : LanguageSettings) : list LanguageConfigData :=
  if Nat.ltb 0 (length (enabledLanguages config))
  then filter (fun lang => existsb (jstr_eqb (languageId lang)) (enabledLanguages config))
              BUILTIN_LANGUAGES
  else BUILTIN_LANGUAGES.

(* ------------------------------------------------------------------ *)
(** ** matcher.ts: [findMatchAtPosition] and [findMatchesInSelection] *)

(** [vscode.Range.contains(position)]: both ends inclusive. *)
Definition range_contains_pos (r : Range) (p : nat) : bool :=
  Nat.leb (rangeStart r) p && Nat.leb p (rangeEnd r).

(** [vscode.Range.contains(range)] *)
Definition range_contains_range (r other : Range) : bool :=
  range_contains_pos r (rangeStart other) && range_contains_pos r (rangeEnd other).

(** [vscode.Range.intersection(other)]: [undefined] when the later start is
    after the earlier end. *)
Definition range_intersection (r other : Range) : option Range :=
  let start := Nat.max (rangeStart other) (rangeStart r) in
  let end_ := Nat.min (rangeEnd other) (rangeEnd r) in
  if Nat.ltb end_ start then None else Some {| rangeStart := start; rangeEnd := end_ |}.

(** A [vscode.Selection]: its range runs from the smaller to the larger of
    anchor and active. *)
Record Selection := { anchor : nat; active : nat }.

Definition selectionRange (selection : Selection) : Range :=
  {| rangeStart := Nat.min (anchor selection) (active selection);
     rangeEnd := Nat.max (anchor selection) (active selection) |}.

Definition findMatchAtPosition (text : jstr) (position : nat) (languageConfig : LanguageConfig)
  (classFunctions : list jstr) : option ClassMatch :=
  find (fun m => range_contains_pos (range m) position)
       (findClassMatches text languageConfig classFunctions).

Definition findMatchesInSelection (text : jstr) (selection : Selection)
  (languageConfig : LanguageConfig) (classFunctions : list jstr) : list ClassMatch :=
  filter (fun m =>
            range_contains_range (selectionRange selection) (range m)
            || range_contains_range (range m) (selectionRange selection)
            || isSome (range_intersection (selectionRange selection) (range m)))
         (findClassMatches text languageConfig classFunctions).

(* ------------------------------------------------------------------ *)
(** ** The sorter service ([TailwindSorterService.sortClasses], types.ts)
    once its context is initialised, and [getEditsForMatches] (extension.ts) *)

(** The settings the service reads. *)
Record ServiceConfig := { preserveDuplicates : bool; preserveWhitespace : bool }.

Record SortResult := { original : jstr; sorted : jstr; changed : bool }.

(** The options object the service passes to [sortClasses]. *)
Definition serviceSortOptions (config : ServiceConfig) : SortOptions :=
  {| ignoreFirst := false; ignoreLast := false;
     removeDuplicates := negb (preserveDuplicates config);
     collapseWhitespace := CollapseBool (negb (preserveWhitespace config)) |}.

Definition TailwindSorterService_sortClasses (context : TailwindContext) (classString : jstr)
  (config : ServiceConfig) : SortResult :=
  let sorted := sortClasses classString context (serviceSortOptions config) in
  {| original := classString; sorted := sorted; changed := negb (jstr_eqb classString sorted) |}.

Definition needsSorting (context : TailwindContext) (classString : jstr) (config : ServiceConfig) : bool :=
  changed (TailwindSorterService_sortClasses context classString config).

(** A [vscode.TextEdit.replace(range, newText)]. *)
Record TextEdit := { editRange : Range; newText : jstr }.

Definition getEditsForMatches (context : TailwindContext) (matches : list ClassMatch)
  (config : ServiceConfig) : list TextEdit :=
  omap (fun m =>
          let result := TailwindSorterService_sortClasses context (classString m) config in
          if changed result then Some {| editRange := range m; newText := sorted result |}
          else None) matches.

(* ================================================================== *)
(** * Lemmas *)

(** ** Strings *)

Lemma jstr_eqb_eq (a b : jstr) : jstr_eqb a b = true <-> a = b.
Proof.
  revert b; induction a as [|x a IH]; intros [|y b]; simpl; try (split; congruence).
  rewrite andb_true_iff, IH, Ascii.eqb_eq. split.
  - intros [-> ->]; reflexivity.
  - intros H; inversion H; auto.
Qed.

Lemma existsb_jstr_In (c : jstr) (l : list jstr) :
  existsb (jstr_eqb c) l = true <-> In c l.
Proof.
  rewrite existsb_exists. split.
  - intros [x [Hx He]]. apply jstr_eqb_eq in He. subst; assumption.
  - intros H. exists c. split; [assumption | apply jstr_eqb_eq; reflexivity].
Qed.

(** ** [js_sort] *)

Section JsSortFacts.
Context {A : Type} (cmp : A -> A -> Z).

Lemma sort_insert_perm (x : A) (l : list A) : Permutation (sort_insert cmp x l) (x :: l).
Proof.
  induction l as [|y l IH]; simpl; [reflexivity|].
  destruct (cmp x y <? 0)%Z; [reflexivity|].
  rewrite IH. apply perm_swap.
Qed.

Lemma js_sort_fold_perm (l acc : list A) :
  Permutation (fold_left (fun acc x => sort_insert cmp x acc) l acc) (l ++ acc).
Proof.
  revert acc; induction l as [|x l IH]; intros acc; simpl; [reflexivity|].
  rewrite IH, sort_insert_perm. symmetry; apply Permutation_middle.
Qed.

Lemma js_sort_perm (l : list A) : Permutation (js_sort cmp l) l.
Proof.
  unfold js_sort. rewrite js_sort_fold_perm, app_nil_r. reflexivity.
Qed.

(** The comparator seen as a total preorder [le]: [cmp x y < 0] exactly when
    [y] is not below [x]. *)
Variable le : A -> A -> Prop.
Hypothesis cmp_lt_iff : forall x y, (cmp x y < 0)%Z <-> ~ le y x.
Hypothesis le_trans : forall x y z, le x y -> le y z -> le x z.
Hypothesis le_total : forall x y, le x y \/ le y x.
Hypothesis le_dec : forall x y, {le x y} + {~ le x y}.

Lemma sort_insert_sorted (x : A) (l : list A) :
  ForallOrdPairs le l -> ForallOrdPairs le (sort_insert cmp x l).
Proof.
  induction 1 as [|y l Hy Hl IH]; simpl.
  - repeat constructor.
  - destruct (Z.ltb_spec (cmp x y) 0) as [Hlt|Hge].
    + apply cmp_lt_iff in Hlt.
      assert (Hxy : le x y) by (destruct (le_total x y); tauto).
      constructor; [|constructor; assumption].
      constructor; [assumption|].
      eapply Forall_impl; [|exact Hy]. intros z Hz. eauto.
    + assert (Hyx : le y x).
      { destruct (le_dec y x) as [|Hn]; [assumption|].
        apply cmp_lt_iff in Hn. lia. }
      constructor; [|assumption].
      apply Permutation_Forall with (x :: l); [symmetry; apply sort_insert_perm|].
      constructor; assumption.
Qed.

Lemma js_sort_sorted (l : list A) : ForallOrdPairs le (js_sort cmp l).
Proof.
  unfold js_sort.
  assert (H : forall acc, ForallOrdPairs le acc ->
             ForallOrdPairs le (fold_left (fun acc x => sort_insert cmp x acc) l acc)).
  { induction l as [|x l IH]; intros acc Hacc; simpl; [assumption|].
    apply IH, sort_insert_sorted, Hacc. }
  apply H. constructor.
Qed.

(** Stability: the elements of one equivalence class keep their order. *)
Variable P : A -> bool.
Hypothesis P_class : forall x y, P x = true -> P y = true -> le x y.

Lemma filter_all_false (l : list A) :
  (forall z, In z l -> P z = false) -> filter P l = [].
Proof.
  induction l as [|z l IH]; intros H; simpl; [reflexivity|].
  rewrite (H z (or_introl eq_refl)). apply IH. intros w Hw; apply H; right; assumption.
Qed.

Lemma sort_insert_filter (x : A) (l : list A) :
  ForallOrdPairs le l ->
  filter P (sort_insert cmp x l) = filter P l ++ filter P [x].
Proof.
  induction 1 as [|y l Hy Hl IH]; simpl.
  - reflexivity.
  - destruct (Z.ltb_spec (cmp x y) 0) as [Hlt|Hge].
    + apply cmp_lt_iff in Hlt.
      destruct (P x) eqn:Px.
      * assert (Hnone : forall z, In z (y :: l) -> P z = false).
        { intros z Hz. destruct (P z) eqn:Pz; [|reflexivity]. exfalso.
          destruct Hz as [<-|Hz]; [apply Hlt, P_class; assumption|].
          apply Hlt. eapply le_trans; [|apply P_class; [exact Pz|exact Px]].
          rewrite Forall_forall in Hy; apply Hy; assumption. }
        simpl. rewrite Px.
        change (x :: filter P (y :: l) = filter P (y :: l) ++ [x]).
        rewrite (filter_all_false (y :: l) Hnone). reflexivity.
      * simpl. rewrite Px.
        change (filter P (y :: l) = filter P (y :: l) ++ []).
        rewrite app_nil_r. reflexivity.
    + simpl. rewrite IH. destruct (P y); reflexivity.
Qed.

Lemma js_sort_filter (l : list A) : filter P (js_sort cmp l) = filter P l.
Proof.
  unfold js_sort.
  assert (H : forall acc, ForallOrdPairs le acc ->
             filter P (fold_left (fun acc x => sort_insert cmp x acc) l acc)
             = filter P acc ++ filter P l).
  { induction l as [|x l IH]; intros acc Hacc; simpl.
    - rewrite app_nil_r; reflexivity.
    - rewrite IH by (apply sort_insert_sorted; assumption).
      rewrite sort_insert_filter by assumption. simpl.
      destruct (P x); simpl; rewrite <- app_assoc; reflexivity. }
  rewrite H by constructor. reflexivity.
Qed.
End JsSortFacts.

(** ** The comparator of [reorderClasses] as a total preorder *)

Lemma bigSign_neg (v : Z) : (bigSign v < 0)%Z <-> (v < 0)%Z.
Proof.
  unfold bigSign. destruct (Z.ltb_spec 0 v), (Z.ltb_spec v 0); lia.
Qed.

Lemma compareClasses_lt_iff (x y : jstr * option Z) :
  (compareClasses x y < 0)%Z <-> ~ le_ranked y x.
Proof.
  destruct x as [nx a], y as [ny z]. unfold compareClasses, le_ranked; simpl.
  destruct (is_ellipsis nx) eqn:Ex.
  { split; [lia|]. intros H; exfalso; apply H; left; reflexivity. }
  destruct (is_ellipsis ny) eqn:Ey.
  { split; [intros _ [H|[H _]]; discriminate | lia]. }
  destruct a as [x|], z as [y|]; simpl.
  - destruct (Z.eqb_spec x y) as [->|Hne].
    + split; [lia|]. intros H; exfalso; apply H; right; repeat split; lia.
    + rewrite bigSign_neg. split.
      * intros Hlt [H|[_ [_ H]]]; [discriminate|lia].
      * intros H. destruct (Z.ltb_spec (x - y) 0); [lia|].
        exfalso; apply H; right; repeat split; lia.
  - split; [lia|]. intros H; exfalso; apply H; right; repeat split.
  - split; [intros _ [H|[_ [_ H]]]; [discriminate|exact H] | lia].
  - split; [lia|]. intros H; exfalso; apply H; right; repeat split.
Qed.

Lemma le_ranked_trans x y z : le_ranked x y -> le_ranked y z -> le_ranked x z.
Proof.
  unfold le_ranked.
  destruct x as [nx a], y as [ny b], z as [nz c]; simpl.
  intros [H1|[H1 [H2 H3]]] [H4|[H4 [H5 H6]]]; auto; try congruence.
  right; repeat split; auto.
  destruct a, b, c; simpl in *; auto; try lia; contradiction.
Qed.

Lemma le_ranked_total x y : le_ranked x y \/ le_ranked y x.
Proof.
  unfold le_ranked. destruct x as [nx a], y as [ny b]; simpl.
  destruct (is_ellipsis nx) eqn:Ex, (is_ellipsis ny) eqn:Ey; auto.
  destruct a as [a|], b as [b|]; simpl.
  - destruct (Z.le_ge_cases a b); [left|right]; right; repeat split; auto; lia.
  - right; right; auto.
  - left; right; auto.
  - left; right; auto.
Qed.

Lemma le_ranked_dec x y : {le_ranked x y} + {~ le_ranked x y}.
Proof.
  unfold le_ranked. destruct x as [nx a], y as [ny b]; simpl.
  destruct (is_ellipsis ny); [left; left; reflexivity|].
  destruct (is_ellipsis nx).
  { right; intros [H|[H _]]; discriminate. }
  destruct a as [a|], b as [b|]; simpl.
  - destruct (Z_le_dec a b); [left; right; auto | right; intros [H|[_ [_ H]]]; [discriminate|lia]].
  - right; intros [H|[_ [_ H]]]; [discriminate|exact H].
  - left; right; auto.
  - left; right; auto.
Qed.

Lemma ForallOrdPairs_nth {A} (R : A -> A -> Prop) (l : list A) i j x y :
  ForallOrdPairs R l -> i < j -> nth_error l i = Some x -> nth_error l j = Some y -> R x y.
Proof.
  intros H; revert i j; induction H as [|a l Ha Hl IH]; intros i j Hij Hi Hj.
  - destruct i; discriminate.
  - destruct i as [|i], j as [|j]; simpl in *; try lia.
    + inversion Hi; subst. rewrite Forall_forall in Ha. apply Ha.
      eapply nth_error_In; eassumption.
    + apply (IH i j); auto; lia.
Qed.

Lemma reorderClasses_sorted (cl : list jstr) (context : TailwindContext) :
  ForallOrdPairs le_ranked (reorderClasses cl context).
Proof.
  apply (js_sort_sorted compareClasses le_ranked compareClasses_lt_iff
           le_ranked_trans le_ranked_total le_ranked_dec).
Qed.

Lemma compareClasses_zero (e e0 : jstr * option Z) :
  compareClasses e e0 = 0%Z <->
  is_ellipsis (fst e) = false /\ is_ellipsis (fst e0) = false /\ order_eqb (snd e) (snd e0) = true.
Proof.
  destruct e as [n a], e0 as [n0 b]. unfold compareClasses; simpl.
  destruct (is_ellipsis n); [split; [discriminate| intros [H _]; discriminate]|].
  destruct (is_ellipsis n0); [split; [discriminate| intros [_ [H _]]; discriminate]|].
  destruct (order_eqb a b) eqn:Eab; [tauto|].
  split; [|intros [_ [_ H]]; discriminate].
  destruct a as [x|], b as [y|]; simpl in *; try discriminate.
  unfold bigSign. destruct (Z.eqb_spec x y); [discriminate|].
  destruct (Z.ltb_spec 0 (x - y)), (Z.ltb_spec (x - y) 0); lia.
Qed.

(** ** C2 *)

(** C2: the order produced by [reorderClasses].  A sentinel token ([...] or
    the Unicode ellipsis) comes after every non-sentinel token; among
    non-sentinel tokens an Unknown rank comes before every known rank and
    known ranks ascend; tokens that compare equal (non-sentinel, equal rank)
    keep their input order (stability); the output is a permutation of the
    oracle's list.  So every unknown-rank token precedes every known-rank
    token, the sentinels aside. *)
Theorem reorderClasses_order (cl : list jstr) (context : TailwindContext) :
  let input := getClassOrder context cl in
  let out := reorderClasses cl context in
  Permutation out input /\
  (forall i j x y, i < j -> nth_error out i = Some x -> nth_error out j = Some y ->
     (is_ellipsis (fst x) = true -> is_ellipsis (fst y) = true) /\
     (is_ellipsis (fst y) = false -> snd y = None -> snd x = None) /\
     (forall rx ry, is_ellipsis (fst y) = false -> snd x = Some rx -> snd y = Some ry ->
        (rx <= ry)%Z)) /\
  (forall e0, filter (fun e => Z.eqb (compareClasses e e0) 0) out
              = filter (fun e => Z.eqb (compareClasses e e0) 0) input).
Proof.
  intros input out. split; [|split].
  - apply js_sort_perm.
  - intros i j x y Hij Hi Hj.
    pose proof (ForallOrdPairs_nth _ _ i j x y (reorderClasses_sorted cl context) Hij Hi Hj)
      as Hle.
    destruct x as [nx a], y as [ny b]; unfold le_ranked in Hle; simpl in *.
    repeat split.
    + intros Hx. destruct Hle as [H|[H _]]; congruence.
    + intros Hy ->. destruct Hle as [H|[_ [_ H]]]; [congruence|].
      destruct a; [contradiction|reflexivity].
    + intros rx ry Hy -> ->. destruct Hle as [H|[_ [_ H]]]; [congruence|exact H].
  - intros e0.
    apply (js_sort_filter compareClasses le_ranked compareClasses_lt_iff
             le_ranked_trans le_ranked_total le_ranked_dec).
    intros x y Hx Hy. apply Z.eqb_eq, compareClasses_zero in Hx, Hy.
    destruct Hx as [Hx1 [_ Hx3]], Hy as [Hy1 [_ Hy3]].
    destruct x as [nx a], y as [ny b], e0 as [n0 c]; simpl in *.
    right; repeat split; auto.
    destruct a, b, c; simpl in *; try discriminate; auto.
    apply Z.eqb_eq in Hx3, Hy3. lia.
Qed.

(** ** C1 *)

Lemma firstn_app_length {A} (l1 l2 : list A) : firstn (length l1) (l1 ++ l2) = l1.
Proof.
  rewrite firstn_app, firstn_all, Nat.sub_diag. simpl. apply app_nil_r.
Qed.

Lemma known_names_app l1 l2 : known_names (l1 ++ l2) = known_names l1 ++ known_names l2.
Proof. unfold known_names. rewrite filter_app, map_app. reflexivity. Qed.

Lemma dedup_go_spec (full pre l : list (jstr * option Z)) (seen : list jstr) kept removed :
  full = pre ++ l ->
  (forall c, In c seen <-> In c (known_names pre)) ->
  dedup_go seen (length pre) l = (kept, removed) ->
  kept = filteri_go (fun e k => negb (existsb (jstr_eqb (fst e)) (known_names (firstn k full))))
           (length pre) l /\
  (forall k, In k removed <-> length pre <= k /\
     exists e, nth_error full k = Some e /\ In (fst e) (known_names (firstn k full))) /\
  NoDup (known_names kept) /\
  (forall c, In c (known_names kept) -> ~ In c seen).
Proof.
  revert pre seen kept removed.
  induction l as [|[c o] l IH]; intros pre seen kept removed Hfull Hseen Hgo.
  - simpl in Hgo. inversion Hgo; subst. rewrite app_nil_r.
    split; [reflexivity|]. split; [|split; [constructor | intros c []]].
    intros k; split; [intros []|]. intros [Hk [e [He _]]].
    assert (k < length pre) by (apply nth_error_Some; congruence). lia.
  - assert (Hpre : firstn (length pre) full = pre)
      by (rewrite Hfull; apply firstn_app_length).
    assert (Hnth : nth_error full (length pre) = Some (c, o)).
    { rewrite Hfull, nth_error_app2, Nat.sub_diag by lia. reflexivity. }
    assert (Hfull' : full = (pre ++ [(c, o)]) ++ l) by (rewrite Hfull, <- app_assoc; reflexivity).
    clear Hfull; rename Hfull' into Hfull.
    assert (Hlen : length (pre ++ [(c, o)]) = S (length pre)) by (rewrite length_app; simpl; lia).
    simpl in Hgo.
    destruct (existsb (jstr_eqb c) seen) eqn:Hdup.
    + apply existsb_jstr_In in Hdup.
      destruct (dedup_go seen (S (length pre)) l) as [kept' removed'] eqn:Hrest.
      inversion Hgo; subst kept removed.
      rewrite <- Hlen in Hrest.
      destruct (IH (pre ++ [(c, o)]) seen kept' removed' Hfull) as [Hk [Hr [Hnd Hdis]]];
        [|exact Hrest|].
      { intros x. rewrite known_names_app, Hseen, in_app_iff. unfold known_names at 2.
        simpl. destruct o; simpl; [|tauto]. split; [tauto|].
        intros [H|[<-|[]]]; [exact H|]. apply Hseen, Hdup. }
      rewrite Hlen in Hk, Hr.
      split; [|split; [|split; [exact Hnd|exact Hdis]]]; [|intros k; split].
      * simpl. rewrite Hpre. apply Hseen in Hdup. apply existsb_jstr_In in Hdup.
        rewrite Hdup. exact Hk.
      * intros [<-|Hin]; [split; [lia|] | apply Hr in Hin; destruct Hin as [Hle He]; split; [lia|exact He]].
        exists (c, o). split; [exact Hnth|]. rewrite Hpre. apply Hseen, Hdup.
      * intros [Hle [e [He Hin]]].
        destruct (Nat.eq_dec k (length pre)) as [->|Hne]; [left; reflexivity|right].
        apply Hr. split; [lia|]. exists e. auto.
    + assert (Hnot : ~ In c seen) by (intros H; apply existsb_jstr_In in H; congruence).
      set (seen' := match o with Some _ => c :: seen | None => seen end) in Hgo.
      destruct (dedup_go seen' (S (length pre)) l) as [kept' removed'] eqn:Hrest.
      inversion Hgo; subst kept removed.
      rewrite <- Hlen in Hrest.
      destruct (IH (pre ++ [(c, o)]) seen' kept' removed' Hfull) as [Hk [Hr [Hnd Hdis]]];
        [|exact Hrest|].
      { intros x. rewrite known_names_app, in_app_iff, <- Hseen. unfold known_names, seen'.
        destruct o; simpl; tauto. }
      rewrite Hlen in Hk, Hr.
      split; [|split; [intros k; split|split]].
      * simpl. rewrite Hpre.
        assert (Hn : existsb (jstr_eqb c) (known_names pre) = false).
        { destruct (existsb (jstr_eqb c) (known_names pre)) eqn:E; [|reflexivity].
          apply existsb_jstr_In, Hseen in E. contradiction. }
        rewrite Hn. simpl. f_equal. exact Hk.
      * intros Hin. apply Hr in Hin. destruct Hin as [Hle He]. split; [lia|exact He].
      * intros [Hle [e [He Hin]]].
        destruct (Nat.eq_dec k (length pre)) as [->|Hne].
        { rewrite Hnth in He. inversion He; subst e. rewrite Hpre in Hin.
          apply Hseen in Hin. contradiction. }
        apply Hr. split; [lia|]. exists e. auto.
      * unfold known_names; simpl. destruct o as [r|]; simpl; [|exact Hnd].
        constructor; [|exact Hnd].
        intros Hin. apply (Hdis c Hin). unfold seen'. left; reflexivity.
      * intros x Hx Hxs. unfold known_names in Hx; simpl in Hx.
        destruct o as [r|]; simpl in Hx.
        -- destruct Hx as [<-|Hx]; [contradiction|].
           apply (Hdis x Hx). unfold seen'. right; exact Hxs.
        -- exact (Hdis x Hx Hxs).
Qed.

Lemma In_known_names_firstn (c : jstr) (l : list (jstr * option Z)) (k : nat) :
  In c (known_names (firstn k l)) <->
  exists j r, j < k /\ nth_error l j = Some (c, Some r).
Proof.
  revert k; induction l as [|[c' o] l IH]; intros k.
  - rewrite firstn_nil. simpl. split; [intros []|]. intros [j [r [_ H]]]. destruct j; discriminate.
  - destruct k as [|k].
    + simpl. split; [intros []|]. intros [j [r [H _]]]; lia.
    + simpl. unfold known_names in *; simpl.
      destruct o as [r'|]; simpl.
      * rewrite IH. split.
        -- intros [<-|[j [r [Hj Hn]]]]; [exists 0, r'; split; [lia|reflexivity]|].
           exists (S j), r. split; [lia|exact Hn].
        -- intros [[|j] [r [Hj Hn]]]; simpl in Hn.
           ++ inversion Hn; left; reflexivity.
           ++ right. exists j, r. split; [lia|exact Hn].
      * rewrite IH. split.
        -- intros [j [r [Hj Hn]]]. exists (S j), r. split; [lia|exact Hn].
        -- intros [[|j] [r [Hj Hn]]]; simpl in Hn; [discriminate|].
           exists j, r. split; [lia|exact Hn].
Qed.

(** C1: with [removeDuplicates = true], [sortClassList] drops the entry at
    sorted position [k] exactly when an earlier entry with a known rank has the
    same text (so unknown-rank entries never cause a drop), the kept entries
    are the others in order, and no text of a known-rank entry occurs twice
    among them; with [removeDuplicates = false] the output tokens are a
    permutation of the input tokens. *)
Theorem sortClassList_dedup (cl : list jstr) (context : TailwindContext) :
  oracle_ok context cl ->
  (let sorted := reorderClasses cl context in
   forall kept removed,
   sortClassList_ranked cl context true = (kept, removed) ->
   classList (sortClassList cl context true) = map fst kept /\
   kept = filteri (fun e k => negb (existsb (jstr_eqb (fst e)) (known_names (firstn k sorted))))
            sorted /\
   (forall k, In k removed -> k < length sorted) /\
   (forall k e, nth_error sorted k = Some e ->
      (In k removed <-> exists j r, j < k /\ nth_error sorted j = Some (fst e, Some r))) /\
   NoDup (known_names kept)) /\
  Permutation (classList (sortClassList cl context false)) cl.
Proof.
  intros Hok. split.
  - intros sorted kept removed Hr.
    unfold sortClassList_ranked in Hr. fold sorted in Hr.
    destruct (dedup_go_spec sorted [] sorted [] kept removed eq_refl
                ltac:(intros; simpl; tauto) Hr) as [Hk [Hrem [Hnd _]]].
    split; [unfold sortClassList; unfold sortClassList_ranked; fold sorted; rewrite Hr; reflexivity|].
    split; [exact Hk|]. split; [|split; [|exact Hnd]].
    + intros k Hin. apply Hrem in Hin. destruct Hin as [_ [e [He _]]].
      apply nth_error_Some. congruence.
    + intros k e He. rewrite Hrem, <- In_known_names_firstn. split.
      * intros [_ [e' [He' Hin]]]. rewrite He in He'. inversion He'; subst; exact Hin.
      * intros Hin. split; [simpl; lia|]. exists e; auto.
  - unfold sortClassList, sortClassList_ranked, reorderClasses. simpl.
    rewrite js_sort_perm. rewrite Hok. reflexivity.
Qed.

Lemma sortClassList_dedup_witness :
  oracle_ok (pointwise rank_abc) (map js ["b"; "x"; "a"; "b"; "x"]) /\
  Permutation (classList (sortClassList (map js ["b"; "x"; "a"; "b"; "x"]) (pointwise rank_abc) false))
              (map js ["b"; "x"; "a"; "b"; "x"]).
Proof.
  split; [reflexivity|].
  apply (sortClassList_dedup (map js ["b"; "x"; "a"; "b"; "x"]) (pointwise rank_abc)).
  reflexivity.
Defined.

(** ** C9 *)

Lemma pointwise_ok (rank : jstr -> option Z) (l : list jstr) : oracle_ok (pointwise rank) l.
Proof. unfold oracle_ok; simpl. rewrite map_map. apply map_id. Qed.

Lemma split_ws_only (s : jstr) : only_split_ws s = true -> split_ws s = [[]; s; []].
Proof.
  induction s as [|c s IH]; simpl; [discriminate|].
  intros H. apply andb_true_iff in H as [Hc Hs]. rewrite Hc.
  destruct s as [|c' s']; [reflexivity|].
  rewrite IH by exact Hs. reflexivity.
Qed.

Lemma only_split_ws_no_braces (s : jstr) : only_split_ws s = true -> js_includes s (js "{{") = false.
Proof.
  change (js "{{") with ["{"%char; "{"%char].
  induction s as [|c s IH]; [discriminate|].
  intros H. simpl in H. apply andb_true_iff in H as [Hc Hs].
  assert (Hne : Ascii.eqb "{"%char c = false).
  { destruct (Ascii.eqb_spec "{"%char c) as [<-|]; [discriminate|reflexivity]. }
  cbn [js_includes js_startsWith]. rewrite Hne. simpl.
  destruct s as [|c' s']; [reflexivity|]. apply IH, Hs.
Qed.

Lemma oracle_ok_nil (context : TailwindContext) :
  oracle_ok context [] -> getClassOrder context [] = [].
Proof. unfold oracle_ok. intros H. apply map_eq_nil in H. exact H. Qed.

Lemma oracle_ok_single (context : TailwindContext) (c : jstr) :
  oracle_ok context [c] -> exists o, getClassOrder context [c] = [(c, o)].
Proof.
  unfold oracle_ok. destruct (getClassOrder context [c]) as [|[n o] [|]]; simpl; try discriminate.
  intros H; inversion H; subst. exists o; reflexivity.
Qed.

(** C9: [sortClasses] returns the empty string and any string containing
    [{{] unchanged; a whitespace-only string becomes one space when
    whitespace collapsing is enabled and is returned unchanged otherwise. *)
Theorem sortClasses_trivial_inputs (context : TailwindContext) (options : SortOptions) :
  (forall l, oracle_ok context l) ->
  sortClasses [] context options = [] /\
  (forall s, js_includes s (js "{{") = true -> sortClasses s context options = s) /\
  (forall s, only_split_ws s = true ->
     collapseWhitespace options <> CollapseBool false -> sortClasses s context options = space) /\
  (forall s, only_split_ws s = true ->
     collapseWhitespace options = CollapseBool false -> sortClasses s context options = s).
Proof.
  intros Hok. split; [reflexivity|]. split; [|split].
  - intros [|c s] H; [reflexivity|]. unfold sortClasses. rewrite H. reflexivity.
  - intros [|c s] H Hc; [discriminate|].
    unfold sortClasses. rewrite (only_split_ws_no_braces _ H), H.
    destruct (collapseWhitespace options) as [[|]|st en]; simpl; [reflexivity|congruence|reflexivity].
  - intros [|c s] H Hc; [discriminate|].
    unfold sortClasses. rewrite (only_split_ws_no_braces _ H), Hc, (split_ws_only _ H). simpl.
    pose proof (oracle_ok_nil context (Hok [])) as H0.
    destruct (oracle_ok_single context [] (Hok [[]])) as [o H1].
    destruct (ignoreFirst options), (ignoreLast options), (removeDuplicates options);
      unfold sortClassList, sortClassList_ranked, reorderClasses; simpl;
      rewrite ?H0, ?H1; simpl; rewrite ?app_nil_r; reflexivity.
Qed.

Lemma sortClasses_trivial_inputs_witness :
  (forall l, oracle_ok (pointwise rank_abc) l) /\
  sortClasses (js "  ") (pointwise rank_abc)
    {| ignoreFirst := false; ignoreLast := false; removeDuplicates := true;
       collapseWhitespace := CollapseBool false |} = js "  ".
Proof.
  split; [intros l; apply pointwise_ok|].
  apply (sortClasses_trivial_inputs (pointwise rank_abc)
           {| ignoreFirst := false; ignoreLast := false; removeDuplicates := true;
              collapseWhitespace := CollapseBool false |}); [apply pointwise_ok|reflexivity|reflexivity].
Defined.

(** ** C3 *)

(** C3 (counterexample): in ["b\tb\na"] with ranks a < b, the run ["\n"]
    lies between original tokens 1 and 2, and token 2 (["a"]) survives; yet
    the code drops ["\n"] and keeps ["\t"], because [removedIndices] holds the
    position 2 of the removed entry in the SORTED list [a; b; b]. *)
Lemma sortClasses_ws_counterexample :
  split_ws (js "b" ++ tab ++ js "b" ++ newline ++ js "a") = [js "b"; tab; js "b"; newline; js "a"] /\
  removedIndices (sortClassList [js "b"; js "b"; js "a"] (pointwise rank_abc) true) = [2] /\
  sortClasses (js "b" ++ tab ++ js "b" ++ newline ++ js "a") (pointwise rank_abc) preserve_ws_options
  = js "a" ++ tab ++ js "b".
Proof. split; [|split]; reflexivity. Qed.

Lemma dedup_go_count (l : list (jstr * option Z)) (seen : list jstr) idx kept removed :
  dedup_go seen idx l = (kept, removed) ->
  NoDup removed /\ (forall k, In k removed -> idx <= k) /\
  length kept + length removed = length l.
Proof.
  revert seen idx kept removed.
  induction l as [|[c o] l IH]; intros seen idx kept removed H; simpl in H.
  - inversion H; subst. split; [constructor|]. split; [intros k []|reflexivity].
  - destruct (existsb (jstr_eqb c) seen).
    + destruct (dedup_go seen (S idx) l) as [kept' removed'] eqn:Hr.
      inversion H; subst. destruct (IH _ _ _ _ Hr) as [Hnd [Hge Hlen]].
      split; [|split].
      * constructor; [|exact Hnd]. intros Hin. apply Hge in Hin. lia.
      * intros k [<-|Hk]; [lia|]. apply Hge in Hk. lia.
      * simpl. lia.
    + destruct (dedup_go (match o with Some _ => c :: seen | None => seen end) (S idx) l)
        as [kept' removed'] eqn:Hr.
      inversion H; subst. destruct (IH _ _ _ _ Hr) as [Hnd [Hge Hlen]].
      split; [exact Hnd|]. split.
      * intros k Hk. apply Hge in Hk. lia.
      * simpl. lia.
Qed.

Lemma existsb_nat_In (x : nat) (R : list nat) : existsb (Nat.eqb x) R = true <-> In x R.
Proof.
  rewrite existsb_exists. split.
  - intros [y [Hy He]]. apply Nat.eqb_eq in He. subst; exact Hy.
  - intros H. exists x. split; [exact H|apply Nat.eqb_refl].
Qed.

Lemma filteri_go_count (ws : list jstr) (j : nat) (R : list nat) :
  length (filteri_go (fun _ i => negb (existsb (Nat.eqb (S i)) R)) j ws)
  + length (filter (fun i => existsb (Nat.eqb (S i)) R) (seq j (length ws))) = length ws.
Proof.
  revert j; induction ws as [|w ws IH]; intros j; [reflexivity|].
  specialize (IH (S j)).
  cbn [filteri_go seq filter List.length].
  destruct (existsb (Nat.eqb (S j)) R); cbn [negb List.length]; lia.
Qed.

Lemma NoDup_map_S (l : list nat) : NoDup l -> NoDup (map S l).
Proof.
  induction 1 as [|x l Hx Hl IH]; simpl; constructor; [|exact IH].
  intros Hin. apply in_map_iff in Hin as [y [Hy Hin]]. injection Hy as ->. contradiction.
Qed.

Lemma count_removed (R : list nat) (m : nat) :
  NoDup R -> (forall k, In k R -> 1 <= k <= m) ->
  length (filter (fun i => existsb (Nat.eqb (S i)) R) (seq 0 m)) = length R.
Proof.
  intros Hnd Hrange.
  rewrite <- (length_map S).
  apply Permutation_length, NoDup_Permutation.
  - apply NoDup_map_S, NoDup_filter, seq_NoDup.
  - exact Hnd.
  - intros x. rewrite in_map_iff. split.
    + intros [i [<- Hi]]. apply filter_In in Hi as [_ Hi]. apply existsb_nat_In, Hi.
    + intros Hx. destruct (Hrange x Hx) as [H1 H2]. exists (pred x). split; [lia|].
      apply filter_In. split; [apply in_seq; lia|].
      apply existsb_nat_In. replace (S (pred x)) with x by lia. exact Hx.
Qed.

Lemma reorderClasses_length (cl : list jstr) (context : TailwindContext) :
  oracle_ok context cl -> length (reorderClasses cl context) = length cl.
Proof.
  intros Hok. unfold reorderClasses. rewrite (Permutation_length (js_sort_perm _ _)).
  rewrite <- Hok at 2. rewrite length_map. reflexivity.
Qed.

Lemma sortClassList_counts (cl : list jstr) (context : TailwindContext) (rd : bool) :
  oracle_ok context cl ->
  NoDup (removedIndices (sortClassList cl context rd)) /\
  (forall i, In i (removedIndices (sortClassList cl context rd)) -> 1 <= i < length cl) /\
  length (classList (sortClassList cl context rd))
  + length (removedIndices (sortClassList cl context rd)) = length cl.
Proof.
  intros Hok.
  pose proof (reorderClasses_length cl context Hok) as Hlen.
  unfold sortClassList, sortClassList_ranked. destruct rd.
  - destruct (dedup_go [] 0 (reorderClasses cl context)) as [kept removed] eqn:Hd.
    cbn [classList removedIndices].
    destruct (dedup_go_spec (reorderClasses cl context) [] _ [] kept removed eq_refl
                ltac:(intros; simpl; tauto) Hd) as [_ [Hrem _]].
    destruct (dedup_go_count _ _ _ _ _ Hd) as [Hnd [_ Hcount]].
    split; [exact Hnd|]. split.
    + intros i Hi. apply Hrem in Hi as [_ [e [He Hin]]].
      destruct i as [|i]; [simpl in Hin; contradiction|].
      split; [lia|]. rewrite <- Hlen. apply nth_error_Some. congruence.
    + rewrite length_map. lia.
  - cbn [classList removedIndices]. split; [constructor|]. split; [intros i []|].
    rewrite length_map. simpl. lia.
Qed.

Lemma drop_ws_count (R : list nat) (ws : list jstr) :
  NoDup R -> (forall k, In k R -> 1 <= k <= length ws) ->
  length (drop_ws_before_removed R ws) + length R = length ws.
Proof.
  intros Hnd Hrange. unfold drop_ws_before_removed, filteri.
  pose proof (filteri_go_count ws 0 R) as Hc.
  rewrite (count_removed R (length ws) Hnd Hrange) in Hc. exact Hc.
Qed.

(** ** Unfolding [sortClasses] without [ignoreFirst]/[ignoreLast] *)

Lemma sortClasses_plain (classStr : jstr) (context : TailwindContext) (options : SortOptions) :
  classStr <> [] ->
  js_includes classStr (js "{{") = false ->
  only_split_ws classStr = false ->
  ignoreFirst options = false -> ignoreLast options = false ->
  let collapse := shouldCollapse (collapseWhitespace options) in
  let parts := split_ws classStr in
  let classes := drop_trailing_empty (filteri (fun _ i => Nat.even i) parts) in
  let whitespace0 := filteri (fun _ i => negb (Nat.even i)) parts in
  let whitespace := if isSome collapse then map (fun _ => space) whitespace0 else whitespace0 in
  let r := sortClassList classes context (removeDuplicates options) in
  let result := stitch (classList r) (drop_ws_before_removed (removedIndices r) whitespace) in
  sortClasses classStr context options =
  match collapse with
  | Some (st, en) =>
      replace_trailing_ws [] space
      ++ replace_trailing_ws (replace_leading_ws result (if st then [] else space))
                             (if en then [] else space)
      ++ replace_leading_ws [] space
  | None => [] ++ result ++ []
  end.
Proof.
  intros Hne Hbr Hws Hf Hl. destruct classStr as [|c s]; [congruence|].
  unfold sortClasses. rewrite Hbr, Hws, andb_false_r, Hf, Hl. reflexivity.
Qed.

Lemma stitch_nth (cs ws : list jstr) :
  stitch cs ws = List.concat (map (fun k => nth k cs [] ++ nth k ws []) (seq 0 (length cs))).
Proof.
  revert ws; induction cs as [|c cs IH]; intros ws; [reflexivity|].
  cbn [stitch List.length seq map List.concat].
  rewrite <- seq_shift, map_map, IH, <- app_assoc. cbn [nth].
  f_equal. f_equal.
  - destruct ws; reflexivity.
  - f_equal. apply map_ext. intros k. destruct ws as [|w ws]; cbn [tl nth]; [|reflexivity].
    destruct k; reflexivity.
Qed.

Lemma filteri_go_ext_nth {A} (p q : A -> nat -> bool) (j : nat) (l : list A) :
  (forall k x, nth_error l k = Some x -> p x (j + k) = q x (j + k)) ->
  filteri_go p j l = filteri_go q j l.
Proof.
  revert j; induction l as [|x l IH]; intros j H; [reflexivity|]. cbn [filteri_go].
  rewrite IH.
  - specialize (H 0 x eq_refl). rewrite Nat.add_0_r in H. rewrite H. reflexivity.
  - intros k y Hy. replace (S j + k) with (j + S k) by lia. apply (H (S k)). exact Hy.
Qed.

(** C3 (as the code does it).  With duplicate removal, [removedIndices] are
    positions of the SORTED list [sorted]: position [k] is removed exactly
    when an earlier position of [sorted] holds the same text with a known
    rank, so position 0 never is.  The surviving tokens are [sorted] with
    those positions deleted, in sorted order; whitespace run [i] is dropped
    exactly when sorted position [i + 1] was removed; and [sortClasses]
    concatenates the [k]-th surviving token with the [k]-th surviving run
    (by position, not with the run that followed the token in the input),
    then collapses the leading and trailing whitespace as configured.  When
    there is at least one run between each pair of tokens, exactly as many
    runs are dropped as tokens were removed. *)
Theorem sortClasses_whitespace_slots (classStr : jstr) (context : TailwindContext)
  (options : SortOptions) :
  classStr <> [] ->
  js_includes classStr (js "{{") = false ->
  only_split_ws classStr = false ->
  ignoreFirst options = false -> ignoreLast options = false ->
  removeDuplicates options = true ->
  let collapse := shouldCollapse (collapseWhitespace options) in
  let parts := split_ws classStr in
  let classes := drop_trailing_empty (filteri (fun _ i => Nat.even i) parts) in
  let whitespace0 := filteri (fun _ i => negb (Nat.even i)) parts in
  let whitespace := if isSome collapse then map (fun _ => space) whitespace0 else whitespace0 in
  oracle_ok context classes ->
  let sorted := reorderClasses classes context in
  let removed := removedIndices (sortClassList classes context true) in
  let survivors := map fst (filteri (fun _ k => negb (existsb (Nat.eqb k) removed)) sorted) in
  let kept_ws := filteri (fun _ i => negb (existsb (Nat.eqb (S i)) removed)) whitespace in
  let result := List.concat (map (fun k => nth k survivors [] ++ nth k kept_ws [])
                                 (seq 0 (length survivors))) in
  (forall k e, nth_error sorted k = Some e ->
     In k removed <-> exists j r, j < k /\ nth_error sorted j = Some (fst e, Some r)) /\
  (forall k, In k removed -> 1 <= k < length sorted) /\
  NoDup removed /\
  length survivors + length removed = length classes /\
  (length classes <= length whitespace + 1 ->
     length kept_ws + length removed = length whitespace) /\
  sortClasses classStr context options =
  match collapse with
  | Some (st, en) =>
      replace_trailing_ws (replace_leading_ws result (if st then [] else space))
                          (if en then [] else space)
  | None => result
  end.
Proof.
  intros Hne Hbr Hws Hf Hl Hrd collapse parts classes whitespace0 whitespace Hok
    sorted removed survivors kept_ws result.
  pose proof (sortClasses_plain classStr context options Hne Hbr Hws Hf Hl) as E.
  cbv zeta in E. rewrite Hrd in E.
  pose proof (reorderClasses_length classes context Hok) as Hlen. fold sorted in Hlen.
  destruct (sortClassList_counts classes context true Hok) as [Hnd [Hrange Hcount]].
  fold removed in Hnd, Hrange, Hcount.
  assert (Hdedup : exists kept, dedup_go [] 0 sorted = (kept, removed) /\
                     classList (sortClassList classes context true) = map fst kept).
  { unfold removed, sortClassList, sortClassList_ranked. fold sorted.
    destruct (dedup_go [] 0 sorted) as [kept rem]. exists kept. split; reflexivity. }
  destruct Hdedup as [kept [Hd Hcl]].
  destruct (dedup_go_spec sorted [] sorted [] kept removed eq_refl
              ltac:(intros; simpl; tauto) Hd) as [Hk [Hrem _]].
  cbn [List.length] in Hk, Hrem.
  assert (Hsurv : classList (sortClassList classes context true) = survivors).
  { rewrite Hcl, Hk. unfold survivors, filteri. f_equal. apply filteri_go_ext_nth.
    intros k e He. cbn [Nat.add]. f_equal. apply eq_true_iff_eq.
    rewrite existsb_jstr_In, existsb_nat_In, Hrem. split.
    - intros Hin. split; [lia|]. exists e. split; assumption.
    - intros [_ [e' [He' Hin]]]. rewrite He in He'. inversion He'; subst. exact Hin. }
  split.
  { intros k e He. rewrite Hrem, <- In_known_names_firstn. split.
    - intros [_ [e' [He' Hin]]]. rewrite He in He'. inversion He'; subst; exact Hin.
    - intros Hin. split; [lia|]. exists e; auto. }
  split; [rewrite Hlen; exact Hrange|].
  split; [exact Hnd|].
  split; [rewrite <- Hsurv; exact Hcount|].
  split.
  { intros Hw. apply drop_ws_count; [exact Hnd|]. intros k Hk'. apply Hrange in Hk'. lia. }
  rewrite E. fold parts classes. rewrite Hsurv, stitch_nth.
  change (replace_trailing_ws [] space) with (@nil ascii).
  change (replace_leading_ws [] space) with (@nil ascii).
  unfold result, kept_ws, collapse.
  destruct (shouldCollapse (collapseWhitespace options)) as [[st en]|];
    rewrite app_nil_l, app_nil_r; reflexivity.
Qed.

Lemma sortClasses_whitespace_slots_witness :
  removedIndices (sortClassList [js "b"; js "b"; js "a"] (pointwise rank_abc) true) = [2] /\
  sortClasses (js "b" ++ tab ++ js "b" ++ newline ++ js "a") (pointwise rank_abc) preserve_ws_options
  = List.concat (map (fun k => nth k [js "a"; js "b"] [] ++ nth k [tab] []) (seq 0 2)).
Proof.
  split; [reflexivity|].
  pose proof (sortClasses_whitespace_slots (js "b" ++ tab ++ js "b" ++ newline ++ js "a")
                (pointwise rank_abc) preserve_ws_options
                ltac:(discriminate) ltac:(vm_compute; reflexivity) ltac:(vm_compute; reflexivity)
                eq_refl eq_refl eq_refl (pointwise_ok rank_abc _)) as H.
  cbv zeta in H. destruct H as [_ [_ [_ [_ [_ H]]]]].
  rewrite H. vm_compute. reflexivity.
Defined.

(** ** C8 *)

Lemma ForallOrdPairs_app_inv {A} (R : A -> A -> Prop) (l1 l2 : list A) :
  ForallOrdPairs R (l1 ++ l2) -> forall a b, In a l1 -> In b l2 -> R a b.
Proof.
  induction l1 as [|x l1 IH]; simpl; intros H a b Ha Hb; [contradiction|].
  inversion H as [|? ? Hx Hr]; subst. destruct Ha as [<-|Ha].
  - rewrite Forall_forall in Hx. apply Hx, in_or_app; right; exact Hb.
  - apply IH; assumption.
Qed.

Section SortedInput.
Context {A : Type} (cmp : A -> A -> Z).

Lemma sort_insert_end (x : A) (l : list A) :
  (forall y, In y l -> (cmp x y >= 0)%Z) -> sort_insert cmp x l = l ++ [x].
Proof.
  induction l as [|y l IH]; intros H; simpl; [reflexivity|].
  destruct (Z.ltb_spec (cmp x y) 0) as [Hlt|_].
  - specialize (H y (or_introl eq_refl)). lia.
  - rewrite IH; [reflexivity|]. intros z Hz; apply H; right; exact Hz.
Qed.

Lemma js_sort_fold_sorted (l acc : list A) :
  ForallOrdPairs (fun a b => (cmp b a >= 0)%Z) (acc ++ l) ->
  fold_left (fun acc x => sort_insert cmp x acc) l acc = acc ++ l.
Proof.
  revert acc; induction l as [|x l IH]; intros acc H; simpl; [symmetry; apply app_nil_r|].
  rewrite sort_insert_end.
  - rewrite IH; [rewrite <- app_assoc; reflexivity|]. rewrite <- app_assoc; exact H.
  - intros y Hy. apply (ForallOrdPairs_app_inv _ acc (x :: l) H y x Hy (or_introl eq_refl)).
Qed.

(** On an input that is already ordered, the sort changes nothing. *)
Lemma js_sort_sorted_id (l : list A) :
  ForallOrdPairs (fun a b => (cmp b a >= 0)%Z) l -> js_sort cmp l = l.
Proof. intros H. unfold js_sort. apply (js_sort_fold_sorted l []). exact H. Qed.
End SortedInput.

Lemma dedup_go_nodup (seen : list jstr) (idx : nat) (l : list (jstr * option Z)) :
  NoDup (map fst l) -> (forall c, In c (map fst l) -> ~ In c seen) ->
  dedup_go seen idx l = (l, []).
Proof.
  revert seen idx; induction l as [|[c o] l IH]; intros seen idx Hnd Hdis; [reflexivity|].
  simpl in Hnd. inversion Hnd as [|? ? Hc Hnd']; subst.
  simpl. destruct (existsb (jstr_eqb c) seen) eqn:E.
  { apply existsb_jstr_In in E. exfalso; apply (Hdis c); [left; reflexivity|exact E]. }
  rewrite IH; [reflexivity|exact Hnd'|].
  intros c' Hc' Hin. destruct o; simpl in Hin.
  - destruct Hin as [<-|Hin]; [contradiction|]. apply (Hdis c'); [right|]; assumption.
  - apply (Hdis c'); [right|]; assumption.
Qed.

Lemma filteri_go_true {A} (l : list A) (j : nat) : filteri_go (fun _ _ => true) j l = l.
Proof. revert j; induction l; intros j; simpl; [|rewrite IHl]; reflexivity. Qed.

Lemma is_split_ws_js_space (c : ascii) : is_split_ws c = true -> is_js_space c = true.
Proof.
  unfold is_split_ws, is_js_space. intros H.
  repeat (apply orb_true_iff in H; destruct H as [H|H]); rewrite H; simpl;
    rewrite ?orb_true_r; reflexivity.
Qed.

Lemma plain_no_split_ws (t : jstr) :
  forallb (fun c => negb (is_js_space c)) t = true ->
  forallb (fun c => negb (is_split_ws c)) t = true.
Proof.
  induction t as [|c t IH]; simpl; [reflexivity|].
  intros H. apply andb_true_iff in H as [H1 H2]. rewrite IH by exact H2.
  destruct (is_split_ws c) eqn:E; [|reflexivity].
  rewrite (is_split_ws_js_space c E) in H1. discriminate.
Qed.

Lemma split_ws_nonnil (s : jstr) : split_ws s <> [].
Proof.
  destruct s as [|c s]; simpl; [discriminate|].
  destruct (is_split_ws c); destruct (split_ws s) as [|[|x t] [|w p]]; discriminate.
Qed.

Lemma split_ws_token_app (t r : jstr) hd tl :
  forallb (fun c => negb (is_split_ws c)) t = true ->
  split_ws r = hd :: tl -> split_ws (t ++ r) = (t ++ hd) :: tl.
Proof.
  induction t as [|c t IH]; intros Ht Hr; simpl; [exact Hr|].
  simpl in Ht. apply andb_true_iff in Ht as [Hc Ht].
  destruct (is_split_ws c); [discriminate|]. rewrite IH by assumption. reflexivity.
Qed.

Lemma split_ws_join (toks : list jstr) :
  toks <> [] -> Forall plain_token toks ->
  split_ws (join_space toks) = interleave_space toks.
Proof.
  induction toks as [|t toks IH]; intros Hne Hp; [congruence|].
  inversion Hp as [|? ? [Ht1 Ht2] Hp']; subst.
  destruct toks as [|t2 toks].
  - simpl. rewrite <- (app_nil_r t) at 1.
    rewrite (split_ws_token_app t [] [] []); [rewrite app_nil_r; reflexivity| |reflexivity].
    apply plain_no_split_ws; exact Ht2.
  - change (join_space (t :: t2 :: toks)) with (t ++ space ++ join_space (t2 :: toks)).
    change (interleave_space (t :: t2 :: toks)) with (t :: space :: interleave_space (t2 :: toks)).
    rewrite (split_ws_token_app t _ [] (space :: interleave_space (t2 :: toks))).
    + rewrite app_nil_r; reflexivity.
    + apply plain_no_split_ws; exact Ht2.
    + change (space ++ join_space (t2 :: toks)) with (" "%char :: join_space (t2 :: toks)).
      cbn [split_ws]. rewrite IH by (discriminate || exact Hp').
      inversion Hp' as [|? ? [H2 _] _]; subst.
      simpl. destruct t2 as [|c2 t2]; [congruence|]. destruct toks; reflexivity.
Qed.

Lemma interleave_even (toks : list jstr) (j : nat) :
  Nat.even j = true ->
  filteri_go (fun _ i => Nat.even i) j (interleave_space toks) = toks /\
  filteri_go (fun _ i => negb (Nat.even i)) j (interleave_space toks)
  = repeat space (pred (length toks)).
Proof.
  revert j; induction toks as [|t toks IH]; intros j Hj; [split; reflexivity|].
  destruct toks as [|t2 toks].
  - simpl. rewrite Hj. split; reflexivity.
  - change (interleave_space (t :: t2 :: toks)) with (t :: space :: interleave_space (t2 :: toks)).
    destruct (IH (S (S j))) as [IH1 IH2]; [exact Hj|].
    assert (Hs : Nat.even (S j) = false) by (rewrite Nat.even_succ, <- Nat.negb_even, Hj; reflexivity).
    cbn [filteri_go]. rewrite Hj, Hs. cbn [negb]. rewrite IH1, IH2. split; reflexivity.
Qed.

Lemma stitch_join (toks : list jstr) :
  stitch toks (repeat space (pred (length toks))) = join_space toks.
Proof.
  induction toks as [|t toks IH]; [reflexivity|].
  destruct toks as [|t2 toks].
  - simpl. apply app_nil_r.
  - change (join_space (t :: t2 :: toks)) with (t ++ space ++ join_space (t2 :: toks)).
    rewrite <- IH. reflexivity.
Qed.

Lemma js_last_app_single {A} (l : list A) (x : A) : js_last (l ++ [x]) = Some x.
Proof. unfold js_last. rewrite rev_app_distr. reflexivity. Qed.

Lemma join_space_first (t : jstr) (toks : list jstr) :
  exists r, join_space (t :: toks) = t ++ r.
Proof.
  destruct toks as [|t2 toks]; [exists []; simpl; rewrite app_nil_r; reflexivity|].
  exists (space ++ join_space (t2 :: toks)). reflexivity.
Qed.

Lemma join_space_last (toks : list jstr) (t : jstr) :
  exists r, join_space (toks ++ [t]) = r ++ t.
Proof.
  induction toks as [|t1 toks IH]; [exists []; reflexivity|].
  destruct IH as [r Hr].
  destruct toks as [|t2 toks].
  - exists (t1 ++ space). simpl. rewrite <- app_assoc. reflexivity.
  - exists (t1 ++ space ++ r).
    change ((t1 :: t2 :: toks) ++ [t]) with (t1 :: ((t2 :: toks) ++ [t])).
    change (join_space (t1 :: ((t2 :: toks) ++ [t])))
      with (t1 ++ space ++ join_space ((t2 :: toks) ++ [t])).
    rewrite Hr, !app_assoc. reflexivity.
Qed.

Lemma replace_leading_ws_plain (s rep : jstr) c :
  hd_error s = Some c -> is_js_space c = false -> replace_leading_ws s rep = s.
Proof. destruct s; simpl; intros H; inversion H; subst; intros ->; reflexivity. Qed.

Lemma replace_trailing_ws_plain (s rep : jstr) c :
  hd_error (rev s) = Some c -> is_js_space c = false -> replace_trailing_ws s rep = s.
Proof.
  unfold replace_trailing_ws. destruct (rev s); simpl; intros H; inversion H; subst.
  intros ->; reflexivity.
Qed.

Lemma plain_head (t : jstr) :
  plain_token t -> exists c, hd_error t = Some c /\ is_js_space c = false.
Proof.
  intros [Hne Hp]. destruct t as [|c t]; [congruence|].
  exists c; split; [reflexivity|]. simpl in Hp.
  destruct (is_js_space c); [discriminate|reflexivity].
Qed.

Lemma plain_token_rev (t : jstr) : plain_token t -> plain_token (rev t).
Proof.
  intros [Hne Hp]. split.
  - intros H. apply Hne. rewrite <- (rev_involutive t), H. reflexivity.
  - apply forallb_forall. intros c Hc. apply in_rev in Hc.
    rewrite forallb_forall in Hp. apply Hp, Hc.
Qed.

Lemma join_space_ends (toks : list jstr) :
  toks <> [] -> Forall plain_token toks ->
  (exists c, hd_error (join_space toks) = Some c /\ is_js_space c = false) /\
  (exists c, hd_error (rev (join_space toks)) = Some c /\ is_js_space c = false).
Proof.
  intros Hne Hp. split.
  - destruct toks as [|t toks]; [congruence|].
    inversion Hp as [|? ? Ht _]; subst.
    destruct (join_space_first t toks) as [r ->].
    destruct (plain_head t Ht) as [c [Hc Hs]].
    exists c. destruct t; [discriminate|]. split; [exact Hc|exact Hs].
  - destruct (exists_last Hne) as [l [t ->]].
    assert (Ht : plain_token t) by (rewrite Forall_forall in Hp; apply Hp, in_or_app; right; left; reflexivity).
    destruct (join_space_last l t) as [r ->].
    destruct (plain_head (rev t) (plain_token_rev t Ht)) as [c [Hc Hs]].
    exists c. rewrite rev_app_distr. destruct (rev t); [discriminate|]. split; [exact Hc|exact Hs].
Qed.

(** C8 (amended): [sortClasses] leaves a canonical class string unchanged:
    non-empty tokens without whitespace, joined by single spaces, pairwise
    distinct, with no [{{], already in the order of the comparator of
    [reorderClasses] under the given oracle (each entry compares [>= 0]
    against every earlier one), for any oracle meeting its contract and any
    [removeDuplicates] and [collapseWhitespace], with [ignoreFirst] and
    [ignoreLast] off. *)
Theorem sortClasses_canonical_fixpoint (toks : list jstr) (context : TailwindContext)
  (options : SortOptions) :
  ignoreFirst options = false -> ignoreLast options = false ->
  toks <> [] -> Forall plain_token toks -> NoDup toks ->
  js_includes (join_space toks) (js "{{") = false ->
  oracle_ok context toks ->
  ForallOrdPairs (fun x y => (compareClasses y x >= 0)%Z) (getClassOrder context toks) ->
  sortClasses (join_space toks) context options = join_space toks.
Proof.
  intros Hf Hl Hne Hp Hnd Hbr Hok Hord.
  destruct (join_space_ends toks Hne Hp) as [[c [Hc Hcs]] [c' [Hc' Hcs']]].
  assert (HJ : join_space toks <> []) by (intros E; rewrite E in Hc; discriminate).
  assert (Hws : only_split_ws (join_space toks) = false).
  { destruct (join_space toks) as [|c0 J]; [congruence|]. simpl in Hc. inversion Hc; subst.
    simpl. destruct (is_split_ws c) eqn:E; [|reflexivity].
    rewrite (is_split_ws_js_space c E) in Hcs. discriminate. }
  pose proof (sortClasses_plain (join_space toks) context options HJ Hbr Hws Hf Hl) as E.
  cbv zeta in E. rewrite E; clear E.
  rewrite (split_ws_join toks Hne Hp). unfold filteri.
  destruct (interleave_even toks 0 eq_refl) as [E1 E2]. rewrite E1, E2.
  assert (Hdt : drop_trailing_empty toks = toks).
  { destruct (exists_last Hne) as [l [t Et]].
    unfold drop_trailing_empty. rewrite Et, js_last_app_single.
    assert (Ht : plain_token t) by (rewrite Forall_forall in Hp; apply Hp; rewrite Et;
                                    apply in_or_app; right; left; reflexivity).
    destruct t; [destruct Ht; congruence|reflexivity]. }
  rewrite Hdt.
  assert (Hsc : sortClassList toks context (removeDuplicates options)
                = {| classList := toks; removedIndices := [] |}).
  { unfold sortClassList, sortClassList_ranked, reorderClasses.
    rewrite (js_sort_sorted_id compareClasses _ Hord).
    destruct (removeDuplicates options).
    - rewrite dedup_go_nodup; [rewrite Hok; reflexivity| rewrite Hok; exact Hnd | intros ? _ []].
    - rewrite Hok. reflexivity. }
  rewrite Hsc. cbn [classList removedIndices].
  assert (Hw : forall b : bool,
             (if b then map (fun _ => space) (repeat space (pred (length toks)))
              else repeat space (pred (length toks))) = repeat space (pred (length toks))).
  { intros []; [rewrite map_repeat|]; reflexivity. }
  rewrite Hw. unfold drop_ws_before_removed, filteri.
  change (filteri_go (fun (_ : jstr) (index : nat) => negb (existsb (Nat.eqb (S index)) [])) 0
            (repeat space (Init.Nat.pred (length toks))))
    with (filteri_go (fun (_ : jstr) (_ : nat) => true) 0 (repeat space (Init.Nat.pred (length toks)))).
  rewrite filteri_go_true, stitch_join.
  destruct (shouldCollapse (collapseWhitespace options)) as [[st en]|].
  - cbn [replace_trailing_ws replace_leading_ws rev app].
    rewrite (replace_leading_ws_plain _ _ c Hc Hcs).
    rewrite (replace_trailing_ws_plain _ _ c' Hc' Hcs').
    apply app_nil_r.
  - simpl. apply app_nil_r.
Qed.

Lemma sortClasses_canonical_fixpoint_witness :
  sortClasses (join_space [js "a"; js "b"]) (pointwise rank_abc) default_options
  = join_space [js "a"; js "b"].
Proof.
  apply sortClasses_canonical_fixpoint.
  - reflexivity.
  - reflexivity.
  - discriminate.
  - repeat constructor; discriminate.
  - repeat constructor; simpl; intuition discriminate.
  - reflexivity.
  - apply pointwise_ok.
  - simpl. repeat constructor; vm_compute; discriminate.
Defined.

(** C8: [sortClasses] is not idempotent for every oracle.  An oracle that
    gives the empty token a rank between [a] and [b] moves the empty token
    that the leading space of [" a b"] produces into the middle, where it
    becomes a double space; a second pass splits that double space as one run
    and yields ["a b"]. *)
Lemma sortClasses_not_idempotent :
  sortClasses (js " a b") (pointwise rank_empty_mid) default_options = js "a  b" /\
  sortClasses (js "a  b") (pointwise rank_empty_mid) default_options = js "a b".
Proof. split; reflexivity. Qed.

(** ** C7 *)

Lemma js_last_removelast {A} (l : list A) (x : A) : js_last l = Some x -> l = removelast l ++ [x].
Proof.
  unfold js_last. intros H. destruct (rev l) as [|y r] eqn:E; [discriminate|].
  inversion H; subst. rewrite <- (rev_involutive l), E. simpl.
  rewrite removelast_last. reflexivity.
Qed.

Lemma drop_trailing_empty_incl (l : list jstr) (t : jstr) :
  In t (drop_trailing_empty l) -> In t l.
Proof.
  unfold drop_trailing_empty. destruct (js_last l) as [[|c x]|] eqn:E; auto.
  intros H. rewrite (js_last_removelast l [] E). apply in_or_app; left; exact H.
Qed.

Lemma drop_trailing_empty_keep (l : list jstr) (t : jstr) :
  In t l -> t <> [] -> In t (drop_trailing_empty l).
Proof.
  unfold drop_trailing_empty. destruct (js_last l) as [[|c x]|] eqn:E; auto.
  intros H Ht. rewrite (js_last_removelast l [] E) in H.
  apply in_app_or in H as [H|[<-|[]]]; [exact H|congruence].
Qed.

Lemma first_sentinel_split (l : list (jstr * option Z)) (t : jstr) :
  ForallOrdPairs le_ranked l -> In t (map fst l) -> is_ellipsis t = true ->
  exists A e B, l = A ++ e :: B /\ is_ellipsis (fst e) = true /\
    Forall (fun x => is_ellipsis (fst x) = false) A /\
    Forall (fun x => is_ellipsis (fst x) = true) B.
Proof.
  induction l as [|x l IH]; intros Hs Hin Ht; [contradiction|].
  inversion Hs as [|? ? Hx Hl]; subst.
  destruct (is_ellipsis (fst x)) eqn:Ex.
  - exists [], x, l. split; [reflexivity|]. split; [exact Ex|]. split; [constructor|].
    rewrite Forall_forall in Hx |- *. intros y Hy.
    destruct (Hx y Hy) as [H|[H _]]; [exact H|congruence].
  - destruct Hin as [Hin|Hin]; [congruence|].
    destruct (IH Hl Hin Ht) as [A [e [B [-> [He [HA HB]]]]]].
    exists (x :: A), e, B. split; [reflexivity|]. split; [exact He|].
    split; [constructor; assumption|exact HB].
Qed.

Lemma dedup_go_incl (seen : list jstr) (idx : nat) (l : list (jstr * option Z)) kept removed :
  dedup_go seen idx l = (kept, removed) -> incl kept l.
Proof.
  revert seen idx kept removed; induction l as [|[c o] l IH]; intros seen idx kept removed H.
  - inversion H; subst. intros x [].
  - simpl in H. destruct (existsb (jstr_eqb c) seen).
    + destruct (dedup_go seen (S idx) l) as [k r] eqn:E. inversion H; subst.
      intros x Hx; right; exact (IH _ _ _ _ E x Hx).
    + destruct (dedup_go _ (S idx) l) as [k r] eqn:E. inversion H; subst.
      intros x [<-|Hx]; [left; reflexivity|right; exact (IH _ _ _ _ E x Hx)].
Qed.

Lemma dedup_go_last_sentinel (A : list (jstr * option Z)) e B (seen : list jstr) idx kept removed :
  is_ellipsis (fst e) = true ->
  Forall (fun x => is_ellipsis (fst x) = false) A ->
  Forall (fun x => is_ellipsis (fst x) = true) B ->
  (forall c, In c seen -> is_ellipsis c = false) ->
  dedup_go seen idx (A ++ e :: B) = (kept, removed) ->
  exists X e', kept = X ++ [e'] /\ is_ellipsis (fst e') = true /\ In e' (A ++ e :: B).
Proof.
  revert seen idx kept removed.
  induction A as [|[c o] A IH]; intros seen idx kept removed He HA HB Hseen H.
  - destruct e as [ce oe]. simpl in H.
    destruct (existsb (jstr_eqb ce) seen) eqn:Eex.
    { apply existsb_jstr_In, Hseen in Eex. simpl in He. congruence. }
    destruct (dedup_go _ (S idx) B) as [k r] eqn:E. inversion H; subst.
    pose proof (dedup_go_incl _ _ _ _ _ E) as Hk.
    destruct (exists_last (l := (ce, oe) :: k) ltac:(discriminate)) as [X [e' Ek]].
    exists X, e'. rewrite Ek. split; [reflexivity|].
    assert (Hin : In e' ((ce, oe) :: B)).
    { destruct (in_inv (l := k) (a := (ce, oe)) (b := e') ltac:(rewrite Ek; apply in_or_app; right; left; reflexivity))
        as [<-|Hin]; [left; reflexivity|right; apply Hk, Hin]. }
    split; [|exact Hin].
    destruct Hin as [<-|Hin]; [exact He|]. rewrite Forall_forall in HB. apply HB, Hin.
  - inversion HA as [|? ? Hc HA']; subst. simpl in Hc. simpl in H.
    destruct (existsb (jstr_eqb c) seen).
    + destruct (dedup_go seen (S idx) (A ++ e :: B)) as [k r] eqn:E. inversion H; subst.
      destruct (IH _ _ _ _ He HA' HB Hseen E) as [X [e' [-> [He' Hin]]]].
      exists X, e'. split; [reflexivity|]. split; [exact He'|right; exact Hin].
    + destruct (dedup_go _ (S idx) (A ++ e :: B)) as [k r] eqn:E. inversion H; subst.
      assert (Hseen' : forall c', In c' (match o with Some _ => c :: seen | None => seen end) ->
                                  is_ellipsis c' = false).
      { destruct o; [intros c' [<-|Hc']; [exact Hc|apply Hseen, Hc']|exact Hseen]. }
      destruct (IH _ _ _ _ He HA' HB Hseen' E) as [X [e' [-> [He' Hin]]]].
      exists ((c, o) :: X), e'. split; [reflexivity|]. split; [exact He'|right; exact Hin].
Qed.

Lemma stitch_app_last (xs : list jstr) (y : jstr) (ws : list jstr) :
  stitch (xs ++ [y]) ws =
  stitch xs ws ++ y ++ match skipn (length xs) ws with w :: _ => w | [] => [] end.
Proof.
  revert ws; induction xs as [|x xs IH]; intros ws.
  - simpl. rewrite !app_nil_r. reflexivity.
  - cbn [app stitch List.length]. rewrite IH, <- !app_assoc.
    destruct ws; cbn [tl skipn]; rewrite ?skipn_nil; reflexivity.
Qed.

Lemma filteri_go_incl {A} (p : A -> nat -> bool) (j : nat) (l : list A) (x : A) :
  In x (filteri_go p j l) -> In x l.
Proof.
  revert j; induction l as [|y l IH]; intros j; simpl; [intros []|].
  destruct (p y j); [intros [<-|H]; [left; reflexivity|right; exact (IH _ H)]|].
  intros H; right; exact (IH _ H).
Qed.

Lemma In_skipn {A} (n : nat) (l : list A) (x : A) : In x (skipn n l) -> In x l.
Proof. intros H. rewrite <- (firstn_skipn n l). apply in_or_app; right; exact H. Qed.

Lemma sentinel_ends (t : jstr) :
  is_ellipsis t = true ->
  (exists c, hd_error t = Some c /\ is_js_space c = false) /\
  (exists c, hd_error (rev t) = Some c /\ is_js_space c = false).
Proof.
  unfold is_ellipsis. intros H. apply orb_true_iff in H as [H|H];
    apply jstr_eqb_eq in H; subst; split; eexists; split; reflexivity.
Qed.

Lemma drop_leading_ws_app (P b : jstr) c :
  hd_error b = Some c -> is_js_space c = false ->
  exists P', drop_leading_ws (P ++ b) = P' ++ b.
Proof.
  intros Hb Hc. induction P as [|x P IH].
  - exists []. destruct b; inversion Hb; subst. simpl. rewrite Hc. reflexivity.
  - destruct IH as [P' HP']. simpl. destruct (is_js_space x).
    + exists P'; exact HP'.
    + exists (x :: P); reflexivity.
Qed.

Lemma replace_leading_ws_app (P b rep : jstr) c :
  hd_error b = Some c -> is_js_space c = false ->
  exists P', replace_leading_ws (P ++ b) rep = P' ++ b.
Proof.
  intros Hb Hc. destruct (drop_leading_ws_app P b c Hb Hc) as [P' HP'].
  unfold replace_leading_ws. destruct (P ++ b) as [|x s] eqn:E.
  - exists []; destruct P, b; simpl in *; discriminate.
  - destruct (is_js_space x).
    + exists (rep ++ P'). rewrite HP', app_assoc. reflexivity.
    + exists P. exact (eq_sym E).
Qed.

Lemma drop_leading_ws_plain (s : jstr) c :
  hd_error s = Some c -> is_js_space c = false -> drop_leading_ws s = s.
Proof. destruct s; simpl; intros H; inversion H; subst; intros ->; reflexivity. Qed.

Lemma replace_trailing_ws_after (Q t W : jstr) c :
  hd_error (rev t) = Some c -> is_js_space c = false -> (W = [] \/ W = space) ->
  replace_trailing_ws (Q ++ t ++ W) [] = Q ++ t.
Proof.
  intros Ht Hc [->| ->].
  - rewrite app_nil_r. apply (replace_trailing_ws_plain _ _ c); [|exact Hc].
    rewrite rev_app_distr. destruct (rev t); [discriminate|exact Ht].
  - unfold replace_trailing_ws.
    rewrite !rev_app_distr. cbn [rev space js list_ascii_of_string app].
    change (is_js_space " "%char) with true. cbv iota.
    cbn [drop_leading_ws]. change (is_js_space " "%char) with true. cbv iota.
    rewrite (drop_leading_ws_plain _ c); [|destruct (rev t); [discriminate|exact Ht]|exact Hc].
    rewrite app_nil_r, rev_app_distr, !rev_involutive. reflexivity.
Qed.

Lemma split_ws_odd_length (s : jstr) : exists n, length (split_ws s) = 2 * n + 1.
Proof.
  induction s as [|c s [n IH]]; [exists 0; reflexivity|]. cbn [split_ws].
  destruct (is_split_ws c).
  - destruct (split_ws s) as [|[|x t] [|w p]] eqn:E; simpl in *;
      try (exists (S n); simpl in *; lia); exists n; simpl in *; lia.
  - destruct (split_ws s) as [|t p] eqn:E; simpl in *; [exists 0; reflexivity|exists n; lia].
Qed.

Lemma even_succ_neg (j : nat) : Nat.even (S j) = negb (Nat.even j).
Proof. rewrite Nat.even_succ, <- Nat.negb_even. reflexivity. Qed.

Lemma filteri_parity (l : list jstr) (j n : nat) :
  Nat.even j = true -> length l = 2 * n + 1 ->
  length (filteri_go (fun _ i => Nat.even i) j l) = S n /\
  length (filteri_go (fun _ i => negb (Nat.even i)) j l) = n /\
  Permutation (List.concat l)
    (List.concat (filteri_go (fun _ i => Nat.even i) j l)
     ++ List.concat (filteri_go (fun _ i => negb (Nat.even i)) j l)).
Proof.
  revert l j; induction n as [|n IH]; intros l j Hj Hl.
  - destruct l as [|x [|y l]]; simpl in Hl; try lia. cbn [filteri_go]. rewrite Hj. simpl.
    split; [reflexivity|]. split; [reflexivity|]. rewrite !app_nil_r. reflexivity.
  - destruct l as [|x [|y l]]; simpl in Hl; try lia.
    assert (Hj1 : Nat.even (S j) = false) by (rewrite even_succ_neg, Hj; reflexivity).
    assert (Hj2 : Nat.even (S (S j)) = true) by (rewrite even_succ_neg, Hj1; reflexivity).
    destruct (IH l (S (S j)) Hj2 ltac:(lia)) as [H1 [H2 H3]].
    cbn [filteri_go]. rewrite Hj, Hj1. cbn [negb List.length List.concat].
    split; [lia|]. split; [lia|].
    rewrite <- !app_assoc. apply Permutation_app_head.
    rewrite Permutation_app_swap_app. apply Permutation_app_head. exact H3.
Qed.

Lemma split_ws_last_nonws (s : jstr) (c : ascii) :
  is_split_ws c = false -> exists t, last (split_ws (s ++ [c])) [] = t ++ [c].
Proof.
  intros Hc. induction s as [|x s [t IH]].
  - exists []. cbn [app split_ws]. rewrite Hc. reflexivity.
  - cbn [app split_ws]. pose proof (split_ws_nonnil (s ++ [c])) as Hnn.
    destruct (split_ws (s ++ [c])) as [|p parts]; [congruence|].
    destruct (is_split_ws x).
    + destruct p as [|a p].
      * destruct parts as [|w parts].
        -- destruct t; simpl in IH; discriminate.
        -- destruct parts as [|q parts].
           ++ exists (x :: t). simpl in IH |- *. rewrite IH. reflexivity.
           ++ exists t. exact IH.
      * exists t. exact IH.
    + destruct parts as [|q parts].
      * exists (x :: t). simpl in IH |- *. rewrite IH. reflexivity.
      * exists t. exact IH.
Qed.

Lemma filteri_go_app {A} (p : A -> nat -> bool) (j : nat) (l1 l2 : list A) :
  filteri_go p j (l1 ++ l2) = filteri_go p j l1 ++ filteri_go p (j + length l1) l2.
Proof.
  revert j; induction l1 as [|x l1 IH]; intros j; cbn [app filteri_go List.length].
  - rewrite Nat.add_0_r. reflexivity.
  - rewrite IH, Nat.add_succ_r. destruct (p x j); reflexivity.
Qed.

(** A class string that does not end with a character of [[\t\r\f\n ]]
    splits into one more token than whitespace runs, and its last token is
    not empty (so [classes.pop()] is not taken). *)
Lemma split_ws_no_trailing (pre : jstr) (c : ascii) :
  is_split_ws c = false ->
  drop_trailing_empty (filteri (fun _ i => Nat.even i) (split_ws (pre ++ [c])))
  = filteri (fun _ i => Nat.even i) (split_ws (pre ++ [c])) /\
  length (filteri (fun _ i => Nat.even i) (split_ws (pre ++ [c])))
  = S (length (filteri (fun _ i => negb (Nat.even i)) (split_ws (pre ++ [c])))).
Proof.
  intros Hc.
  destruct (split_ws_last_nonws pre c Hc) as [t Ht].
  destruct (split_ws_odd_length (pre ++ [c])) as [n Hn].
  destruct (filteri_parity (split_ws (pre ++ [c])) 0 n eq_refl Hn) as [H1 [H2 _]].
  split; [|unfold filteri; lia].
  destruct (exists_last (split_ws_nonnil (pre ++ [c]))) as [P [y Ey]].
  rewrite Ey in Ht, Hn |- *. rewrite last_last in Ht. subst y.
  rewrite length_app in Hn. cbn [List.length] in Hn.
  assert (HP : length P = 2 * n) by lia.
  unfold filteri. rewrite filteri_go_app. cbn [filteri_go]. rewrite Nat.add_0_l, HP.
  replace (Nat.even (2 * n)) with true by (symmetry; apply Nat.even_spec; exists n; reflexivity).
  unfold drop_trailing_empty. rewrite js_last_app_single.
  destruct (t ++ [c]) eqn:E; [destruct t; discriminate|reflexivity].
Qed.

(** C7 (amended): when the tokens of a class string include a sentinel
    ([...] or the Unicode ellipsis), [sortClasses] returns a string that ends
    with a sentinel token of the input, provided the string has no [{{],
    [ignoreFirst] and [ignoreLast] are off, the oracle meets its contract,
    and either trailing whitespace is collapsed away ([collapseWhitespace] is
    [true] or has [end: true]) or the string does not end with a whitespace
    character of [[\t\r\f\n ]] (then any [collapseWhitespace] will do).
    (Another sentinel than the one named may end up last when the input has
    several.) *)
Theorem sortClasses_sentinel_last (s : jstr) (context : TailwindContext)
  (options : SortOptions) (t : jstr) :
  ignoreFirst options = false -> ignoreLast options = false ->
  ((collapseWhitespace options = CollapseBool true \/
    exists st, collapseWhitespace options = CollapseObj st true) \/
   match js_last s with Some c => is_split_ws c = false | None => True end) ->
  js_includes s (js "{{") = false ->
  (forall l, oracle_ok context l) ->
  In t (filteri (fun _ i => Nat.even i) (split_ws s)) -> is_ellipsis t = true ->
  exists t' pre, is_ellipsis t' = true /\
    In t' (filteri (fun _ i => Nat.even i) (split_ws s)) /\
    sortClasses s context options = pre ++ t'.
Proof.
  intros Hf Hl Hcol Hbr Hok Hin Ht.
  assert (Htne : t <> []) by (intros ->; discriminate).
  assert (Hne : s <> []).
  { intros ->. simpl in Hin. destruct Hin as [<-|[]]; congruence. }
  assert (Hws : only_split_ws s = false).
  { destruct (only_split_ws s) eqn:E; [|reflexivity].
    rewrite (split_ws_only s E) in Hin. simpl in Hin.
    destruct Hin as [<-|[<-|[]]]; congruence. }
  pose proof (sortClasses_plain s context options Hne Hbr Hws Hf Hl) as E.
  cbv zeta in E. rewrite E; clear E.
  set (toks := filteri (fun _ i => Nat.even i) (split_ws s)) in *.
  set (classes := drop_trailing_empty toks).
  set (ws0 := filteri (fun _ i => negb (Nat.even i)) (split_ws s)).
  set (ws1 := if isSome (shouldCollapse (collapseWhitespace options))
              then map (fun _ => space) ws0 else ws0).
  set (sorted := reorderClasses classes context).
  assert (Hsorted : ForallOrdPairs le_ranked sorted) by apply reorderClasses_sorted.
  assert (Hfst : Permutation (map fst sorted) classes).
  { rewrite <- (Hok classes). apply Permutation_map. unfold sorted, reorderClasses.
    apply js_sort_perm. }
  assert (Htin : In t (map fst sorted)).
  { apply (Permutation_in _ (Permutation_sym Hfst)), drop_trailing_empty_keep; assumption. }
  destruct (first_sentinel_split sorted t Hsorted Htin Ht) as [A [e [B [EAB [He [HA HB]]]]]].
  (* the kept entries end with a sentinel of [sorted] *)
  assert (Hend : exists (X : list (jstr * option Z)) (e' : jstr * option Z), classList (sortClassList classes context (removeDuplicates options))
                              = map fst X ++ [fst e'] /\
                              is_ellipsis (fst e') = true /\ In e' sorted).
  { unfold sortClassList, sortClassList_ranked. fold sorted.
    destruct (removeDuplicates options).
    - destruct (dedup_go [] 0 sorted) as [kept rem] eqn:Ed.
      rewrite EAB in Ed.
      destruct (dedup_go_last_sentinel A e B [] 0 kept rem He HA HB (fun c H => match H with end) Ed)
        as [X [e' [-> [He' Hin']]]].
      exists X, e'. rewrite map_app. split; [reflexivity|]. rewrite EAB. split; assumption.
    - destruct (exists_last (l := e :: B) ltac:(discriminate)) as [Y [e' EY]].
      assert (Hin' : In e' (e :: B)) by (rewrite EY; apply in_or_app; right; left; reflexivity).
      exists (A ++ Y), e'. change (classList _) with (map fst sorted).
      split; [rewrite EAB, EY, app_assoc, !map_app; reflexivity|].
      split.
      + destruct Hin' as [<-|Hin']; [exact He|]. rewrite Forall_forall in HB; apply HB, Hin'.
      + rewrite EAB. apply in_or_app; right; exact Hin'. }
  destruct Hend as [X [e' [Hcl [He' Hin']]]].
  assert (Htoks : In (fst e') toks).
  { apply drop_trailing_empty_incl. fold classes.
    apply (Permutation_in _ Hfst), in_map, Hin'. }
  set (r := sortClassList classes context (removeDuplicates options)) in *.
  rewrite Hcl, stitch_app_last.
  set (ws4 := drop_ws_before_removed (removedIndices r) ws1).
  set (W := match skipn (length (map fst X)) ws4 with w :: _ => w | [] => [] end).
  destruct (sentinel_ends (fst e') He') as [[c [Hc1 Hc2]] [c' [Hc1' Hc2']]].
  exists (fst e').
  destruct Hcol as [Hcol|Hnt].
  - (* trailing whitespace collapsed away *)
    assert (Hc : exists st, shouldCollapse (collapseWhitespace options) = Some (st, true)).
    { destruct Hcol as [-> | [st ->]]; [exists true|exists st]; reflexivity. }
    destruct Hc as [st Hc].
    assert (HW : W = [] \/ W = space).
    { unfold W. destruct (skipn (length (map fst X)) ws4) as [|w r'] eqn:Es; [left; reflexivity|].
      right. assert (Hw : In w ws4) by (apply (In_skipn (length (map fst X))); rewrite Es; left; reflexivity).
      apply filteri_go_incl in Hw. unfold ws1 in Hw. rewrite Hc in Hw. cbn [isSome] in Hw.
      apply in_map_iff in Hw. destruct Hw as [? [<- _]]; reflexivity. }
    assert (Hhd : hd_error (fst e' ++ W) = Some c) by (destruct (fst e'); [discriminate|exact Hc1]).
    destruct (replace_leading_ws_app (stitch (map fst X) ws4) (fst e' ++ W) (if st then [] else space) c Hhd Hc2)
      as [P' HP'].
    rewrite Hc, HP'. cbv iota.
    rewrite (replace_trailing_ws_after P' (fst e') W c' Hc1' Hc2' HW).
    exists P'. split; [exact He'|]. split; [exact Htoks|].
    cbn. apply app_nil_r.
  - (* no trailing whitespace: no run follows the last kept token *)
    destruct (exists_last Hne) as [pre [cl Es]].
    rewrite Es, js_last_app_single in Hnt.
    destruct (split_ws_no_trailing pre cl Hnt) as [Hdte Hlen].
    rewrite <- Es in Hdte, Hlen. fold toks in Hdte, Hlen. fold ws0 in Hlen.
    assert (Hclasses : classes = toks) by exact Hdte.
    destruct (sortClassList_counts classes context (removeDuplicates options) (Hok classes))
      as [Hnd [Hrange Hcount]].
    fold r in Hnd, Hrange, Hcount.
    assert (Hws1 : length ws1 = length ws0).
    { unfold ws1. destruct (isSome _); [apply length_map|reflexivity]. }
    assert (Hws4 : length ws4 + length (removedIndices r) = length ws1).
    { apply drop_ws_count; [exact Hnd|].
      intros k Hk. apply Hrange in Hk. rewrite Hclasses in Hk. lia. }
    assert (HW : W = []).
    { unfold W. rewrite skipn_all2; [reflexivity|].
      rewrite Hcl, length_app in Hcount. cbn [List.length] in Hcount.
      rewrite Hclasses in Hcount. lia. }
    clearbody W. subst W. rewrite app_nil_r.
    clearbody ws4 ws1 r.
    destruct (shouldCollapse (collapseWhitespace options)) as [[st en]|].
    + assert (Hhd : hd_error (fst e') = Some c) by exact Hc1.
      destruct (replace_leading_ws_app (stitch (map fst X) ws4) (fst e') (if st then [] else space) c Hhd Hc2)
        as [P' HP'].
      rewrite HP'.
      rewrite (replace_trailing_ws_plain (P' ++ fst e') _ c');
        [|rewrite rev_app_distr; destruct (rev (fst e')); [discriminate|exact Hc1']|exact Hc2'].
      exists P'. split; [exact He'|]. split; [exact Htoks|].
      change (replace_trailing_ws [] space) with (@nil ascii).
      change (replace_leading_ws [] space) with (@nil ascii).
      rewrite app_nil_l, app_nil_r. reflexivity.
    + exists (stitch (map fst X) ws4). split; [exact He'|]. split; [exact Htoks|].
      rewrite app_nil_l, app_nil_r. reflexivity.
Qed.

Lemma sortClasses_sentinel_last_witness :
  exists t' pre, is_ellipsis t' = true /\
    In t' (filteri (fun _ i => Nat.even i) (split_ws (js "b ... a"))) /\
    sortClasses (js "b ... a") (pointwise rank_abc)
      {| ignoreFirst := false; ignoreLast := false; removeDuplicates := true;
         collapseWhitespace := CollapseBool false |} = pre ++ t'.
Proof.
  apply (sortClasses_sentinel_last (js "b ... a") (pointwise rank_abc)
           {| ignoreFirst := false; ignoreLast := false; removeDuplicates := true;
              collapseWhitespace := CollapseBool false |} dots).
  - reflexivity.
  - reflexivity.
  - right; reflexivity.
  - reflexivity.
  - apply pointwise_ok.
  - simpl; right; left; reflexivity.
  - reflexivity.
Defined.

(** C7: the sentinel does not always end the output: a class string with
    [{{] is returned unchanged, even when it has a [...] token; and when
    whitespace is not collapsed, a class string ending with a space keeps a
    space after its sentinel. *)
Lemma sortClasses_sentinel_counterexample :
  In dots (filteri (fun _ i => Nat.even i) (split_ws (js "... a{{"))) /\
  sortClasses (js "... a{{") (pointwise rank_abc) default_options = js "... a{{" /\
  In dots (filteri (fun _ i => Nat.even i) (split_ws (js "... a "))) /\
  sortClasses (js "... a ") (pointwise rank_abc)
    {| ignoreFirst := false; ignoreLast := false; removeDuplicates := true;
       collapseWhitespace := CollapseBool false |} = js "a ... ".
Proof. split; [simpl; left; reflexivity|]. split; [reflexivity|].
  split; [simpl; left; reflexivity|reflexivity]. Qed.

(** ** Matcher examples *)

Example extractCallArguments_ex1 : extractCallArguments (js_dq "cn('')") DEFAULT_CLASS_FUNCTIONS = [].
Proof. reflexivity. Qed.

Example extractCallArguments_ex2 :
  extractCallArguments (js_dq "cn('flex items-center', isActive && 'bg-blue-500')") [js "cn"]
  = [js "flex items-center"; js "bg-blue-500"].
Proof. reflexivity. Qed.

Example extractBalanced_ex : extractBalancedContent (js "(foo(bar))") 0 = Some {| content := js "foo(bar)"; endIndex := 9 |}.
Proof. reflexivity. Qed.

Example findClassMatches_ex :
  map (fun m => (startOffset m, classStartOffset m, fullMatch m))
    (findClassMatches (js "merge(class: 'p-4 flex')") rubyConfig DEFAULT_CLASS_FUNCTIONS)
  = [(0, 14, js "'p-4 flex'")].
Proof. reflexivity. Qed.

(** ** C6 *)

Lemma firstn_S_nth_error {A} (s : list A) (k : nat) (c : A) :
  nth_error s k = Some c -> firstn (S k) s = firstn k s ++ [c].
Proof.
  revert k; induction s as [|x s IH]; intros k H; [destruct k; discriminate|].
  destruct k as [|k]; simpl in H.
  - inversion H; reflexivity.
  - change (x :: firstn (S k) s = x :: firstn k s ++ [c]). rewrite (IH k H). reflexivity.
Qed.

Lemma balancedScan_zero (s : jstr) (i : nat) st :
  depth_of st = 0 -> balancedScan s i st = (i, 0).
Proof. intros H. destruct s; cbn [balancedScan]; rewrite H; reflexivity. Qed.

Lemma balancedScan_spec (s : jstr) (i : nat) (st : nat * option ascii * bool) :
  depth_of st <> 0 ->
  (exists j, 0 < j <= length s /\
     depth_of (fold_left balancedStep (firstn j s) st) = 0 /\
     (forall k, 0 < k < j -> depth_of (fold_left balancedStep (firstn k s) st) <> 0) /\
     balancedScan s i st = (i + j, 0)) \/
  ((forall k, 0 < k <= length s -> depth_of (fold_left balancedStep (firstn k s) st) <> 0) /\
   snd (balancedScan s i st) <> 0).
Proof.
  revert i st; induction s as [|c s IH]; intros i st Hst.
  - right. split; [intros k Hk; simpl in Hk; lia|].
    cbn [balancedScan]. destruct (depth_of st) eqn:E; [contradiction|]. simpl. congruence.
  - set (st' := balancedStep st c).
    assert (Hscan : balancedScan (c :: s) i st = balancedScan s (S i) st').
    { cbn [balancedScan]. destruct (depth_of st); [contradiction|reflexivity]. }
    destruct (Nat.eq_dec (depth_of st') 0) as [H0|H0].
    + left. exists 1. split; [simpl; lia|]. split; [exact H0|]. split; [intros; lia|].
      rewrite Hscan, balancedScan_zero by exact H0. f_equal; lia.
    + destruct (IH (S i) st' H0) as [[j [Hj [Hz [Hmin Hs]]]]|[Hall Hs]].
      * left. exists (S j). split; [simpl; lia|]. split; [exact Hz|]. split.
        -- intros k Hk. destruct k as [|k]; [lia|]. cbn [firstn fold_left].
           destruct k as [|k]; [exact H0|]. apply Hmin; lia.
        -- rewrite Hscan, Hs. f_equal; lia.
      * right. split.
        -- intros k Hk. destruct k as [|k]; [lia|]. cbn [firstn fold_left].
           destruct k as [|k]; [exact H0|]. apply Hall; simpl in Hk; lia.
        -- rewrite Hscan; exact Hs.
Qed.

Lemma balancedStep_to_zero st (c : ascii) :
  depth_of st <> 0 -> depth_of (balancedStep st c) = 0 -> c = ")"%char.
Proof.
  destruct st as [[d q] esc]. unfold balancedStep. cbn [depth_of].
  destruct esc; [cbn; congruence|].
  destruct (Ascii.eqb c backslash); [cbn; congruence|].
  destruct q as [q|]; [destruct (Ascii.eqb c q); cbn; congruence|].
  destruct (Ascii.eqb c dq || Ascii.eqb c "'"%char); [cbn; congruence|].
  destruct (Ascii.eqb c "("%char); [cbn; congruence|].
  destruct (Ascii.eqb c ")"%char) eqn:E; [intros; apply Ascii.eqb_eq; exact E|cbn; congruence].
Qed.

Lemma balancedDepth_firstn (text : jstr) (o k : nat) :
  balancedDepth text o k
  = depth_of (fold_left balancedStep (firstn (k - o) (skipn (S o) text)) (1, None, false)).
Proof. reflexivity. Qed.

Lemma extractBalancedContent_iff (text : jstr) (o : nat) (bc : BalancedContent) :
  extractBalancedContent text o = Some bc <->
  nth_error text o = Some "("%char /\
  exists e, o < e < length text /\
    balancedDepth text o e = 0 /\
    (forall k, o < k < e -> balancedDepth text o k <> 0) /\
    bc = {| content := js_slice text (S o) e; endIndex := e |}.
Proof.
  unfold extractBalancedContent.
  destruct (nth_error text o) as [c|] eqn:Eo;
    [|split; [discriminate|intros [H _]; discriminate]].
  destruct (Ascii.eqb c "("%char) eqn:Ec;
    [|split; [discriminate|intros [H _]; inversion H; subst; discriminate]].
  apply Ascii.eqb_eq in Ec; subst c.
  assert (Hlen : length (skipn (S o) text) = length text - S o) by apply length_skipn.
  assert (Ho : o < length text) by (apply nth_error_Some; congruence).
  destruct (balancedScan_spec (skipn (S o) text) (S o) (1, None, false) ltac:(discriminate))
    as [[j [Hj [Hz [Hmin Hs]]]]|[Hall Hs]].
  - rewrite Hs. cbn [Nat.eqb]. split.
    + intros H; inversion H; subst; clear H. split; [reflexivity|].
      exists (o + j). split; [lia|]. split.
      * rewrite balancedDepth_firstn. replace (o + j - o) with j by lia. exact Hz.
      * split.
        -- intros k Hk. rewrite balancedDepth_firstn. apply Hmin; lia.
        -- rewrite ?Nat.sub_0_r; replace (S o + j - 1) with (o + j) by lia; reflexivity.
    + intros [_ [e [He [Hze [Hmine ->]]]]].
      rewrite balancedDepth_firstn in Hze.
      assert (e = o + j).
      { destruct (Nat.lt_trichotomy e (o + j)) as [Hlt|[Heq|Hgt]]; [|exact Heq|].
        - exfalso. apply (Hmin (e - o)); [lia|exact Hze].
        - exfalso. apply (Hmine (o + j)); [lia|].
          rewrite balancedDepth_firstn. replace (o + j - o) with j by lia. exact Hz. }
      subst e. rewrite ?Nat.sub_0_r; replace (S o + j - 1) with (o + j) by lia; reflexivity.
  - destruct (balancedScan (skipn (S o) text) (S o) (1, None, false)) as [i d].
    cbn [snd] in Hs. destruct (Nat.eqb_spec d 0) as [Hd|_]; [contradiction|].
    split; [discriminate|].
    intros [_ [e [He [Hze _]]]]. rewrite balancedDepth_firstn in Hze.
    exfalso. apply (Hall (e - o)); [lia|exact Hze].
Qed.

Lemma extractBalancedContent_close (text : jstr) (o : nat) (bc : BalancedContent) :
  extractBalancedContent text o = Some bc -> nth_error text (endIndex bc) = Some ")"%char.
Proof.
  intros H. apply extractBalancedContent_iff in H as [Ho [e [He [Hze [Hmin ->]]]]].
  cbn [endIndex].
  assert (Hc : exists c, nth_error text e = Some c)
    by (destruct (nth_error text e) eqn:E; [eexists; reflexivity|apply nth_error_None in E; lia]).
  destruct Hc as [c Hc]. rewrite Hc. f_equal.
  assert (Hs : nth_error (skipn (S o) text) (e - S o) = Some c).
  { rewrite nth_error_skipn. replace (S o + (e - S o)) with e by lia. exact Hc. }
  rewrite balancedDepth_firstn in Hze. replace (e - o) with (S (e - S o)) in Hze by lia.
  rewrite (firstn_S_nth_error _ _ _ Hs), fold_left_app in Hze. cbn [fold_left] in Hze.
  apply (balancedStep_to_zero
           (fold_left balancedStep (firstn (e - S o) (skipn (S o) text)) (1, None, false)) c);
    [|exact Hze].
  destruct (Nat.eq_dec e (S o)) as [->|Hne].
  - rewrite Nat.sub_diag. discriminate.
  - specialize (Hmin (e - 1) ltac:(lia)). rewrite balancedDepth_firstn in Hmin.
    replace (e - 1 - o) with (e - S o) in Hmin by lia. exact Hmin.
Qed.

(** C6: [extractBalancedContent text o] succeeds exactly when [text[o]] is
    an opening parenthesis and, reading on from [o + 1], the depth counter
    (raised by [(] and lowered by [)] outside quoted regions, with a
    backslash escaping the next character) reaches zero at some position [e];
    the result is then the text strictly between [o] and the first such [e],
    with [endIndex = e], and [text[e]] is a closing parenthesis.  On the
    spec's examples it yields [foo(bar)] for [(foo(bar))] and nothing for
    [(unbalanced]; parentheses inside quotes or after a backslash are not
    counted. *)
Theorem extractBalancedContent_spec (text : jstr) (openParenIndex : nat) :
  (forall bc, extractBalancedContent text openParenIndex = Some bc <->
     nth_error text openParenIndex = Some "("%char /\
     exists e, openParenIndex < e < length text /\
       balancedDepth text openParenIndex e = 0 /\
       (forall k, openParenIndex < k < e -> balancedDepth text openParenIndex k <> 0) /\
       bc = {| content := js_slice text (S openParenIndex) e; endIndex := e |}) /\
  (forall bc, extractBalancedContent text openParenIndex = Some bc ->
     nth_error text (endIndex bc) = Some ")"%char) /\
  option_map content (extractBalancedContent (js "(foo(bar))") 0) = Some (js "foo(bar)") /\
  extractBalancedContent (js "(unbalanced") 0 = None /\
  option_map content (extractBalancedContent (js "(a ')' b) c)") 0) = Some (js "a ')' b") /\
  option_map content (extractBalancedContent (js "(a \) b) c)") 0) = Some (js "a \) b").
Proof.
  split; [intros bc; apply extractBalancedContent_iff|].
  split; [intros bc; apply extractBalancedContent_close|].
  repeat split; reflexivity.
Qed.

(** ** The string scan *)

Lemma stringBody_spec (q : ascii) (s : jstr) (n : nat) :
  stringBody q s = Some n -> nth_error s n = Some q /\ validBody q (firstn n s) = true.
Proof.
  assert (H : forall m s n, length s <= m -> stringBody q s = Some n ->
                nth_error s n = Some q /\ validBody q (firstn n s) = true).
  { induction m as [|m IH]; intros s0 n0 Hl Hb.
    - destruct s0; [discriminate|simpl in Hl; lia].
    - destruct s0 as [|c s']; [discriminate|]. simpl in Hb, Hl.
      destruct (Ascii.eqb c q) eqn:Ecq.
      + inversion Hb; subst. apply Ascii.eqb_eq in Ecq; subst. split; reflexivity.
      + destruct (Ascii.eqb c backslash) eqn:Ecb.
        * destruct s' as [|d s'']; [discriminate|].
          destruct (is_line_terminator d) eqn:Ed; [discriminate|].
          destruct (stringBody q s'') as [k|] eqn:Ek; [|discriminate]. inversion Hb; subst.
          destruct (IH s'' k ltac:(simpl in Hl; lia) Ek) as [H1 H2].
          split; [exact H1|]. cbn [firstn validBody]. rewrite Ecq, Ecb, Ed, H2. reflexivity.
        * destruct (stringBody q s') as [k|] eqn:Ek; [|discriminate]. inversion Hb; subst.
          destruct (IH s' k ltac:(lia) Ek) as [H1 H2].
          split; [exact H1|]. cbn [firstn validBody]. rewrite Ecq, Ecb, H2. reflexivity. }
  intros Hb. apply (H (length s) s n (le_n _) Hb).
Qed.

Lemma stringBody_valid (q : ascii) (body r : jstr) :
  validBody q body = true -> stringBody q (body ++ q :: r) = Some (length body).
Proof.
  assert (H : forall m body, length body <= m -> validBody q body = true ->
                stringBody q (body ++ q :: r) = Some (length body)).
  { induction m as [|m IH]; intros b Hl Hv.
    - destruct b; [simpl; rewrite Ascii.eqb_refl; reflexivity|simpl in Hl; lia].
    - destruct b as [|c b']; [simpl; rewrite Ascii.eqb_refl; reflexivity|].
      simpl in Hv, Hl. cbn [app stringBody].
      destruct (Ascii.eqb c q); [discriminate|].
      destruct (Ascii.eqb c backslash).
      + destruct b' as [|d b'']; [discriminate|].
        apply andb_true_iff in Hv as [Hd Hv]. cbn [app].
        destruct (is_line_terminator d); [discriminate|].
        rewrite (IH b'' ltac:(simpl in Hl; lia) Hv). reflexivity.
      + rewrite (IH b' ltac:(lia) Hv). reflexivity. }
  intros Hv. apply (H (length body) body (le_n _) Hv).
Qed.

Lemma stringScan_skip (l r : jstr) (i : nat) :
  stringScan (l ++ r) i (length l) = stringScan r (i + length l) 0.
Proof.
  revert i; induction l as [|c l IH]; intros i.
  - rewrite Nat.add_0_r. reflexivity.
  - cbn [app List.length stringScan]. cbn [Nat.ltb Nat.leb pred].
    rewrite IH. f_equal. lia.
Qed.

(** Every literal the scan reports sits in the scanned text: an opening
    quote at [k], the body, and the same quote after it. *)
Lemma stringScan_sound (s : jstr) (i skip : nat) (sm : StringMatch) :
  In sm (stringScan s i skip) ->
  exists k q, start sm = i + S k /\ is_quote q = true /\
    nth_error s k = Some q /\
    firstn (length (value sm)) (skipn (S k) s) = value sm /\
    nth_error s (S k + length (value sm)) = Some q /\
    validBody q (value sm) = true /\
    str_fullMatch sm = [q] ++ value sm ++ [q].
Proof.
  revert i skip; induction s as [|c s IH]; intros i skip Hin; [contradiction|].
  assert (Hshift : In sm (stringScan s (S i) 0) \/ In sm (stringScan s (S i) (pred skip)) \/
                   (exists n, sm = {| value := firstn n s; start := S i;
                                      str_fullMatch := [c] ++ firstn n s ++ [c] |} /\
                              is_quote c = true /\ stringBody c s = Some n) \/
                   (exists n, In sm (stringScan s (S i) (S n)))).
  { cbn [stringScan] in Hin.
    destruct (Nat.ltb 0 skip); [right; left; exact Hin|].
    destruct (is_quote c) eqn:Eq; [|left; exact Hin].
    destruct (stringBody c s) as [n|] eqn:Eb; [|left; exact Hin].
    destruct Hin as [<-|Hin]; [right; right; left; exists n; auto|right; right; right; exists n; exact Hin]. }
  destruct Hshift as [H|[H|[[n [-> [Hq Hb]]]|[n H]]]];
    try (destruct (IH _ _ H) as [k [q [Hs Hrest]]];
         exists (S k), q; split; [rewrite Hs; lia|exact Hrest]).
  destruct (stringBody_spec c s n Hb) as [Hn Hv].
  assert (Hlen : length (firstn n s) = n).
  { rewrite length_firstn. assert (n < length s) by (apply nth_error_Some; congruence). lia. }
  exists 0, c. cbn [value start str_fullMatch]. rewrite Hlen.
  split; [lia|]. split; [exact Hq|]. split; [reflexivity|]. split; [reflexivity|].
  split; [exact Hn|]. split; [exact Hv|reflexivity].
Qed.

Lemma stringScan_pieces (ps : list ArgPiece) (i : nat) :
  forallb validPiece ps = true ->
  map (fun sm => (value sm, start sm)) (stringScan (flat_map renderPiece ps) i 0) = literalsAt ps i.
Proof.
  revert i; induction ps as [|[c|q b] ps IH]; intros i Hv; [reflexivity| |].
  - simpl in Hv. apply andb_true_iff in Hv as [Hc Hv]. apply negb_true_iff in Hc.
    cbn [flat_map renderPiece app stringScan Nat.ltb Nat.leb]. rewrite Hc. apply IH, Hv.
  - simpl in Hv. apply andb_true_iff in Hv as [Hq Hv]. apply andb_true_iff in Hq as [Hq Hb].
    change (flat_map renderPiece (Literal q b :: ps))
      with (([q] ++ b ++ [q]) ++ flat_map renderPiece ps).
    rewrite <- !app_assoc. cbn [app stringScan Nat.ltb Nat.leb]. rewrite Hq.
    rewrite (stringBody_valid q b _ Hb). rewrite firstn_app_length.
    cbn [map value start]. f_equal.
    replace (b ++ q :: flat_map renderPiece ps) with ((b ++ [q]) ++ flat_map renderPiece ps)
      by (rewrite <- app_assoc; reflexivity).
    replace (S (length b)) with (length (b ++ [q])) by (rewrite length_app; simpl; lia).
    rewrite stringScan_skip, IH by exact Hv. rewrite length_app. simpl. do 2 f_equal. lia.
Qed.

(** ** The call scan *)

Lemma ws_paren_pos (s : jstr) (k : nat) : ws_paren s = Some k -> 1 <= k.
Proof.
  revert k; induction s as [|c s IH]; intros k H; simpl in H; [discriminate|].
  destruct (Ascii.eqb c "("%char); [inversion H; lia|].
  destruct (is_js_space c); [|discriminate].
  destruct (ws_paren s); [inversion H; lia|discriminate].
Qed.

Lemma functionStartAt_pos (names : list jstr) (s : jstr) (len : nat) :
  functionStartAt names s = Some len -> 1 <= len.
Proof.
  induction names as [|n ns IH]; simpl; [discriminate|].
  destruct (js_startsWith s n); [|exact IH].
  destruct (ws_paren (skipn (length n) s)) eqn:E; [|exact IH].
  intros H; inversion H; subst. apply ws_paren_pos in E. lia.
Qed.

Lemma functionStarts_go_props (names : list jstr) (s : jstr) (pos skip p L : nat) :
  In (p, L) (functionStarts_go names s pos skip) -> pos <= p /\ 1 <= L.
Proof.
  revert pos skip; induction s as [|c s IH]; intros pos skip H; [contradiction|].
  cbn [functionStarts_go] in H.
  destruct (Nat.ltb 0 skip); [apply IH in H; lia|].
  destruct (functionStartAt names (c :: s)) as [len|] eqn:E; [|apply IH in H; lia].
  destruct H as [H|H]; [inversion H; subst; split; [lia|exact (functionStartAt_pos _ _ _ E)]|].
  apply IH in H; lia.
Qed.

Lemma functionStarts_go_unique (names : list jstr) (s : jstr) (pos skip p L L' : nat) :
  In (p, L) (functionStarts_go names s pos skip) ->
  In (p, L') (functionStarts_go names s pos skip) -> L = L'.
Proof.
  revert pos skip; induction s as [|c s IH]; intros pos skip H H'; [contradiction|].
  cbn [functionStarts_go] in H, H'.
  destruct (Nat.ltb 0 skip); [eapply IH; eassumption|].
  destruct (functionStartAt names (c :: s)) as [len|]; [|eapply IH; eassumption].
  destruct H as [H|H], H' as [H'|H'].
  - inversion H; inversion H'; congruence.
  - inversion H; subst. apply functionStarts_go_props in H'. lia.
  - inversion H'; subst. apply functionStarts_go_props in H. lia.
  - eapply IH; eassumption.
Qed.

Lemma functionStarts_nil (text : jstr) : functionStarts [] text = [].
Proof.
  unfold functionStarts. assert (G : forall pos skip, functionStarts_go [] text pos skip = []);
    [|apply G].
  induction text as [|c text IH]; intros pos skip; [reflexivity|].
  cbn [functionStarts_go functionStartAt]. destruct (Nat.ltb 0 skip); apply IH.
Qed.

Lemma in_omap {A B} (f : A -> option B) (l : list A) (y : B) :
  In y (omap f l) <-> exists x, In x l /\ f x = Some y.
Proof.
  induction l as [|x l IH]; simpl; [split; [intros []|intros [? [[] _]]]|].
  destruct (f x) as [z|] eqn:E; simpl; rewrite IH; split.
  - intros [<-|[x' [Hx' Hf]]]; [exists x; auto|exists x'; auto].
  - intros [x' [[<-|Hx'] Hf]]; [left; congruence|right; exists x'; auto].
  - intros [x' [Hx' Hf]]; exists x'; auto.
  - intros [x' [[<-|Hx'] Hf]]; [congruence|exists x'; auto].
Qed.

(** ** Offsets into slices *)

Lemma nth_error_firstn_lt {A} (l : list A) (n k : nat) (x : A) :
  nth_error (firstn n l) k = Some x -> k < n /\ nth_error l k = Some x.
Proof.
  revert n k; induction l as [|y l IH]; intros n k H; [rewrite firstn_nil in H; destruct k; discriminate|].
  destruct n as [|n]; [destruct k; discriminate|].
  destruct k as [|k]; simpl in H; [inversion H; split; [lia|reflexivity]|].
  apply IH in H as [H1 H2]. split; [lia|exact H2].
Qed.

Lemma slice_nth (text : jstr) (b e k : nat) (x : ascii) :
  nth_error (js_slice text b e) k = Some x -> b + k < e /\ nth_error text (b + k) = Some x.
Proof.
  unfold js_slice. intros H. apply nth_error_firstn_lt in H as [H1 H2].
  rewrite nth_error_skipn in H2. split; [lia|exact H2].
Qed.

Lemma slice_sub (text : jstr) (b e a n : nat) :
  a + n <= length (js_slice text b e) ->
  firstn n (skipn a (js_slice text b e)) = firstn n (skipn (b + a) text).
Proof.
  unfold js_slice. intros H. rewrite length_firstn, length_skipn in H.
  rewrite skipn_firstn_comm, skipn_skipn, firstn_firstn.
  replace (Nat.min n (e - b - a)) with n by lia. rewrite Nat.add_comm. reflexivity.
Qed.

Lemma js_slice_len (text : jstr) (a n : nat) : js_slice text a (a + n) = firstn n (skipn a text).
Proof. unfold js_slice. replace (a + n - a) with n by lia. reflexivity. Qed.

Lemma positionAt_in (text : jstr) (o : nat) : o <= length text -> positionAt text o = o.
Proof. unfold positionAt. lia. Qed.

(** Every span of [findClassFunctionMatches]: its call, the balanced
    argument list of the call, and the quoted literal inside it. *)
Lemma functionMatches_sound (text : jstr) (names : list jstr) (m : ClassMatch) :
  In m (findClassFunctionMatches text names) ->
  exists p L bc q,
    In (p, L) (functionStarts names text) /\
    extractBalancedContent text (p + L - 1) = Some bc /\
    startOffset m = p /\
    js_trim_empty (classString m) = false /\
    is_quote q = true /\
    p + L < classStartOffset m /\
    nth_error text (classStartOffset m - 1) = Some q /\
    js_slice text (classStartOffset m) (classStartOffset m + length (classString m)) = classString m /\
    nth_error text (classStartOffset m + length (classString m)) = Some q /\
    classStartOffset m + length (classString m) < endIndex bc /\
    endIndex bc < length text /\
    validBody q (classString m) = true /\
    fullMatch m = [q] ++ classString m ++ [q] /\
    range m = {| rangeStart := classStartOffset m;
                 rangeEnd := classStartOffset m + length (classString m) |}.
Proof.
  unfold findClassFunctionMatches. destruct names as [|n ns]; [intros []|].
  intros Hin. apply in_flat_map in Hin as [[p L] [HpL Hin]].
  destruct (extractBalancedContent text (p + L - 1)) as [bc|] eqn:Ebc; [|contradiction].
  apply in_omap in Hin as [sm [Hsm Hf]].
  unfold functionMatch in Hf. destruct (js_trim_empty (value sm)) eqn:Et; [discriminate|].
  inversion Hf; subst m; clear Hf. cbn [startOffset classString classStartOffset fullMatch range].
  destruct (functionStarts_go_props _ _ _ _ _ _ HpL) as [_ HL].
  pose proof Ebc as Ebc'.
  apply extractBalancedContent_iff in Ebc' as [Hop [e [He [_ [_ ->]]]]].
  replace (S (p + L - 1)) with (p + L) by lia. replace (S (p + L - 1)) with (p + L) in Hsm by lia.
  unfold extractStringsFromContent in Hsm.
  destruct (stringScan_sound _ _ _ _ Hsm) as [k [q [Hs [Hq [Ho [Hv [Hc [Hvb Hfm]]]]]]]].
  rewrite Hs. cbn [endIndex content] in *.
  assert (Hlen : S k + length (value sm) < length (js_slice text (p + L) e)).
  { apply nth_error_Some. rewrite Hc. discriminate. }
  apply slice_nth in Ho as [Ho1 Ho2]. apply slice_nth in Hc as [Hc1 Hc2].
  exists p, L, {| content := js_slice text (p + L) e; endIndex := e |}, q.
  split; [exact HpL|]. split; [replace (S (p + L - 1)) with (p + L) in Ebc by lia; exact Ebc|].
  split; [reflexivity|]. split; [exact Et|]. split; [exact Hq|]. split; [lia|].
  split; [replace (p + L + (0 + S k) - 1) with (p + L + k) by lia; exact Ho2|].
  split.
  { rewrite js_slice_len. rewrite slice_sub in Hv by lia.
    replace (p + L + (0 + S k)) with (p + L + S k) by lia. exact Hv. }
  split; [replace (p + L + (0 + S k) + length (value sm)) with (p + L + (S k + length (value sm))) by lia;
          exact Hc2|].
  split; [cbn [endIndex]; lia|]. split; [cbn [endIndex]; lia|].
  split; [exact Hvb|]. split; [exact Hfm|].
  rewrite !positionAt_in by lia. reflexivity.
Qed.

(** C5: the call-argument extractor.  An occurrence of a call is a match
    [(p, L)] of [(?:name1|...)\s*\(] (the [functionStartRegex] of the source).
    (a) every result is a non-blank literal, delimited by a quote [q] on both
    sides and with an escape-aware body, lying strictly inside the balanced
    argument list of an occurrence, with its absolute offset; (b) every
    non-blank literal the string scan finds in the balanced argument list of
    an occurrence is a result, at the absolute offset [p + L + start];
    (c) an occurrence whose parentheses do not rebalance before the end of
    the text gives no result; (d) in an argument list made of literals and
    other non-quote characters the scan finds exactly those literals, whatever
    the surrounding syntax (arrays, nested calls, guards); (e) no names, no
    results; and the examples of the spec, and one with an array, a ternary
    and a nested call. *)
Theorem findClassFunctionMatches_spec (text : jstr) (functionNames : list jstr) :
  (forall m, In m (findClassFunctionMatches text functionNames) ->
     exists p L bc q,
       In (p, L) (functionStarts functionNames text) /\
       extractBalancedContent text (p + L - 1) = Some bc /\
       startOffset m = p /\
       js_trim_empty (classString m) = false /\
       is_quote q = true /\
       p + L < classStartOffset m /\
       nth_error text (classStartOffset m - 1) = Some q /\
       js_slice text (classStartOffset m) (classStartOffset m + length (classString m)) = classString m /\
       nth_error text (classStartOffset m + length (classString m)) = Some q /\
       classStartOffset m + length (classString m) < endIndex bc /\
       validBody q (classString m) = true) /\
  (forall p L bc sm,
     In (p, L) (functionStarts functionNames text) ->
     extractBalancedContent text (p + L - 1) = Some bc ->
     In sm (extractStringsFromContent (content bc)) ->
     js_trim_empty (value sm) = false ->
     exists m, In m (findClassFunctionMatches text functionNames) /\
       startOffset m = p /\ classString m = value sm /\ classStartOffset m = p + L + start sm) /\
  (forall p L,
     In (p, L) (functionStarts functionNames text) ->
     extractBalancedContent text (p + L - 1) = None ->
     forall m, In m (findClassFunctionMatches text functionNames) -> startOffset m <> p) /\
  (forall ps, forallb validPiece ps = true ->
     map (fun sm => (value sm, start sm)) (extractStringsFromContent (flat_map renderPiece ps))
     = literalsAt ps 0) /\
  (functionNames = [] -> findClassFunctionMatches text functionNames = []) /\
  extractCallArguments (js_dq "cn('')") [js "cn"] = [] /\
  extractCallArguments (js_dq "cn('flex items-center', isActive && 'bg-blue-500')") [js "cn"]
    = [js "flex items-center"; js "bg-blue-500"] /\
  extractCallArguments (js "cn(['p-4', ok ? 'flex' : 'grid'], f('m-2', '  '))") [js "cn"]
    = [js "p-4"; js "flex"; js "grid"; js "m-2"].
Proof.
  split; [|split; [|split; [|split; [|split; [|split; [reflexivity|split; reflexivity]]]]]].
  - intros m Hm.
    destruct (functionMatches_sound _ _ _ Hm)
      as [p [L [bc [q [H1 [H2 [H3 [H4 [H5 [H6 [H7 [H8 [H9 [H10 [_ [H11 _]]]]]]]]]]]]]]]].
    exists p, L, bc, q. repeat split; assumption.
  - intros p L bc sm HpL Ebc Hsm Et.
    destruct functionNames as [|n ns]; [rewrite functionStarts_nil in HpL; contradiction|].
    destruct (functionMatch text p (p + L) sm) as [m|] eqn:Ef;
      [|unfold functionMatch in Ef; rewrite Et in Ef; discriminate].
    exists m. split.
    + unfold findClassFunctionMatches. apply in_flat_map. exists (p, L). split; [exact HpL|].
      rewrite Ebc. apply in_omap. exists sm. split; assumption.
    + unfold functionMatch in Ef. rewrite Et in Ef. inversion Ef. repeat split.
  - intros p L HpL Hnone m Hm Hp.
    destruct (functionMatches_sound _ _ _ Hm) as [p' [L' [bc [q [H1 [H2 [H3 _]]]]]]].
    rewrite Hp in H3. subst p'.
    unfold functionStarts in HpL, H1.
    rewrite (functionStarts_go_unique _ _ _ _ _ _ _ HpL H1) in Hnone. congruence.
  - intros ps Hv. unfold extractStringsFromContent. apply stringScan_pieces, Hv.
  - intros ->. reflexivity.
Qed.

(** ** Spans of the pattern rules *)

Lemma js_startsWith_firstn (s pre : jstr) :
  js_startsWith s pre = true -> firstn (length pre) s = pre.
Proof.
  revert s; induction pre as [|p pre IH]; intros s H; [reflexivity|].
  destruct s as [|c s]; simpl in H; [discriminate|].
  apply andb_true_iff in H as [H1 H2]. apply Ascii.eqb_eq in H1. subst c.
  simpl. f_equal. apply IH, H2.
Qed.

Lemma js_indexOf_from_spec (s sub : jstr) (k r : nat) :
  js_indexOf_from s sub k = Some r -> k <= r /\ firstn (length sub) (skipn (r - k) s) = sub.
Proof.
  revert k; induction s as [|c s IH]; intros k H.
  - destruct sub as [|a sub]; inversion H; subst. rewrite Nat.sub_diag. split; [lia|reflexivity].
  - cbn [js_indexOf_from] in H. destruct (js_startsWith (c :: s) sub) eqn:E.
    + inversion H; subst. rewrite Nat.sub_diag. split; [lia|apply js_startsWith_firstn, E].
    + apply IH in H as [H1 H2]. split; [lia|].
      replace (r - k) with (S (r - S k)) by lia. exact H2.
Qed.

Lemma firstn_length_le {A} (n : nat) (l x : list A) : firstn n l = x -> length x = n -> n <= length l.
Proof. intros <- Hx. rewrite length_firstn in Hx. lia. Qed.

Lemma trim_empty_nonnil (s : jstr) : js_trim_empty s = false -> 1 <= length s.
Proof. destruct s; [discriminate|simpl; lia]. Qed.

Lemma patternMatch_span (text : jstr) (cg : nat) (r : RegExpExecArray) (m : ClassMatch) :
  execConsistent text r -> patternMatch text cg r = Some m -> span_invariant text m.
Proof.
  unfold execConsistent, patternMatch.
  remember (match match_item r 0 with Some s => s | None => [] end) as m0 eqn:Em0. clear Em0.
  intros HE Hp.
  destruct (match_item r cg) as [cs|]; [|discriminate].
  destruct (js_trim_empty cs) eqn:Et; [discriminate|].
  destruct (js_indexOf m0 cs) as [c|] eqn:Ei; [|discriminate].
  inversion Hp; subst m; clear Hp. unfold span_invariant; cbn [range rangeStart rangeEnd classStartOffset classString].
  apply js_indexOf_from_spec in Ei as [_ Hi]. rewrite Nat.sub_0_r in Hi.
  apply trim_empty_nonnil in Et.
  pose proof (firstn_length_le _ _ _ Hi eq_refl) as Hl1. rewrite length_skipn in Hl1.
  pose proof (firstn_length_le _ _ _ HE eq_refl) as Hl2. rewrite length_skipn in Hl2.
  rewrite !positionAt_in by lia.
  split; [reflexivity|]. split; [reflexivity|]. split; [lia|].
  rewrite js_slice_len. rewrite <- HE in Hi.
  rewrite skipn_firstn_comm, firstn_firstn, skipn_skipn in Hi.
  replace (Nat.min (length cs) (length m0 - c)) with (length cs) in Hi by lia.
  rewrite Nat.add_comm. exact Hi.
Qed.

Lemma findMatchesForPattern_span (text : jstr) (pattern : PatternConfig) (m : ClassMatch) :
  (forall r, In r (regex pattern text) -> execConsistent text r) ->
  In m (findMatchesForPattern text pattern) -> span_invariant text m.
Proof.
  intros Hr Hm. unfold findMatchesForPattern in Hm. apply in_omap in Hm as [r [Hin Hp]].
  exact (patternMatch_span _ _ _ _ (Hr r Hin) Hp).
Qed.

Lemma functionMatch_span (text : jstr) (names : list jstr) (m : ClassMatch) :
  In m (findClassFunctionMatches text names) -> span_invariant text m.
Proof.
  intros Hm.
  destruct (functionMatches_sound _ _ _ Hm)
    as [p [L [bc [q [_ [_ [_ [_ [_ [_ [_ [Hs [_ [Hlt [Hend [_ [_ Hr]]]]]]]]]]]]]]]]].
  unfold span_invariant. rewrite Hr. cbn [rangeStart rangeEnd].
  split; [reflexivity|]. split; [reflexivity|]. split; [lia|exact Hs].
Qed.

Lemma deduplicate_go_incl (seen : list (nat * nat)) (l : list ClassMatch) (m : ClassMatch) :
  In m (deduplicate_go seen l) -> In m l.
Proof.
  revert seen; induction l as [|x l IH]; intros seen H; simpl in H; [contradiction|].
  destruct (existsb (key_eqb (matchKey x)) seen).
  - right. eapply IH; exact H.
  - destruct H as [<-|H]; [left; reflexivity|right; eapply IH; exact H].
Qed.

Lemma findClassMatches_incl (text : jstr) (languageConfig : LanguageConfig)
  (classFunctions : list jstr) (m : ClassMatch) :
  In m (findClassMatches text languageConfig classFunctions) ->
  In m (flat_map (findMatchesForPattern text) (patterns languageConfig)
        ++ findClassFunctionMatches text classFunctions).
Proof.
  unfold findClassMatches, deduplicateMatches. intros H.
  apply deduplicate_go_incl in H. eapply Permutation_in; [apply js_sort_perm|exact H].
Qed.

(** C10: every span of either extractor, and so every span of
    [findClassMatches], satisfies the span invariant: its range runs from
    [classStartOffset] to [classEndOffset = classStartOffset +
    classString.length], both in [[0, text.length]], and the document holds
    the class string there.  The pattern rules are trusted only for what
    [exec] guarantees: [match[0]] occurs in the text at [match.index]. *)
Theorem spans_within_document (text : jstr) (languageConfig : LanguageConfig)
  (classFunctions : list jstr)
  (Hexec : forall pattern r, In pattern (patterns languageConfig) ->
             In r (regex pattern text) -> execConsistent text r) :
  (forall pattern m, In pattern (patterns languageConfig) ->
     In m (findMatchesForPattern text pattern) -> span_invariant text m) /\
  (forall m, In m (findClassFunctionMatches text classFunctions) -> span_invariant text m) /\
  (forall m, In m (findClassMatches text languageConfig classFunctions) -> span_invariant text m).
Proof.
  assert (Hpat : forall pattern m, In pattern (patterns languageConfig) ->
            In m (findMatchesForPattern text pattern) -> span_invariant text m).
  { intros pattern m Hp Hm. apply (findMatchesForPattern_span text pattern); [|exact Hm].
    intros r Hr. exact (Hexec pattern r Hp Hr). }
  split; [exact Hpat|]. split; [apply functionMatch_span|].
  intros m Hm. apply findClassMatches_incl, in_app_or in Hm as [Hm|Hm].
  - apply in_flat_map in Hm as [pattern [Hp Hm]]. exact (Hpat pattern m Hp Hm).
  - exact (functionMatch_span _ _ _ Hm).
Qed.

Lemma spans_within_document_witness :
  (forall pattern r, In pattern (patterns rubyConfig) ->
     In r (regex pattern (js "merge(class: 'p-4 flex')")) ->
     execConsistent (js "merge(class: 'p-4 flex')") r) /\
  findClassMatches (js "merge(class: 'p-4 flex')") rubyConfig DEFAULT_CLASS_FUNCTIONS <> [] /\
  (forall m, In m (findClassMatches (js "merge(class: 'p-4 flex')") rubyConfig DEFAULT_CLASS_FUNCTIONS) ->
     span_invariant (js "merge(class: 'p-4 flex')") m).
Proof.
  assert (H : forall pattern r, In pattern (patterns rubyConfig) ->
     In r (regex pattern (js "merge(class: 'p-4 flex')")) ->
     execConsistent (js "merge(class: 'p-4 flex')") r).
  { intros pattern r Hp Hr. destruct Hp as [<-|[]].
    destruct Hr as [<-|[]]. reflexivity. }
  split; [exact H|]. split; [vm_compute; discriminate|].
  exact (proj2 (proj2 (spans_within_document _ rubyConfig DEFAULT_CLASS_FUNCTIONS H))).
Defined.

(** ** Merging, sorting and deduplicating the spans *)

Lemma key_eqb_iff (a b : nat * nat) : key_eqb a b = true <-> a = b.
Proof.
  destruct a as [a1 a2], b as [b1 b2]. unfold key_eqb. simpl.
  rewrite andb_true_iff, !Nat.eqb_eq. split; [intros [-> ->]; reflexivity|intros H; inversion H; auto].
Qed.

Lemma existsb_key_iff (k : nat * nat) (seen : list (nat * nat)) :
  existsb (key_eqb k) seen = true <-> In k seen.
Proof.
  rewrite existsb_exists. split.
  - intros [y [Hy Hk]]. apply key_eqb_iff in Hk. subst; exact Hy.
  - intros Hk. exists k. split; [exact Hk|apply key_eqb_iff; reflexivity].
Qed.

Lemma deduplicate_go_sorted (R : ClassMatch -> ClassMatch -> Prop) (seen : list (nat * nat))
  (l : list ClassMatch) :
  ForallOrdPairs R l -> ForallOrdPairs R (deduplicate_go seen l).
Proof.
  intros H; revert seen; induction H as [|x l Hx Hl IH]; intros seen; simpl; [constructor|].
  destruct (existsb (key_eqb (matchKey x)) seen); [apply IH|].
  constructor; [|apply IH].
  rewrite Forall_forall in *. intros y Hy. apply Hx. eapply deduplicate_go_incl; exact Hy.
Qed.

Lemma deduplicate_go_fresh (seen : list (nat * nat)) (l : list ClassMatch) :
  (forall m, In m (deduplicate_go seen l) -> ~ In (matchKey m) seen) /\
  NoDup (map matchKey (deduplicate_go seen l)).
Proof.
  revert seen; induction l as [|x l IH]; intros seen; simpl; [split; [intros _ []|constructor]|].
  destruct (existsb (key_eqb (matchKey x)) seen) eqn:E; [apply IH|].
  destruct (IH (matchKey x :: seen)) as [H1 H2]. split.
  - intros m [<-|Hm].
    + intros Hin. apply existsb_key_iff in Hin. congruence.
    + intros Hin. apply (H1 m Hm). right; exact Hin.
  - simpl. constructor; [|exact H2].
    intros Hin. apply in_map_iff in Hin as [m [Hk Hm]].
    apply (H1 m Hm). left; symmetry; exact Hk.
Qed.

(** A kept span is the first span of its key in the input. *)
Lemma deduplicate_go_first (seen : list (nat * nat)) (l : list ClassMatch) (m : ClassMatch) :
  In m (deduplicate_go seen l) ->
  exists l1 l2, l = l1 ++ m :: l2 /\ ~ In (matchKey m) seen /\
    Forall (fun y => matchKey y <> matchKey m) l1.
Proof.
  revert seen; induction l as [|x l IH]; intros seen H; simpl in H; [contradiction|].
  destruct (existsb (key_eqb (matchKey x)) seen) eqn:E.
  - destruct (IH _ H) as [l1 [l2 [-> [Hs Hf]]]].
    exists (x :: l1), l2. split; [reflexivity|]. split; [exact Hs|].
    constructor; [|exact Hf]. intros Hk. apply existsb_key_iff in E. rewrite Hk in E. contradiction.
  - destruct H as [<-|H].
    + exists [], l. split; [reflexivity|]. split; [|constructor].
      intros Hin. apply existsb_key_iff in Hin. congruence.
    + destruct (IH _ H) as [l1 [l2 [-> [Hs Hf]]]].
      exists (x :: l1), l2. split; [reflexivity|].
      split; [intros Hin; apply Hs; right; exact Hin|].
      constructor; [|exact Hf]. intros Hk. apply Hs. left; exact Hk.
Qed.

(** Every key not yet seen is represented in the output. *)
Lemma deduplicate_go_complete (seen : list (nat * nat)) (l : list ClassMatch) (x : ClassMatch) :
  In x l -> ~ In (matchKey x) seen ->
  exists m, In m (deduplicate_go seen l) /\ matchKey m = matchKey x.
Proof.
  revert seen; induction l as [|y l IH]; intros seen Hx Hs; [contradiction|]. simpl.
  destruct (existsb (key_eqb (matchKey y)) seen) eqn:E.
  - destruct Hx as [<-|Hx]; [apply existsb_key_iff in E; contradiction|].
    apply (IH seen Hx Hs).
  - destruct (key_eqb (matchKey y) (matchKey x)) eqn:Hk.
    + apply key_eqb_iff in Hk. exists y. split; [left; reflexivity|exact Hk].
    + assert (Hne : matchKey y <> matchKey x) by (intros Heq; rewrite Heq in Hk;
        rewrite (proj2 (key_eqb_iff _ _) eq_refl) in Hk; discriminate).
      destruct Hx as [<-|Hx]; [contradiction|].
      destruct (IH (matchKey y :: seen) Hx) as [m [Hm Hmk]];
        [intros [H|H]; [congruence|contradiction]|].
      exists m. split; [right; exact Hm|exact Hmk].
Qed.

Lemma compareStart_lt_iff (x y : ClassMatch) :
  (compareStart x y < 0)%Z <-> ~ startOffset y <= startOffset x.
Proof. unfold compareStart. lia. Qed.

Lemma le_start_trans (x y z : ClassMatch) :
  startOffset x <= startOffset y -> startOffset y <= startOffset z -> startOffset x <= startOffset z.
Proof. lia. Qed.

Lemma le_start_total (x y : ClassMatch) : startOffset x <= startOffset y \/ startOffset y <= startOffset x.
Proof. lia. Qed.

Lemma le_start_dec (x y : ClassMatch) :
  {startOffset x <= startOffset y} + {~ startOffset x <= startOffset y}.
Proof. apply le_dec. Qed.

Lemma findClassMatches_sorted_input (l : list ClassMatch) :
  ForallOrdPairs (fun a b => startOffset a <= startOffset b) (js_sort compareStart l).
Proof.
  apply (js_sort_sorted compareStart (fun a b => startOffset a <= startOffset b)
           compareStart_lt_iff le_start_trans le_start_total le_start_dec).
Qed.

Lemma ForallOrdPairs_after {A} (R : A -> A -> Prop) (l1 l2 : list A) (m x : A) :
  ForallOrdPairs R (l1 ++ m :: l2) -> In x l2 -> R m x.
Proof.
  intros H Hx. apply ForallOrdPairs_app_inv with (l1 := l1 ++ [m]) (l2 := l2);
    [rewrite <- app_assoc; exact H|apply in_or_app; right; left; reflexivity|exact Hx].
Qed.

Lemma filter_key_none (k : nat * nat) (s : nat) (l1 : list ClassMatch) :
  Forall (fun y => matchKey y <> k) l1 ->
  filter (fun x => key_eqb (matchKey x) k && Nat.eqb (startOffset x) s) l1 = [].
Proof.
  induction 1 as [|y l1 Hy Hl IH]; simpl; [reflexivity|].
  destruct (key_eqb (matchKey y) k) eqn:E; [apply key_eqb_iff in E; contradiction|exact IH].
Qed.

Lemma deduplicate_go_before (seen : list (nat * nat)) (l : list ClassMatch) l1 l2 l3 a b :
  deduplicate_go seen l = l1 ++ a :: l2 ++ b :: l3 ->
  exists k1 k2 k3, l = k1 ++ a :: k2 ++ b :: k3.
Proof.
  revert seen l1; induction l as [|x l IH]; intros seen l1 H; simpl in H.
  - destruct l1; discriminate.
  - destruct (existsb (key_eqb (matchKey x)) seen).
    + destruct (IH _ _ H) as [k1 [k2 [k3 ->]]]. exists (x :: k1), k2, k3. reflexivity.
    + destruct l1 as [|y l1]; simpl in H; injection H as Hx H.
      * subst x. assert (Hb : In b l).
        { apply (deduplicate_go_incl (matchKey a :: seen)). rewrite H.
          apply in_or_app; right; left; reflexivity. }
        destruct (in_split b l Hb) as [k2 [k3 ->]]. exists [], k2, k3. reflexivity.
      * subst y. destruct (IH _ _ H) as [k1 [k2 [k3 ->]]]. exists (x :: k1), k2, k3. reflexivity.
Qed.

Lemma filter_before {A} (q : A -> bool) (l : list A) l1 l2 l3 a b :
  filter q l = l1 ++ a :: l2 ++ b :: l3 ->
  exists k1 k2 k3, l = k1 ++ a :: k2 ++ b :: k3.
Proof.
  revert l1; induction l as [|x l IH]; intros l1 H; simpl in H.
  - destruct l1; discriminate.
  - destruct (q x).
    + destruct l1 as [|y l1]; simpl in H; injection H as Hx H.
      * subst x. assert (Hb : In b l).
        { assert (Hf : In b (filter q l)) by (rewrite H; apply in_or_app; right; left; reflexivity).
          apply filter_In in Hf. apply Hf. }
        destruct (in_split b l Hb) as [k2 [k3 ->]]. exists [], k2, k3. reflexivity.
      * subst y. destruct (IH _ H) as [k1 [k2 [k3 ->]]]. exists (x :: k1), k2, k3. reflexivity.
    + destruct (IH _ H) as [k1 [k2 [k3 ->]]]. exists (x :: k1), k2, k3. reflexivity.
Qed.

(** C4, as the code has it.  With [merged] the pattern-rule spans followed by
    the function-argument spans, [findClassMatches] returns spans that are
    (a) ordered by [startOffset] (the start of the rule's match, or the index
    of the function name; not [classStartOffset]), (b) of pairwise distinct
    [(classStartOffset, length)] keys, (c) taken from [merged]; (d) the span
    kept for a key has the least [startOffset] among the spans of [merged]
    with that key, and (e) every key of [merged] is kept; (f) among the spans
    of [merged] of its key and its [startOffset], the kept span is the first
    one of [merged] (the sort is stable, pattern-rule spans come first); and
    (g) two kept spans with the same [startOffset] come out in the order they
    have in [merged]. *)
Theorem findClassMatches_order_dedup (text : jstr) (languageConfig : LanguageConfig)
  (classFunctions : list jstr) :
  let merged := flat_map (findMatchesForPattern text) (patterns languageConfig)
                ++ findClassFunctionMatches text classFunctions in
  let out := findClassMatches text languageConfig classFunctions in
  ForallOrdPairs (fun a b => startOffset a <= startOffset b) out /\
  NoDup (map matchKey out) /\
  incl out merged /\
  (forall m x, In m out -> In x merged -> matchKey x = matchKey m -> startOffset m <= startOffset x) /\
  (forall x, In x merged -> exists m, In m out /\ matchKey m = matchKey x) /\
  (forall m, In m out ->
     hd_error (filter (fun x => key_eqb (matchKey x) (matchKey m)
                                && Nat.eqb (startOffset x) (startOffset m)) merged) = Some m) /\
  (forall l1 l2 l3 m1 m2, out = l1 ++ m1 :: l2 ++ m2 :: l3 -> startOffset m1 = startOffset m2 ->
     exists k1 k2 k3, merged = k1 ++ m1 :: k2 ++ m2 :: k3).
Proof.
  intros merged out.
  assert (Hout : out = deduplicate_go [] (js_sort compareStart merged)) by reflexivity.
  pose proof (findClassMatches_sorted_input merged) as Hsorted.
  pose proof (js_sort_perm compareStart merged) as Hperm.
  split; [rewrite Hout; apply deduplicate_go_sorted, Hsorted|].
  split; [rewrite Hout; apply deduplicate_go_fresh|].
  split; [intros m Hm; rewrite Hout in Hm; apply deduplicate_go_incl in Hm;
          eapply Permutation_in; [exact Hperm|exact Hm]|].
  split.
  { intros m x Hm Hx Hk. rewrite Hout in Hm.
    destruct (deduplicate_go_first _ _ _ Hm) as [l1 [l2 [HS [_ Hf]]]].
    assert (HxS : In x (js_sort compareStart merged))
      by (eapply Permutation_in; [symmetry; exact Hperm|exact Hx]).
    rewrite HS in HxS, Hsorted. apply in_app_or in HxS as [Hx1|[<-|Hx2]].
    - rewrite Forall_forall in Hf. exfalso. exact (Hf x Hx1 Hk).
    - lia.
    - exact (ForallOrdPairs_after _ _ _ _ _ Hsorted Hx2). }
  split.
  { intros x Hx. rewrite Hout. apply deduplicate_go_complete; [|intros []].
    eapply Permutation_in; [symmetry; exact Hperm|exact Hx]. }
  split.
  { intros m Hm. rewrite Hout in Hm.
    destruct (deduplicate_go_first _ _ _ Hm) as [l1 [l2 [HS [_ Hf]]]].
    set (P := fun x => key_eqb (matchKey x) (matchKey m) && Nat.eqb (startOffset x) (startOffset m)).
    assert (HP : forall x y, P x = true -> P y = true -> startOffset x <= startOffset y).
    { intros x y Hx Hy. unfold P in Hx, Hy.
      apply andb_true_iff in Hx as [_ Hx], Hy as [_ Hy]. apply Nat.eqb_eq in Hx, Hy. lia. }
    rewrite <- (js_sort_filter compareStart _ compareStart_lt_iff le_start_trans le_start_total
                  le_start_dec P HP merged).
    rewrite HS, filter_app. unfold P at 1. rewrite filter_key_none by exact Hf. simpl.
    unfold P. rewrite (proj2 (key_eqb_iff _ _) eq_refl), Nat.eqb_refl. reflexivity. }
  intros l1 l2 l3 m1 m2 Hsplit Heq. rewrite Hout in Hsplit.
  destruct (deduplicate_go_before _ _ _ _ _ _ _ Hsplit) as [k1 [k2 [k3 HS]]].
  set (Q := fun x => Nat.eqb (startOffset x) (startOffset m1)).
  assert (HQ : forall x y, Q x = true -> Q y = true -> startOffset x <= startOffset y).
  { intros x y Hx Hy. unfold Q in Hx, Hy. apply Nat.eqb_eq in Hx, Hy. lia. }
  pose proof (js_sort_filter compareStart _ compareStart_lt_iff le_start_trans le_start_total
                le_start_dec Q HQ merged) as HF.
  rewrite HS, filter_app in HF. cbn [filter] in HF.
  assert (Q1 : Q m1 = true) by apply Nat.eqb_refl.
  assert (Q2 : Q m2 = true) by (unfold Q; rewrite Heq; apply Nat.eqb_refl).
  rewrite Q1, filter_app in HF. cbn [filter] in HF. rewrite Q2 in HF.
  exact (filter_before Q merged _ _ _ m1 m2 (eq_sym HF)).
Qed.

(** C4 does not hold as stated: the sort key is [startOffset], not
    [classStartOffset].  In [merge(class: 'p-4 flex')] with the Ruby rule the
    pattern-rule span and the argument span of [merge] cover the same text,
    and the argument span, whose match starts earlier, is the one kept.  With
    a literal ["class: 'p-4'"] as an argument the output is not ordered by
    [classStartOffset]. *)
Lemma findClassMatches_counterexample :
  (exists pm fm,
     findMatchesForPattern (js "merge(class: 'p-4 flex')") rubyClassPattern = [pm] /\
     findClassFunctionMatches (js "merge(class: 'p-4 flex')") DEFAULT_CLASS_FUNCTIONS = [fm] /\
     matchKey pm = matchKey fm /\
     startOffset fm < startOffset pm /\
     findClassMatches (js "merge(class: 'p-4 flex')") rubyConfig DEFAULT_CLASS_FUNCTIONS = [fm]) /\
  map classStartOffset
    (findClassMatches (js "cn(" ++ [dq] ++ js "class: 'p-4'" ++ [dq] ++ js ", 'm-2')")
       rubyConfig DEFAULT_CLASS_FUNCTIONS) = [4; 20; 12].
Proof.
  split; [|vm_compute; reflexivity].
  do 2 eexists.
  split; [vm_compute; reflexivity|].
  split; [vm_compute; reflexivity|].
  split; [vm_compute; reflexivity|].
  split; [vm_compute; lia|].
  vm_compute; reflexivity.
Qed.

(** ** config.ts *)

Lemma find_app {A} (p : A -> bool) (l1 l2 : list A) :
  find p (l1 ++ l2) = match find p l1 with Some x => Some x | None => find p l2 end.
Proof. induction l1 as [|x l1 IH]; simpl; [reflexivity|]. destruct (p x); [reflexivity|exact IH]. Qed.

Lemma find_filter {A} (p q : A -> bool) (l : list A) :
  find p (filter q l) = find (fun x => q x && p x) l.
Proof.
  induction l as [|x l IH]; simpl; [reflexivity|].
  destruct (q x); simpl; [destruct (p x); [reflexivity|exact IH]|exact IH].
Qed.

Lemma find_none {A} (p : A -> bool) (l : list A) :
  find p l = None <-> forall x, In x l -> p x = false.
Proof.
  induction l as [|y l IH]; simpl; [split; [intros _ x []|reflexivity]|].
  destruct (p y) eqn:E; split.
  - discriminate.
  - intros H. rewrite (H y (or_introl eq_refl)) in E. discriminate.
  - intros H x [<-|Hx]; [exact E|apply IH; assumption].
  - intros H. apply IH. intros x Hx. apply H. right; exact Hx.
Qed.

Lemma find_some_iff {A} (p : A -> bool) (l : list A) :
  isSome (find p l) = true <-> exists x, In x l /\ p x = true.
Proof.
  destruct (find p l) eqn:E; simpl; split.
  - intros _. exists a. exact (find_some p l E).
  - intros _; reflexivity.
  - discriminate.
  - intros [x [Hx Hp]]. apply find_none with (x := x) in E; [congruence|exact Hx].
Qed.

Lemma jstr_eqb_refl (a : jstr) : jstr_eqb a a = true.
Proof. apply jstr_eqb_eq. reflexivity. Qed.

Lemma jstr_eqb_sym (a b : jstr) : jstr_eqb a b = jstr_eqb b a.
Proof.
  destruct (jstr_eqb a b) eqn:E, (jstr_eqb b a) eqn:F; try reflexivity.
  - apply jstr_eqb_eq in E. subst. rewrite jstr_eqb_refl in F. discriminate.
  - apply jstr_eqb_eq in F. subst. rewrite jstr_eqb_refl in E. discriminate.
Qed.

Lemma js_findIndex_go_some {A} (p : A -> bool) (l : list A) (j i : nat) :
  js_findIndex_go p l j = Some i ->
  exists l1 y l2, l = l1 ++ y :: l2 /\ i = j + length l1 /\ p y = true /\
    forall x, In x l1 -> p x = false.
Proof.
  revert j; induction l as [|x l IH]; intros j H; simpl in H; [discriminate|].
  destruct (p x) eqn:E.
  - inversion H; subst. exists [], x, l. repeat split; simpl; [lia|exact E|intros _ []].
  - destruct (IH _ H) as [l1 [y [l2 [-> [Hi [Hy Hl1]]]]]].
    exists (x :: l1), y, l2. repeat split; [simpl; lia|exact Hy|].
    intros z [<-|Hz]; [exact E|apply Hl1; exact Hz].
Qed.

Lemma js_findIndex_go_none {A} (p : A -> bool) (l : list A) (j : nat) :
  js_findIndex_go p l j = None -> forall x, In x l -> p x = false.
Proof.
  revert j; induction l as [|y l IH]; intros j H x Hx; [contradiction|]. simpl in H.
  destruct (p y) eqn:E; [discriminate|]. destruct Hx as [<-|Hx]; [exact E|eapply IH; eassumption].
Qed.

Lemma list_set_app {A} (l1 l2 : list A) (y x : A) :
  list_set (l1 ++ y :: l2) (length l1) x = l1 ++ x :: l2.
Proof. induction l1 as [|z l1 IH]; simpl; [reflexivity|rewrite IH; reflexivity]. Qed.

Section EffectiveLanguagesFacts.
Context {Lang : Type} (langId : Lang -> jstr).

Definition has_id (k : jstr) (lang : Lang) : bool := jstr_eqb (langId lang) k.

(** The shape of one merge: the language with the same id, if any, is
    replaced in place; otherwise the custom language is appended. *)
Lemma mergeCustomLanguage_shape (l : list Lang) (c : Lang) :
  (exists l1 y l2, l = l1 ++ y :: l2 /\ langId y = langId c /\
     (forall x, In x l1 -> langId x <> langId c) /\
     mergeCustomLanguage langId l c = l1 ++ c :: l2) \/
  ((forall x, In x l -> langId x <> langId c) /\ mergeCustomLanguage langId l c = l ++ [c]).
Proof.
  unfold mergeCustomLanguage, js_findIndex.
  destruct (js_findIndex_go _ l 0) as [i|] eqn:E.
  - left. destruct (js_findIndex_go_some _ _ _ _ E) as [l1 [y [l2 [-> [Hi [Hy Hl1]]]]]].
    exists l1, y, l2. split; [reflexivity|]. split; [apply jstr_eqb_eq; exact Hy|].
    split; [intros x Hx Heq; pose proof (Hl1 x Hx) as F; cbv beta in F; rewrite Heq, jstr_eqb_refl in F; discriminate|].
    subst i. simpl. apply list_set_app.
  - right. split; [|reflexivity].
    intros x Hx Heq. pose proof (js_findIndex_go_none _ _ _ E x Hx) as F. cbv beta in F.
    rewrite Heq, jstr_eqb_refl in F. discriminate.
Qed.

Lemma find_has_id_skip (k : jstr) (l1 l2 : list Lang) (y c : Lang) :
  langId y = langId c -> langId c <> k ->
  find (has_id k) (l1 ++ c :: l2) = find (has_id k) (l1 ++ y :: l2).
Proof.
  intros Hy Hk. rewrite !find_app. destruct (find (has_id k) l1); [reflexivity|]. simpl.
  unfold has_id. rewrite Hy. destruct (jstr_eqb (langId c) k) eqn:E; [|reflexivity].
  apply jstr_eqb_eq in E. contradiction.
Qed.

Lemma find_mergeCustomLanguage (k : jstr) (l : list Lang) (c : Lang) :
  find (has_id k) (mergeCustomLanguage langId l c) =
  if has_id k c then Some c else find (has_id k) l.
Proof.
  destruct (has_id k c) eqn:Hc.
  - assert (Hck : langId c = k) by (apply jstr_eqb_eq; exact Hc).
    destruct (mergeCustomLanguage_shape l c) as [[l1 [y [l2 [_ [_ [Hl1 ->]]]]]]|[Hl ->]];
      rewrite find_app.
    + replace (find (has_id k) l1) with (@None Lang).
      * simpl. rewrite Hc. reflexivity.
      * symmetry. apply find_none. intros x Hx. unfold has_id.
        destruct (jstr_eqb (langId x) k) eqn:E; [|reflexivity].
        apply jstr_eqb_eq in E. exfalso. apply (Hl1 x Hx). congruence.
    + replace (find (has_id k) l) with (@None Lang).
      * simpl. rewrite Hc. reflexivity.
      * symmetry. apply find_none. intros x Hx. unfold has_id.
        destruct (jstr_eqb (langId x) k) eqn:E; [|reflexivity].
        apply jstr_eqb_eq in E. exfalso. apply (Hl x Hx). congruence.
  - assert (Hck : langId c <> k) by (intros E; unfold has_id in Hc; rewrite E, jstr_eqb_refl in Hc;
                                     discriminate).
    destruct (mergeCustomLanguage_shape l c) as [[l1 [y [l2 [-> [Hy [_ ->]]]]]]|[_ ->]].
    + apply find_has_id_skip; assumption.
    + rewrite find_app. destruct (find (has_id k) l); [reflexivity|]. simpl. rewrite Hc. reflexivity.
Qed.

(** After all the merges, the last custom language with the id wins. *)
Lemma find_fold_merge (k : jstr) (cs l : list Lang) :
  find (has_id k) (fold_left (mergeCustomLanguage langId) cs l) =
  match find (has_id k) (rev cs) with Some c => Some c | None => find (has_id k) l end.
Proof.
  revert l; induction cs as [|c cs IH]; intros l; simpl; [reflexivity|].
  rewrite IH, find_mergeCustomLanguage, find_app. simpl.
  destruct (find (has_id k) (rev cs)); [reflexivity|]. destruct (has_id k c); reflexivity.
Qed.

Lemma ids_mergeCustomLanguage (l : list Lang) (c : Lang) :
  map langId (mergeCustomLanguage langId l c) =
  if existsb (jstr_eqb (langId c)) (map langId l) then map langId l else map langId l ++ [langId c].
Proof.
  destruct (mergeCustomLanguage_shape l c) as [[l1 [y [l2 [-> [Hy [_ ->]]]]]]|[Hl ->]].
  - replace (existsb (jstr_eqb (langId c)) (map langId (l1 ++ y :: l2))) with true.
    + rewrite !map_app. simpl. rewrite Hy. reflexivity.
    + symmetry. apply existsb_exists. exists (langId y). split.
      * apply in_map, in_or_app. right; left; reflexivity.
      * rewrite Hy. apply jstr_eqb_refl.
  - replace (existsb (jstr_eqb (langId c)) (map langId l)) with false.
    + rewrite map_app. reflexivity.
    + symmetry. apply not_true_iff_false. intros H. apply existsb_exists in H as [k [Hk E]].
      apply in_map_iff in Hk as [x [<- Hx]]. apply jstr_eqb_eq in E. exact (Hl x Hx (eq_sym E)).
Qed.

Lemma ids_fold_merge (cs l : list Lang) :
  NoDup (map langId l) ->
  NoDup (map langId (fold_left (mergeCustomLanguage langId) cs l)) /\
  (exists extra, map langId (fold_left (mergeCustomLanguage langId) cs l) = map langId l ++ extra /\
     incl extra (map langId cs)) /\
  (forall k, In k (map langId (fold_left (mergeCustomLanguage langId) cs l)) <->
             In k (map langId l) \/ In k (map langId cs)).
Proof.
  revert l; induction cs as [|c cs IH]; intros l Hnd; simpl.
  - split; [exact Hnd|]. split; [exists []; rewrite app_nil_r; split; [reflexivity|intros ? []]|].
    intros k; tauto.
  - assert (Hnd' : NoDup (map langId (mergeCustomLanguage langId l c))
              /\ (forall k, In k (map langId (mergeCustomLanguage langId l c)) <->
                            In k (map langId l) \/ k = langId c)
              /\ exists e, map langId (mergeCustomLanguage langId l c) = map langId l ++ e
                           /\ incl e [langId c]).
    { rewrite ids_mergeCustomLanguage.
      destruct (existsb (jstr_eqb (langId c)) (map langId l)) eqn:E.
      - apply existsb_exists in E as [k [Hk Ek]]. apply jstr_eqb_eq in Ek. subst k.
        split; [exact Hnd|]. split; [intros k; split; [tauto|intros [H| ->]; assumption]|].
        exists []. rewrite app_nil_r. split; [reflexivity|intros ? []].
      - split.
        + apply NoDup_app; [exact Hnd|constructor; [intros []|constructor]|].
          intros k Hk [<-|[]]. apply not_true_iff_false in E. apply E, existsb_exists.
          exists (langId c). split; [exact Hk|apply jstr_eqb_refl].
        + split; [intros k; rewrite in_app_iff; simpl; intuition|].
          exists [langId c]. split; [reflexivity|intros ? H; exact H]. }
    destruct Hnd' as [Hnd1 [Hin1 [e1 [He1 Hinc1]]]].
    destruct (IH _ Hnd1) as [H1 [[extra [Hex Hinc]] H3]].
    split; [exact H1|]. split.
    + exists (e1 ++ extra). rewrite Hex, He1, app_assoc. split; [reflexivity|].
      intros k Hk. apply in_app_or in Hk as [Hk|Hk].
      * apply Hinc1 in Hk. destruct Hk as [<-|[]]. left; reflexivity.
      * right. apply Hinc, Hk.
    + intros k. rewrite H3, Hin1. simpl. split; intros H; decompose [or] H; subst; auto.
Qed.
End EffectiveLanguagesFacts.

Lemma NoDup_map_filter {A B} (f : A -> B) (q : A -> bool) (l : list A) :
  NoDup (map f l) -> NoDup (map f (filter q l)).
Proof.
  induction l as [|x l IH]; simpl; intros H; [constructor|].
  inversion H as [|? ? Hx Hl]; subst. destruct (q x); simpl; [|apply IH, Hl].
  constructor; [|apply IH, Hl]. intros Hin. apply Hx.
  apply in_map_iff in Hin as [y [Hy Hin]]. apply filter_In in Hin as [Hin _].
  rewrite <- Hy. apply in_map, Hin.
Qed.

Lemma builtin_ids_nodup : NoDup getBuiltinLanguageIds.
Proof.
  unfold getBuiltinLanguageIds. simpl.
  repeat constructor; simpl; intros H; repeat destruct H as [H|H]; try discriminate; exact H.
Qed.

Lemma find_ext {A} (p q : A -> bool) (l : list A) :
  (forall x, p x = q x) -> find p l = find q l.
Proof. intros H. induction l as [|x l IH]; simpl; [reflexivity|]. rewrite H, IH. reflexivity. Qed.

Lemma enabledBuiltins_nodup (config : LanguageSettings) :
  NoDup (map languageId (enabledBuiltins config)).
Proof.
  unfold enabledBuiltins. destruct (Nat.ltb 0 _);
    [apply NoDup_map_filter|]; apply builtin_ids_nodup.
Qed.

Lemma supported_ids_facts (config : LanguageSettings) :
  NoDup (getSupportedLanguageIds config) /\
  (exists extra, getSupportedLanguageIds config = map languageId (enabledBuiltins config) ++ extra /\
     incl extra (map languageId (customLanguages config))) /\
  (forall k, In k (getSupportedLanguageIds config) <->
     In k (map languageId (enabledBuiltins config)) \/ In k (map languageId (customLanguages config))).
Proof.
  exact (ids_fold_merge languageId (customLanguages config) (enabledBuiltins config)
           (enabledBuiltins_nodup config)).
Qed.

Lemma supported_iff_in_ids (config : LanguageSettings) (k : jstr) :
  isLanguageSupported config k = true <-> In k (getSupportedLanguageIds config).
Proof.
  unfold isLanguageSupported, getLanguageConfig, getSupportedLanguageIds.
  rewrite find_some_iff, in_map_iff. split.
  - intros [x [Hx E]]. apply jstr_eqb_eq in E. exists x. split; assumption.
  - intros [x [E Hx]]. exists x. split; [exact Hx|apply jstr_eqb_eq; exact E].
Qed.

Lemma enabledBuiltins_ids (config : LanguageSettings) (k : jstr) :
  In k (map languageId (enabledBuiltins config)) <->
  In k getBuiltinLanguageIds /\ (enabledLanguages config = [] \/ In k (enabledLanguages config)).
Proof.
  unfold enabledBuiltins, getBuiltinLanguageIds.
  destruct (enabledLanguages config) as [|e es] eqn:Een; cbn [length Nat.ltb Nat.leb].
  - split; [intros H; split; [exact H|left; reflexivity]|intros [H _]; exact H].
  - rewrite !in_map_iff. split.
    + intros [x [<- Hx]]. apply filter_In in Hx as [Hx E].
      split; [exists x; split; [reflexivity|exact Hx]|right].
      apply existsb_exists in E as [y [Hy Ey]]. apply jstr_eqb_eq in Ey. subst y. exact Hy.
    + intros [[x [<- Hx]] [H|H]]; [discriminate|].
      exists x. split; [reflexivity|]. apply filter_In. split; [exact Hx|].
      apply existsb_exists. exists (languageId x). split; [exact H|apply jstr_eqb_refl].
Qed.

(** config.ts, [getLanguageConfig]: the configuration used for a language id
    is the last custom language with that id, if there is one; otherwise the
    built-in language with that id, provided it is enabled ([enabledLanguages]
    empty enables every built-in language); otherwise there is none. *)
Theorem getLanguageConfig_resolution (config : LanguageSettings) (id : jstr) :
  getLanguageConfig config id =
  match find (fun c => jstr_eqb (languageId c) id) (rev (customLanguages config)) with
  | Some custom => Some custom
  | None =>
      find (fun lang => jstr_eqb (languageId lang) id
                        && (Nat.eqb (length (enabledLanguages config)) 0
                            || existsb (jstr_eqb id) (enabledLanguages config)))
           BUILTIN_LANGUAGES
  end.
Proof.
  unfold getLanguageConfig, getEffectiveLanguages, effectiveLanguages.
  pose proof (find_fold_merge languageId id (customLanguages config)) as H.
  unfold has_id in H. rewrite H.
  destruct (find _ (rev (customLanguages config))); [reflexivity|].
  destruct (Nat.ltb_spec 0 (length (enabledLanguages config))) as [Hlt|Hge].
  - rewrite find_filter. apply find_ext. intros x.
    replace (Nat.eqb (length (enabledLanguages config)) 0) with false
      by (symmetry; apply Nat.eqb_neq; lia).
    destruct (jstr_eqb (languageId x) id) eqn:E; [|apply andb_false_r].
    apply jstr_eqb_eq in E. rewrite E. simpl. rewrite andb_true_r. reflexivity.
  - destruct (enabledLanguages config); [|simpl in Hge; lia].
    apply find_ext. intros x. simpl. rewrite andb_true_r. reflexivity.
Qed.

(** config.ts, [getSupportedLanguageIds]: whatever the settings, the ids are
    pairwise distinct; they are the enabled built-in ids, in their built-in
    order (an overridden built-in language keeps its place), followed by ids
    of custom languages; an id is listed exactly when it is an enabled
    built-in id or the id of a custom language. *)
Theorem getSupportedLanguageIds_spec (config : LanguageSettings) :
  NoDup (getSupportedLanguageIds config) /\
  (exists extra, getSupportedLanguageIds config = map languageId (enabledBuiltins config) ++ extra /\
     incl extra (map languageId (customLanguages config))) /\
  (forall k, In k (getSupportedLanguageIds config) <->
     (In k getBuiltinLanguageIds /\ (enabledLanguages config = [] \/ In k (enabledLanguages config)))
     \/ In k (map languageId (customLanguages config))).
Proof.
  destruct (supported_ids_facts config) as [H1 [H2 H3]].
  split; [exact H1|]. split; [exact H2|].
  intros k. rewrite H3, enabledBuiltins_ids. reflexivity.
Qed.

(** config.ts, [isLanguageSupported]: a language is supported exactly when
    its id is listed by [getSupportedLanguageIds], that is when a custom
    language has that id or it is a built-in id that is enabled (an id listed
    in [enabledLanguages] that is neither built in nor custom is not
    supported). *)
Theorem isLanguageSupported_iff (config : LanguageSettings) (k : jstr) :
  (isLanguageSupported config k = true <-> In k (getSupportedLanguageIds config)) /\
  (isLanguageSupported config k = true <->
     In k (map languageId (customLanguages config)) \/
     (In k getBuiltinLanguageIds /\ (enabledLanguages config = [] \/ In k (enabledLanguages config)))).
Proof.
  split; [apply supported_iff_in_ids|].
  rewrite supported_iff_in_ids.
  destruct (supported_ids_facts config) as [_ [_ H3]].
  rewrite H3, enabledBuiltins_ids. tauto.
Qed.

(** ** matcher.ts: lookups by position and by selection *)

Lemma positionAt_mono (text : jstr) (a b : nat) : a <= b -> positionAt text a <= positionAt text b.
Proof. unfold positionAt. lia. Qed.

Lemma findClassMatches_range_ordered (text : jstr) (languageConfig : LanguageConfig)
  (classFunctions : list jstr) (m : ClassMatch) :
  In m (findClassMatches text languageConfig classFunctions) ->
  rangeStart (range m) <= rangeEnd (range m).
Proof.
  intros H. apply findClassMatches_incl, in_app_or in H as [H|H].
  - apply in_flat_map in H as [pat [_ H]]. unfold findMatchesForPattern in H.
    apply in_omap in H as [r [_ Hp]]. unfold patternMatch in Hp.
    destruct (match_item r _) as [cs|]; [|discriminate].
    destruct (js_trim_empty cs); [discriminate|].
    destruct (js_indexOf _ cs); [|discriminate].
    injection Hp as <-. cbn [range rangeStart rangeEnd]. apply positionAt_mono. lia.
  - destruct (functionMatch_span _ _ _ H) as [-> [-> _]]. lia.
Qed.

Lemma findClassMatches_spans (text : jstr) (languageConfig : LanguageConfig)
  (classFunctions : list jstr)
  (Hexec : forall pattern r, In pattern (patterns languageConfig) ->
             In r (regex pattern text) -> execConsistent text r)
  (m : ClassMatch) :
  In m (findClassMatches text languageConfig classFunctions) -> span_invariant text m.
Proof.
  intros H. apply findClassMatches_incl, in_app_or in H as [H|H].
  - apply in_flat_map in H as [pat [Hp H]].
    apply (findMatchesForPattern_span text pat); [|exact H].
    intros r Hr. exact (Hexec pat r Hp Hr).
  - exact (functionMatch_span _ _ _ H).
Qed.

Lemma findClassMatches_start_sorted (text : jstr) (languageConfig : LanguageConfig)
  (classFunctions : list jstr) :
  ForallOrdPairs (fun a b => startOffset a <= startOffset b)
    (findClassMatches text languageConfig classFunctions).
Proof.
  unfold findClassMatches, deduplicateMatches.
  apply deduplicate_go_sorted, findClassMatches_sorted_input.
Qed.

Lemma find_first {A} (R : A -> A -> Prop) (p : A -> bool) (l : list A) (x : A) :
  find p l = Some x -> ForallOrdPairs R l ->
  In x l /\ p x = true /\ forall y, In y l -> p y = true -> x = y \/ R x y.
Proof.
  induction l as [|a l IH]; simpl; [discriminate|]. intros Hf Ho.
  inversion Ho as [|a' l' Ha Hl]; subst.
  destruct (p a) eqn:Ep.
  - injection Hf as <-. split; [left; reflexivity|]. split; [exact Ep|].
    intros y [<-|Hy] _; [left; reflexivity|right].
    rewrite Forall_forall in Ha. exact (Ha y Hy).
  - destruct (IH Hf Hl) as [Hx [Hpx Hmin]].
    split; [right; exact Hx|]. split; [exact Hpx|].
    intros y [<-|Hy] Hpy; [congruence|exact (Hmin y Hy Hpy)].
Qed.

Lemma range_intersection_some (r s : Range) :
  isSome (range_intersection s r) =
  Nat.leb (Nat.max (rangeStart r) (rangeStart s)) (Nat.min (rangeEnd r) (rangeEnd s)).
Proof.
  unfold range_intersection.
  destruct (Nat.ltb_spec (Nat.min (rangeEnd r) (rangeEnd s)) (Nat.max (rangeStart r) (rangeStart s)));
  destruct (Nat.leb_spec (Nat.max (rangeStart r) (rangeStart s)) (Nat.min (rangeEnd r) (rangeEnd s)));
  simpl; try reflexivity; lia.
Qed.

Lemma range_contains_range_true (r other : Range) :
  range_contains_range r other = true ->
  rangeStart r <= rangeStart other /\ rangeStart other <= rangeEnd r /\
  rangeStart r <= rangeEnd other /\ rangeEnd other <= rangeEnd r.
Proof.
  unfold range_contains_range, range_contains_pos.
  rewrite !andb_true_iff, !Nat.leb_le. tauto.
Qed.

Lemma selection_filter_pred (r s : Range) :
  rangeStart r <= rangeEnd r -> rangeStart s <= rangeEnd s ->
  range_contains_range s r || range_contains_range r s || isSome (range_intersection s r) =
  Nat.leb (Nat.max (rangeStart r) (rangeStart s)) (Nat.min (rangeEnd r) (rangeEnd s)).
Proof.
  intros Hr Hs. rewrite range_intersection_some.
  destruct (Nat.leb _ _) eqn:E; [apply orb_true_r|].
  rewrite orb_false_r. apply Nat.leb_gt in E.
  destruct (range_contains_range s r) eqn:E1;
    [apply range_contains_range_true in E1; lia|].
  destruct (range_contains_range r s) eqn:E2;
    [apply range_contains_range_true in E2; lia|reflexivity].
Qed.

(** matcher.ts, [findMatchesInSelection]: the matches kept for a selection
    are the matches of the document, in the same order, whose range shares
    at least one position with the selection (a range that only touches the
    selection at an end is kept); the two containment tests add nothing to
    the intersection test. *)
Theorem findMatchesInSelection_spec (text : jstr) (selection : Selection)
  (languageConfig : LanguageConfig) (classFunctions : list jstr) :
  findMatchesInSelection text selection languageConfig classFunctions =
  filter (fun m => Nat.leb (Nat.max (rangeStart (range m)) (Nat.min (anchor selection) (active selection)))
                           (Nat.min (rangeEnd (range m)) (Nat.max (anchor selection) (active selection))))
         (findClassMatches text languageConfig classFunctions).
Proof.
  unfold findMatchesInSelection. apply filter_ext_in. intros m Hm.
  apply selection_filter_pred.
  - exact (findClassMatches_range_ordered _ _ _ _ Hm).
  - cbn [selectionRange rangeStart rangeEnd]. lia.
Qed.

(** matcher.ts, [findMatchAtPosition]: when every [exec] result of the
    language's rules is consistent with the document, the match returned for
    a position is a match of the document whose class string spans the
    position (its end included), and it starts no later than any other such
    match; no match is returned exactly when no class string spans the
    position. *)
Theorem findMatchAtPosition_spec (text : jstr) (position : nat)
  (languageConfig : LanguageConfig) (classFunctions : list jstr)
  (Hexec : forall pattern r, In pattern (patterns languageConfig) ->
             In r (regex pattern text) -> execConsistent text r) :
  match findMatchAtPosition text position languageConfig classFunctions with
  | Some m =>
      In m (findClassMatches text languageConfig classFunctions) /\
      classStartOffset m <= position <= classStartOffset m + length (classString m) /\
      (forall m', In m' (findClassMatches text languageConfig classFunctions) ->
         classStartOffset m' <= position <= classStartOffset m' + length (classString m') ->
         startOffset m <= startOffset m')
  | None =>
      forall m, In m (findClassMatches text languageConfig classFunctions) ->
        ~ (classStartOffset m <= position <= classStartOffset m + length (classString m))
  end.
Proof.
  pose proof (findClassMatches_spans text languageConfig classFunctions Hexec) as Hsp.
  assert (Hc : forall m, In m (findClassMatches text languageConfig classFunctions) ->
            range_contains_pos (range m) position = true <->
            classStartOffset m <= position <= classStartOffset m + length (classString m)).
  { intros m Hm. destruct (Hsp m Hm) as [E1 [E2 _]].
    unfold range_contains_pos. rewrite E1, E2, andb_true_iff, !Nat.leb_le. reflexivity. }
  unfold findMatchAtPosition.
  destruct (find _ _) as [m|] eqn:Ef.
  - destruct (find_first _ _ _ _ Ef (findClassMatches_start_sorted text languageConfig classFunctions))
      as [Hm [Hp Hmin]].
    split; [exact Hm|]. split; [apply Hc; assumption|].
    intros m' Hm' Hpos. apply Hc in Hpos; [|exact Hm'].
    destruct (Hmin m' Hm' Hpos) as [<-|Hle]; [lia|exact Hle].
  - intros m Hm Hpos. apply Hc in Hpos; [|exact Hm].
    rewrite find_none in Ef. rewrite (Ef m Hm) in Hpos. discriminate.
Qed.

Lemma findMatchAtPosition_spec_witness :
  (forall pattern r, In pattern (patterns rubyConfig) ->
     In r (regex pattern (js "merge(class: 'p-4 flex')")) ->
     execConsistent (js "merge(class: 'p-4 flex')") r) /\
  findMatchAtPosition (js "merge(class: 'p-4 flex')") 16 rubyConfig DEFAULT_CLASS_FUNCTIONS <> None /\
  match findMatchAtPosition (js "merge(class: 'p-4 flex')") 16 rubyConfig DEFAULT_CLASS_FUNCTIONS with
  | Some m =>
      In m (findClassMatches (js "merge(class: 'p-4 flex')") rubyConfig DEFAULT_CLASS_FUNCTIONS) /\
      classStartOffset m <= 16 <= classStartOffset m + length (classString m) /\
      (forall m', In m' (findClassMatches (js "merge(class: 'p-4 flex')") rubyConfig DEFAULT_CLASS_FUNCTIONS) ->
         classStartOffset m' <= 16 <= classStartOffset m' + length (classString m') ->
         startOffset m <= startOffset m')
  | None =>
      forall m, In m (findClassMatches (js "merge(class: 'p-4 flex')") rubyConfig DEFAULT_CLASS_FUNCTIONS) ->
        ~ (classStartOffset m <= 16 <= classStartOffset m + length (classString m))
  end.
Proof.
  assert (H : forall pattern r, In pattern (patterns rubyConfig) ->
     In r (regex pattern (js "merge(class: 'p-4 flex')")) ->
     execConsistent (js "merge(class: 'p-4 flex')") r).
  { intros pattern r Hp Hr. destruct Hp as [<-|[]].
    destruct Hr as [<-|[]]. reflexivity. }
  split; [exact H|]. split; [vm_compute; discriminate|].
  exact (findMatchAtPosition_spec _ 16 rubyConfig DEFAULT_CLASS_FUNCTIONS H).
Defined.

(** ** The sorter service *)

Lemma drop_leading_ws_hd (s : jstr) (c : ascii) :
  hd_error (drop_leading_ws s) = Some c -> is_js_space c = false.
Proof.
  induction s as [|x s IH]; simpl; [discriminate|].
  destruct (is_js_space x) eqn:E; [exact IH|]. intros H; injection H as <-; exact E.
Qed.

Lemma drop_leading_ws_prefix (s : jstr) : exists q, s = q ++ drop_leading_ws s.
Proof.
  induction s as [|x s [q Hq]]; simpl; [exists []; reflexivity|].
  destruct (is_js_space x); [exists (x :: q); simpl; rewrite <- Hq; reflexivity|exists []; reflexivity].
Qed.

Lemma replace_leading_ws_nil_hd (s : jstr) (c : ascii) :
  hd_error (replace_leading_ws s []) = Some c -> is_js_space c = false.
Proof.
  unfold replace_leading_ws. destruct s as [|x s]; [discriminate|].
  destruct (is_js_space x) eqn:E; [apply drop_leading_ws_hd|].
  intros H; injection H as <-; exact E.
Qed.

Lemma replace_trailing_ws_nil (y : jstr) :
  (exists p, y = replace_trailing_ws y [] ++ p) /\
  (forall c, js_last (replace_trailing_ws y []) = Some c -> is_js_space c = false).
Proof.
  unfold replace_trailing_ws.
  destruct (rev y) as [|x r] eqn:Er.
  - split; [exists []; rewrite app_nil_r; reflexivity|].
    unfold js_last. rewrite Er. discriminate.
  - destruct (is_js_space x) eqn:Ex.
    + rewrite <- Er, app_nil_r. split.
      * destruct (drop_leading_ws_prefix (rev y)) as [q Hq].
        exists (rev q). rewrite <- (rev_involutive y) at 1. rewrite Hq at 1.
        rewrite rev_app_distr. reflexivity.
      * intros c. unfold js_last. rewrite rev_involutive.
        destruct (drop_leading_ws (rev y)) as [|d ds] eqn:Ed; [discriminate|].
        intros H; injection H as <-. apply (drop_leading_ws_hd (rev y)). rewrite Ed. reflexivity.
    + split; [exists []; rewrite app_nil_r; reflexivity|].
      intros c. unfold js_last. rewrite Er. intros H; injection H as <-; exact Ex.
Qed.

Lemma collapse_both_ends (x : jstr) :
  let out := replace_trailing_ws [] space
             ++ replace_trailing_ws (replace_leading_ws x []) []
             ++ replace_leading_ws [] space in
  (forall c, hd_error out = Some c -> is_js_space c = false) /\
  (forall c, js_last out = Some c -> is_js_space c = false).
Proof.
  cbv zeta. change (replace_trailing_ws [] space) with (@nil ascii).
  change (replace_leading_ws [] space) with (@nil ascii). rewrite app_nil_r. cbn [app].
  destruct (replace_trailing_ws_nil (replace_leading_ws x [])) as [[p Hp] Hl].
  split; [|exact Hl].
  intros c Hc. apply (replace_leading_ws_nil_hd x). rewrite Hp.
  destruct (replace_trailing_ws _ []); [discriminate|exact Hc].
Qed.

(** types.ts, [TailwindSorterService.sortClasses]: with [preserveWhitespace]
    off, the sorted string of a class string without [{{] that is not made
    of whitespace only neither starts nor ends with a whitespace ([\s])
    character, whatever the ranking oracle and [preserveDuplicates]. *)
Theorem service_sortClasses_trimmed (context : TailwindContext) (classString : jstr)
  (config : ServiceConfig)
  (Hws : preserveWhitespace config = false)
  (Hbr : js_includes classString (js "{{") = false)
  (Honly : only_split_ws classString = false) :
  let out := sorted (TailwindSorterService_sortClasses context classString config) in
  (forall c, hd_error out = Some c -> is_js_space c = false) /\
  (forall c, js_last out = Some c -> is_js_space c = false).
Proof.
  cbv zeta. unfold TailwindSorterService_sortClasses. cbn [sorted].
  destruct classString as [|x s].
  - split; intros c H; discriminate.
  - pose proof (sortClasses_plain (x :: s) context (serviceSortOptions config)
                  ltac:(discriminate) Hbr Honly eq_refl eq_refl) as E.
    cbv zeta in E. rewrite E.
    unfold serviceSortOptions. rewrite Hws. cbn [collapseWhitespace shouldCollapse negb].
    apply collapse_both_ends.
Qed.

Lemma service_sortClasses_trimmed_witness :
  preserveWhitespace {| preserveDuplicates := false; preserveWhitespace := false |} = false /\
  js_includes (js " b a ") (js "{{") = false /\
  only_split_ws (js " b a ") = false /\
  sorted (TailwindSorterService_sortClasses (pointwise rank_abc) (js " b a ")
            {| preserveDuplicates := false; preserveWhitespace := false |}) = js "a b" /\
  let out := sorted (TailwindSorterService_sortClasses (pointwise rank_abc) (js " b a ")
                       {| preserveDuplicates := false; preserveWhitespace := false |}) in
  (forall c, hd_error out = Some c -> is_js_space c = false) /\
  (forall c, js_last out = Some c -> is_js_space c = false).
Proof.
  split; [reflexivity|]. split; [vm_compute; reflexivity|].
  split; [vm_compute; reflexivity|]. split; [vm_compute; reflexivity|].
  exact (service_sortClasses_trimmed (pointwise rank_abc) (js " b a ")
           {| preserveDuplicates := false; preserveWhitespace := false |}
           eq_refl ltac:(vm_compute; reflexivity) ltac:(vm_compute; reflexivity)).
Defined.

Lemma split_ws_concat (s : jstr) : List.concat (split_ws s) = s.
Proof.
  induction s as [|c s IH]; [reflexivity|]. cbn [split_ws].
  destruct (is_split_ws c).
  - destruct (split_ws s) as [|[|x t] [|w p]] eqn:E; simpl in *; rewrite <- IH; try reflexivity.
  - destruct (split_ws s) as [|t p] eqn:E; simpl in *; rewrite <- IH; reflexivity.
Qed.

Lemma stitch_perm (cs ws : list jstr) :
  length ws <= length cs -> Permutation (stitch cs ws) (List.concat cs ++ List.concat ws).
Proof.
  revert ws; induction cs as [|c cs IH]; intros ws Hlen.
  - destruct ws; [reflexivity|simpl in Hlen; lia].
  - destruct ws as [|w ws]; cbn [stitch tl List.concat].
    + rewrite IH by (simpl; lia). simpl. rewrite !app_nil_r. reflexivity.
    + simpl in Hlen. rewrite IH by lia. rewrite <- !app_assoc. apply Permutation_app_head.
      rewrite Permutation_app_swap_app. reflexivity.
Qed.

Lemma concat_perm (l l' : list jstr) : Permutation l l' -> Permutation (List.concat l) (List.concat l').
Proof.
  induction 1; cbn [List.concat].
  - reflexivity.
  - apply Permutation_app_head; assumption.
  - rewrite !app_assoc. apply Permutation_app_tail, Permutation_app_comm.
  - etransitivity; eassumption.
Qed.

Lemma drop_trailing_empty_concat (l : list jstr) :
  List.concat (drop_trailing_empty l) = List.concat l /\ length l <= S (length (drop_trailing_empty l)).
Proof.
  unfold drop_trailing_empty, js_last.
  destruct (rev l) as [|t r] eqn:Er; [split; [reflexivity|lia]|].
  destruct t as [|a t]; [|split; [reflexivity|lia]].
  assert (Hl : l = rev r ++ [[]]) by (rewrite <- (rev_involutive l), Er; reflexivity).
  rewrite Hl, removelast_last, concat_app, length_app. simpl. rewrite !app_nil_r.
  split; [reflexivity|lia].
Qed.

Lemma sortClasses_preserve_all (classStr : jstr) (context : TailwindContext) :
  js_includes classStr (js "{{") = false ->
  sortClasses classStr context
    {| ignoreFirst := false; ignoreLast := false; removeDuplicates := false;
       collapseWhitespace := CollapseBool false |} =
  match classStr with
  | [] => []
  | _ =>
      stitch (map fst (reorderClasses
                         (drop_trailing_empty (filteri (fun _ i => Nat.even i) (split_ws classStr)))
                         context))
             (filteri (fun _ i => negb (Nat.even i)) (split_ws classStr))
  end.
Proof.
  intros Hbr. destruct classStr as [|c s]; [reflexivity|].
  unfold sortClasses. rewrite Hbr. cbn [shouldCollapse collapseWhitespace isSome andb
    ignoreFirst ignoreLast removeDuplicates sortClassList sortClassList_ranked classList
    removedIndices drop_ws_before_removed existsb negb app].
  rewrite app_nil_r. unfold drop_ws_before_removed, filteri. cbn [existsb negb].
  rewrite filteri_go_true. reflexivity.
Qed.

(** types.ts, [TailwindSorterService.sortClasses]: with [preserveDuplicates]
    and [preserveWhitespace] both on, and an oracle that returns one entry
    per class in order, the sorted string is a rearrangement of the class
    string: no character is lost, added or duplicated. *)
Theorem service_sortClasses_permutation (context : TailwindContext) (classString : jstr)
  (config : ServiceConfig)
  (Hok : forall l, oracle_ok context l)
  (Hdup : preserveDuplicates config = true)
  (Hws : preserveWhitespace config = true) :
  Permutation (sorted (TailwindSorterService_sortClasses context classString config)) classString.
Proof.
  unfold TailwindSorterService_sortClasses, serviceSortOptions. cbn [sorted].
  rewrite Hdup, Hws. cbn [negb].
  destruct (js_includes classString (js "{{")) eqn:Hbr.
  - destruct classString as [|c s]; [reflexivity|]. unfold sortClasses. rewrite Hbr. reflexivity.
  - rewrite (sortClasses_preserve_all _ _ Hbr).
    destruct classString as [|c s]; [reflexivity|].
    destruct (split_ws_odd_length (c :: s)) as [n Hn].
    unfold filteri.
    destruct (filteri_parity (split_ws (c :: s)) 0 n eq_refl Hn) as [H1 [H2 H3]].
    destruct (drop_trailing_empty_concat (filteri_go (fun _ i => Nat.even i) 0 (split_ws (c :: s))))
      as [D1 D2].
    set (classes := drop_trailing_empty (filteri_go (fun _ i => Nat.even i) 0 (split_ws (c :: s)))) in *.
    assert (Hperm : Permutation (map fst (reorderClasses classes context)) classes).
    { rewrite <- (Hok classes) at 2. apply Permutation_map. unfold reorderClasses. apply js_sort_perm. }
    rewrite stitch_perm by (rewrite (Permutation_length Hperm); lia).
    rewrite (concat_perm _ _ Hperm), D1, <- H3, split_ws_concat. reflexivity.
Qed.

Lemma service_sortClasses_permutation_witness :
  (forall l, oracle_ok (pointwise rank_abc) l) /\
  sorted (TailwindSorterService_sortClasses (pointwise rank_abc) (js " c  a b a ")
            {| preserveDuplicates := true; preserveWhitespace := true |}) = js " a  a b c " /\
  Permutation (sorted (TailwindSorterService_sortClasses (pointwise rank_abc) (js " c  a b a ")
                 {| preserveDuplicates := true; preserveWhitespace := true |})) (js " c  a b a ").
Proof.
  split; [apply pointwise_ok|]. split; [vm_compute; reflexivity|].
  exact (service_sortClasses_permutation (pointwise rank_abc) (js " c  a b a ")
           {| preserveDuplicates := true; preserveWhitespace := true |}
           (pointwise_ok rank_abc) eq_refl eq_refl).
Defined.

(** ** extension.ts: the edits for a list of matches *)

Lemma in_getEditsForMatches (context : TailwindContext) (matches : list ClassMatch)
  (config : ServiceConfig) (e : TextEdit) :
  In e (getEditsForMatches context matches config) <->
  exists m, In m matches /\ needsSorting context (classString m) config = true /\
    e = {| editRange := range m;
           newText := sortClasses (classString m) context (serviceSortOptions config) |}.
Proof.
  unfold getEditsForMatches. rewrite in_omap. split.
  - intros [m [Hm Hf]]. exists m. split; [exact Hm|].
    unfold needsSorting. destruct (changed _) eqn:Ec; [|discriminate].
    injection Hf as <-. split; reflexivity.
  - intros [m [Hm [Hn ->]]]. exists m. split; [exact Hm|].
    unfold needsSorting in Hn. rewrite Hn. reflexivity.
Qed.

Lemma getEditsForMatches_nil (context : TailwindContext) (matches : list ClassMatch)
  (config : ServiceConfig) :
  getEditsForMatches context matches config = [] <->
  forall m, In m matches -> needsSorting context (classString m) config = false.
Proof.
  split.
  - intros H m Hm. destruct (needsSorting _ _ _) eqn:En; [|reflexivity].
    assert (Hin : In {| editRange := range m;
                        newText := sortClasses (classString m) context (serviceSortOptions config) |}
                     (getEditsForMatches context matches config))
      by (apply in_getEditsForMatches; exists m; auto).
    rewrite H in Hin. destruct Hin.
  - intros H. destruct (getEditsForMatches context matches config) as [|e es] eqn:E; [reflexivity|].
    assert (Hin : In e (getEditsForMatches context matches config)) by (rewrite E; left; reflexivity).
    apply in_getEditsForMatches in Hin as [m [Hm [Hn _]]]. rewrite (H m Hm) in Hn. discriminate.
Qed.

(** extension.ts, [getSortEditsForDocument] and [getEditsForMatches]: when
    every [exec] result of the language's rules is consistent with the
    document, each edit computed for the matches of a document replaces
    exactly the text of one match's class string (the range runs from
    [classStartOffset] over the class string, and the document holds the
    class string there) by the service's sorted string, which differs from
    it; there is no edit exactly when no class string of the document needs
    sorting. *)
Theorem getEditsForMatches_document (context : TailwindContext) (text : jstr)
  (languageConfig : LanguageConfig) (classFunctions : list jstr) (config : ServiceConfig)
  (Hexec : forall pattern r, In pattern (patterns languageConfig) ->
             In r (regex pattern text) -> execConsistent text r) :
  (forall e, In e (getEditsForMatches context (findClassMatches text languageConfig classFunctions) config) ->
     exists m, In m (findClassMatches text languageConfig classFunctions) /\
       rangeStart (editRange e) = classStartOffset m /\
       rangeEnd (editRange e) = classStartOffset m + length (classString m) /\
       rangeEnd (editRange e) <= length text /\
       js_slice text (rangeStart (editRange e)) (rangeEnd (editRange e)) = classString m /\
       newText e = sortClasses (classString m) context (serviceSortOptions config) /\
       newText e <> classString m) /\
  (getEditsForMatches context (findClassMatches text languageConfig classFunctions) config = [] <->
   forall m, In m (findClassMatches text languageConfig classFunctions) ->
     needsSorting context (classString m) config = false).
Proof.
  split; [|apply getEditsForMatches_nil].
  intros e He. apply in_getEditsForMatches in He as [m [Hm [Hn ->]]].
  destruct (findClassMatches_spans text languageConfig classFunctions Hexec m Hm)
    as [E1 [E2 [E3 E4]]].
  exists m. cbn [editRange newText]. rewrite E1, E2.
  split; [exact Hm|]. split; [reflexivity|]. split; [reflexivity|].
  split; [rewrite E2 in E3; lia|]. split; [exact E4|]. split; [reflexivity|].
  unfold needsSorting, TailwindSorterService_sortClasses in Hn. cbn [changed] in Hn.
  intros Heq. rewrite Heq, jstr_eqb_refl in Hn. discriminate.
Qed.

Lemma getEditsForMatches_document_witness :
  (forall pattern r, In pattern (patterns rubyConfig) ->
     In r (regex pattern (js "merge(class: 'b a')")) ->
     execConsistent (js "merge(class: 'b a')") r) /\
  length (getEditsForMatches (pointwise rank_abc)
            (findClassMatches (js "merge(class: 'b a')") rubyConfig DEFAULT_CLASS_FUNCTIONS)
            {| preserveDuplicates := false; preserveWhitespace := false |}) = 1 /\
  (forall e, In e (getEditsForMatches (pointwise rank_abc)
                     (findClassMatches (js "merge(class: 'b a')") rubyConfig DEFAULT_CLASS_FUNCTIONS)
                     {| preserveDuplicates := false; preserveWhitespace := false |}) ->
     exists m, In m (findClassMatches (js "merge(class: 'b a')") rubyConfig DEFAULT_CLASS_FUNCTIONS) /\
       rangeStart (editRange e) = classStartOffset m /\
       rangeEnd (editRange e) = classStartOffset m + length (classString m) /\
       rangeEnd (editRange e) <= length (js "merge(class: 'b a')") /\
       js_slice (js "merge(class: 'b a')") (rangeStart (editRange e)) (rangeEnd (editRange e))
         = classString m /\
       newText e = sortClasses (classString m) (pointwise rank_abc)
                     (serviceSortOptions {| preserveDuplicates := false; preserveWhitespace := false |}) /\
       newText e <> classString m).
Proof.
  assert (H : forall pattern r, In pattern (patterns rubyConfig) ->
     In r (regex pattern (js "merge(class: 'b a')")) ->
     execConsistent (js "merge(class: 'b a')") r).
  { intros pattern r Hp Hr. destruct Hp as [<-|[]].
    destruct Hr as [<-|[]]. reflexivity. }
  split; [exact H|]. split; [vm_compute; reflexivity|].
  exact (proj1 (getEditsForMatches_document (pointwise rank_abc) _ rubyConfig DEFAULT_CLASS_FUNCTIONS
                  {| preserveDuplicates := false; preserveWhitespace := false |} H)).
Defined.

(** ** matcher.ts: the string literals of one call *)

Lemma stringScan_lower (s : jstr) (i skip : nat) (sm : StringMatch) :
  In sm (stringScan s i skip) -> i + skip < start sm.
Proof.
  revert i skip; induction s as [|c s IH]; intros i skip H; [contradiction|].
  cbn [stringScan] in H. destruct (Nat.ltb 0 skip) eqn:Es.
  - apply Nat.ltb_lt in Es. apply IH in H. lia.
  - apply Nat.ltb_ge in Es. destruct (is_quote c).
    + destruct (stringBody c s) as [n|].
      * destruct H as [<-|H]; [cbn [start]; lia|apply IH in H; lia].
      * apply IH in H; lia.
    + apply IH in H; lia.
Qed.

Lemma stringScan_ordered (s : jstr) (i skip : nat) :
  ForallOrdPairs (fun a b => start a + length (value a) + 1 < start b) (stringScan s i skip).
Proof.
  revert i skip; induction s as [|c s IH]; intros i skip; [constructor|].
  cbn [stringScan]. destruct (Nat.ltb 0 skip); [apply IH|].
  destruct (is_quote c); [|apply IH].
  destruct (stringBody c s) as [n|] eqn:Eb; [|apply IH].
  constructor; [|apply IH].
  apply Forall_forall. intros b Hb. apply stringScan_lower in Hb.
  destruct (stringBody_spec c s n Eb) as [Hn _].
  assert (n < length s) by (apply nth_error_Some; congruence).
  cbn [start value]. rewrite length_firstn. lia.
Qed.

Lemma ForallOrdPairs_omap {A B} (R : A -> A -> Prop) (R' : B -> B -> Prop) (f : A -> option B)
  (l : list A) :
  (forall x y fx fy, f x = Some fx -> f y = Some fy -> R x y -> R' fx fy) ->
  ForallOrdPairs R l -> ForallOrdPairs R' (omap f l).
Proof.
  intros Hf H. induction H as [|x l Hx Hl IH]; cbn [omap]; [constructor|].
  destruct (f x) as [fx|] eqn:Ex; [|exact IH].
  constructor; [|exact IH].
  apply Forall_forall. intros fy Hy. apply in_omap in Hy as [y [Hy Efy]].
  rewrite Forall_forall in Hx. exact (Hf x y fx fy Ex Efy (Hx y Hy)).
Qed.

Lemma ForallOrdPairs_filter {A} (R : A -> A -> Prop) (q : A -> bool) (l : list A) :
  ForallOrdPairs R l -> ForallOrdPairs R (filter q l).
Proof.
  induction 1 as [|x l Hx Hl IH]; cbn [filter]; [constructor|].
  destruct (q x); [|exact IH]. constructor; [|exact IH].
  rewrite Forall_forall in *. intros y Hy. apply filter_In in Hy as [Hy _]. exact (Hx y Hy).
Qed.

Lemma filter_flat_map {A B} (q : B -> bool) (f : A -> list B) (l : list A) :
  filter q (flat_map f l) = flat_map (fun x => filter q (f x)) l.
Proof. induction l as [|x l IH]; cbn [flat_map]; [reflexivity|]. rewrite filter_app, IH. reflexivity. Qed.

Lemma filter_none {A} (q : A -> bool) (l : list A) :
  (forall x, In x l -> q x = false) -> filter q l = [].
Proof.
  induction l as [|x l IH]; intros H; cbn [filter]; [reflexivity|].
  rewrite (H x (or_introl eq_refl)). apply IH. intros y Hy. exact (H y (or_intror Hy)).
Qed.

Lemma functionStarts_go_nodup (names : list jstr) (s : jstr) (pos skip : nat) :
  NoDup (map fst (functionStarts_go names s pos skip)).
Proof.
  revert pos skip; induction s as [|c s IH]; intros pos skip; [constructor|].
  cbn [functionStarts_go]. destruct (Nat.ltb 0 skip); [apply IH|].
  destruct (functionStartAt names (c :: s)) as [len|]; [|apply IH].
  cbn [map fst]. constructor; [|apply IH].
  intros Hin. apply in_map_iff in Hin as [[p L] [Hp Hin]]. cbn [fst] in Hp. subst p.
  apply functionStarts_go_props in Hin. lia.
Qed.

Lemma flat_map_all_nil {A B} (g : A -> list B) (l : list A) :
  (forall x, In x l -> g x = []) -> flat_map g l = [].
Proof.
  induction l as [|x l IH]; intros H; cbn [flat_map]; [reflexivity|].
  rewrite (H x (or_introl eq_refl)). apply IH. intros y Hy. exact (H y (or_intror Hy)).
Qed.

Lemma ForallOrdPairs_flat_map_single {B} (R : B -> B -> Prop) (g : nat * nat -> list B)
  (l : list (nat * nat)) (p : nat) :
  NoDup (map fst l) ->
  (forall x, In x l -> fst x <> p -> g x = []) ->
  (forall x, In x l -> ForallOrdPairs R (g x)) ->
  ForallOrdPairs R (flat_map g l).
Proof.
  induction l as [|x l IH]; intros Hnd Hg Hs; cbn [flat_map]; [constructor|].
  inversion Hnd as [|? ? Hx Hnd']; subst.
  destruct (Nat.eq_dec (fst x) p) as [Ep|Ep].
  - rewrite flat_map_all_nil, app_nil_r; [exact (Hs x (or_introl eq_refl))|].
    intros y Hy. apply Hg; [right; exact Hy|]. intros Ey. apply Hx. rewrite Ep, <- Ey.
    apply in_map; exact Hy.
  - rewrite (Hg x (or_introl eq_refl) Ep). cbn [app].
    apply IH; [exact Hnd'| |]; intros y Hy; [apply Hg|apply Hs]; right; exact Hy.
Qed.

(** matcher.ts, [findClassFunctionMatches]: the class strings taken from one
    call (the matches with the same [startOffset], the index of the function
    name) come in source order and do not overlap: the closing quote of each
    lies before the opening quote of the next. *)
Theorem functionMatches_same_call_ordered (text : jstr) (functionNames : list jstr) (p : nat) :
  ForallOrdPairs (fun a b => classStartOffset a + length (classString a) + 1 < classStartOffset b)
    (filter (fun m => Nat.eqb (startOffset m) p) (findClassFunctionMatches text functionNames)).
Proof.
  unfold findClassFunctionMatches. destruct functionNames as [|n ns]; [constructor|].
  rewrite filter_flat_map. unfold functionStarts.
  apply ForallOrdPairs_flat_map_single with (p := p); [apply functionStarts_go_nodup| |].
  - intros [p' L] _ Hp'. cbn [fst] in Hp'.
    destruct (extractBalancedContent text (p' + L - 1)) as [bc|]; [|reflexivity].
    apply filter_none. intros m Hm. apply in_omap in Hm as [sm [_ Hf]].
    unfold functionMatch in Hf. destruct (js_trim_empty (value sm)); [discriminate|].
    injection Hf as <-. cbn [startOffset]. apply Nat.eqb_neq. exact Hp'.
  - intros [p' L] _.
    destruct (extractBalancedContent text (p' + L - 1)) as [bc|]; [|constructor].
    apply ForallOrdPairs_filter.
    apply (ForallOrdPairs_omap (fun a b => start a + length (value a) + 1 < start b));
      [|apply stringScan_ordered].
    intros x y fx fy Ex Ey Hxy. unfold functionMatch in Ex, Ey.
    destruct (js_trim_empty (value x)); [discriminate|].
    destruct (js_trim_empty (value y)); [discriminate|].
    injection Ex as <-. injection Ey as <-. cbn [classStartOffset classString]. lia.
Qed.

(** ** matcher.ts: a cursor as an empty selection *)

Lemma find_hd_filter {A} (p : A -> bool) (l : list A) : find p l = hd_error (filter p l).
Proof. induction l as [|x l IH]; cbn [find filter]; [reflexivity|]. destruct (p x); [reflexivity|exact IH]. Qed.

(** matcher.ts, [findMatchAtPosition] and [findMatchesInSelection]: for an
    empty selection (anchor and active both at [position]), the matches kept
    are exactly the matches whose range contains the position, in document
    order, and [findMatchAtPosition] returns the first of them (none when
    there is none). *)
Theorem findMatchAtPosition_cursor_selection (text : jstr) (position : nat)
  (languageConfig : LanguageConfig) (classFunctions : list jstr) :
  findMatchesInSelection text {| anchor := position; active := position |} languageConfig classFunctions
  = filter (fun m => range_contains_pos (range m) position)
           (findClassMatches text languageConfig classFunctions) /\
  findMatchAtPosition text position languageConfig classFunctions
  = hd_error (findMatchesInSelection text {| anchor := position; active := position |}
                languageConfig classFunctions).
Proof.
  assert (E : findMatchesInSelection text {| anchor := position; active := position |} languageConfig classFunctions
              = filter (fun m => range_contains_pos (range m) position)
                       (findClassMatches text languageConfig classFunctions)).
  { unfold findMatchesInSelection. apply filter_ext_in. intros m Hm.
    pose proof (findClassMatches_range_ordered _ _ _ _ Hm) as Ho.
    rewrite selection_filter_pred by (cbn [selectionRange rangeStart rangeEnd]; lia).
    cbn [selectionRange rangeStart rangeEnd anchor active]. unfold range_contains_pos.
    rewrite Nat.min_id, Nat.max_id.
    destruct (Nat.leb_spec (Nat.max (rangeStart (range m)) position) (Nat.min (rangeEnd (range m)) position));
    destruct (Nat.leb_spec (rangeStart (range m)) position);
    destruct (Nat.leb_spec position (rangeEnd (range m))); simpl; try reflexivity; lia. }
  split; [exact E|]. rewrite E. unfold findMatchAtPosition. apply find_hd_filter.
Qed.
